(** * whatsapp-mail: connection lifecycle and idempotent ingestion

    A shallow embedding of the TypeScript handlers
    (message / history / chat / contact / group) and of the
    WhatsAppService connection manager, together with the properties the
    design document states about them. *)

From Stdlib Require Import String Ascii List ZArith Bool Arith Lia.
Import ListNotations.

Local Open Scope string_scope.
Local Open Scope list_scope.

(* ================================================================== *)
(** * JavaScript values as the handlers read them *)
(* ================================================================== *)

(** An optional, nullable property [f?: T | null] of an update payload:
    the key is missing ([undefined]), explicitly [null], or carries a value. *)
Inductive Field (A : Type) : Type :=
| Absent
| Null
| Val (a : A).
Arguments Absent {A}.
Arguments Null {A}.
Arguments Val {A} a.

(** Reading a field whose [null] and [undefined] are not told apart. *)
Definition nullable {A} (f : Field A) : option A :=
  match f with Val a => Some a | _ => None end.

(** Truthiness of a nullable string: [null], [undefined] and [''] are falsy. *)
Definition truthy (s : option string) : bool :=
  match s with
  | Some s => negb (s =? "")
  | None => false
  end.

(** [a || b] on nullable strings. *)
Definition or_str (a b : option string) : option string :=
  if truthy a then a else b.

(** [a || b] on nullable objects (an object is always truthy). *)
Definition or_obj {A} (a b : option A) : option A :=
  match a with Some _ => a | None => b end.

(** [a?.f] *)
Definition opt {A B} (a : option A) (f : A -> option B) : option B :=
  match a with Some x => f x | None => None end.

(** [s.endsWith(suffix)] *)
Definition endsWith (s suffix : string) : bool :=
  (String.length suffix <=? String.length s)%nat &&
  (substring (String.length s - String.length suffix) (String.length suffix) s
     =? suffix).

(* ================================================================== *)
(** * Transport payloads (the parts of [proto.IWebMessageInfo] the
      handlers read) *)
(* ================================================================== *)

Record ContextInfo := {
  stanzaId : option string;
  mentionedJid : option (list string);
  isForwarded : option bool
}.

Record ExtendedTextMessage := {
  text : option string;
  ext_contextInfo : option ContextInfo
}.

(** image / video / audio / document / sticker messages: the handler reads
    only these properties; one a given kind does not have is [None]. *)
Record MediaMessage := {
  caption : option string;
  mimetype : option string;
  fileName : option string;
  contextInfo : option ContextInfo
}.

(** location and live-location messages; coordinates are only copied. *)
Record LocationMessage := {
  degreesLatitude : option Z;
  degreesLongitude : option Z;
  loc_name : option string;
  address : option string;
  loc_caption : option string
}.

Record ContactMessage := {
  displayName : option string;
  vcard : option string
}.

Record PollCreationMessage := {
  poll_name : option string;
  options : list string;
  selectableOptionsCount : option Z
}.

(** One own property of a [proto.IMessage] object.  The value of a known
    key may be [null] ([None]); [documentWithCaptionMessage] carries what
    [?.message?.documentMessage] reaches. *)
Inductive ContentEntry :=
| conversation (v : option string)
| extendedTextMessage (v : option ExtendedTextMessage)
| imageMessage (v : option MediaMessage)
| videoMessage (v : option MediaMessage)
| audioMessage (v : option MediaMessage)
| documentMessage (v : option MediaMessage)
| documentWithCaptionMessage (v : option MediaMessage)
| stickerMessage (v : option MediaMessage)
| locationMessage (v : option LocationMessage)
| liveLocationMessage (v : option LocationMessage)
| contactMessage (v : option ContactMessage)
| contactsArrayMessage (v : option (list ContactMessage))
| pollCreationMessage (v : option PollCreationMessage)
| pollUpdateMessage
| reactionMessage (v : option string)
| protocolMessage
| senderKeyDistributionMessage
| otherKey (k : string).

(** A message content object: its own properties in enumeration order
    (the order [Object.keys] returns them in). *)
Definition IMessage := list ContentEntry.

Definition key_of (e : ContentEntry) : string :=
  match e with
  | conversation _ => "conversation"
  | extendedTextMessage _ => "extendedTextMessage"
  | imageMessage _ => "imageMessage"
  | videoMessage _ => "videoMessage"
  | audioMessage _ => "audioMessage"
  | documentMessage _ => "documentMessage"
  | documentWithCaptionMessage _ => "documentWithCaptionMessage"
  | stickerMessage _ => "stickerMessage"
  | locationMessage _ => "locationMessage"
  | liveLocationMessage _ => "liveLocationMessage"
  | contactMessage _ => "contactMessage"
  | contactsArrayMessage _ => "contactsArrayMessage"
  | pollCreationMessage _ => "pollCreationMessage"
  | pollUpdateMessage => "pollUpdateMessage"
  | reactionMessage _ => "reactionMessage"
  | protocolMessage => "protocolMessage"
  | senderKeyDistributionMessage => "senderKeyDistributionMessage"
  | otherKey k => k
  end.

(** [Object.keys(messageContent)] *)
Definition Object_keys (m : IMessage) : list string := map key_of m.

(** Property read [m.k]: the value of the first entry the selector accepts. *)
Fixpoint prop {A} (sel : ContentEntry -> option (option A)) (m : IMessage)
  : option A :=
  match m with
  | [] => None
  | e :: rest =>
      match sel e with
      | Some v => v
      | None => prop sel rest
      end
  end.

Definition get_conversation :=
  prop (fun e => match e with conversation v => Some v | _ => None end).
Definition get_extendedTextMessage :=
  prop (fun e => match e with extendedTextMessage v => Some v | _ => None end).
Definition get_imageMessage :=
  prop (fun e => match e with imageMessage v => Some v | _ => None end).
Definition get_videoMessage :=
  prop (fun e => match e with videoMessage v => Some v | _ => None end).
Definition get_audioMessage :=
  prop (fun e => match e with audioMessage v => Some v | _ => None end).
Definition get_documentMessage :=
  prop (fun e => match e with documentMessage v => Some v | _ => None end).
Definition get_documentWithCaptionMessage :=
  prop (fun e => match e with documentWithCaptionMessage v => Some v | _ => None end).
Definition get_stickerMessage :=
  prop (fun e => match e with stickerMessage v => Some v | _ => None end).
Definition get_locationMessage :=
  prop (fun e => match e with locationMessage v => Some v | _ => None end).
Definition get_liveLocationMessage :=
  prop (fun e => match e with liveLocationMessage v => Some v | _ => None end).
Definition get_contactMessage :=
  prop (fun e => match e with contactMessage v => Some v | _ => None end).
Definition get_contactsArrayMessage :=
  prop (fun e => match e with contactsArrayMessage v => Some v | _ => None end).
Definition get_pollCreationMessage :=
  prop (fun e => match e with pollCreationMessage v => Some v | _ => None end).
Definition get_reactionMessage :=
  prop (fun e => match e with reactionMessage v => Some v | _ => None end).

Record MessageKey := {
  remoteJid : option string;
  fromMe : option bool;
  id : option string;
  participant : option string
}.

(** [messageTimestamp]: a plain number or a Long object [{low, high}]. *)
Inductive Timestamp :=
| TsNumber (n : Z)
| TsLong (low high : Z).

Record WebMessageInfo := {
  key : option MessageKey;
  message : option IMessage;
  messageTimestamp : option Timestamp;
  pushName : option string
}.

(* ================================================================== *)
(** * Event normalizer (message.handler.ts, pure part) *)
(* ================================================================== *)

(** The [switch (key)] of [resolveMessageType]: the message type a single
    key decides, or [None] for the [default] branch. *)
Definition type_of_key (k : string) : option string :=
  if (k =? "conversation") || (k =? "extendedTextMessage") then Some "chat"
  else if k =? "imageMessage" then Some "image"
  else if k =? "videoMessage" then Some "video"
  else if k =? "audioMessage" then Some "audio"
  else if (k =? "documentMessage") || (k =? "documentWithCaptionMessage")
       then Some "document"
  else if k =? "stickerMessage" then Some "sticker"
  else if (k =? "locationMessage") || (k =? "liveLocationMessage")
       then Some "location"
  else if (k =? "contactMessage") || (k =? "contactsArrayMessage")
       then Some "contact"
  else if (k =? "pollCreationMessage") || (k =? "pollUpdateMessage")
       then Some "poll"
  else if k =? "reactionMessage" then Some "reaction"
  else if (k =? "protocolMessage") || (k =? "senderKeyDistributionMessage")
       then Some "protocol"
  else None.

(** The [for (const key of keys)] loop. *)
Fixpoint resolve_keys (keys : list string) : string :=
  match keys with
  | [] => "unknown"
  | k :: rest =>
      match type_of_key k with
      | Some t => t
      | None => resolve_keys rest
      end
  end.

Definition resolveMessageType (messageContent : option IMessage) : string :=
  match messageContent with
  | None => "unknown"
  | Some m => resolve_keys (Object_keys m)
  end.

Definition extractBody (messageContent : option IMessage) : option string :=
  match messageContent with
  | None => None
  | Some m =>
      or_str (get_conversation m)
      (or_str (opt (get_extendedTextMessage m) text)
      (or_str (opt (get_imageMessage m) caption)
      (or_str (opt (get_videoMessage m) caption)
      (or_str (opt (get_documentMessage m) caption)
      (or_str (opt (get_documentWithCaptionMessage m) caption)
      (or_str (opt (get_pollCreationMessage m) poll_name)
      (or_str (get_reactionMessage m)
      (or_str (opt (get_contactMessage m) displayName)
      (or_str (opt (get_locationMessage m) loc_name)
      (or_str (opt (get_liveLocationMessage m) loc_caption)
       None))))))))))
  end.

Inductive ChatType := private | group | broadcast.

Definition chatTypeFromJid (jid : string) : ChatType :=
  if endsWith jid "@g.us" then group
  else if endsWith jid "@broadcast" then broadcast
  else private.

(** [extractTimestamp]: milliseconds since the epoch; [now] stands for
    [new Date()]. *)
Definition extractTimestamp (now : Z) (ts : option Timestamp) : Z :=
  match ts with
  | None => now
  | Some (TsLong low _) => low * 1000
  | Some (TsNumber n) => n * 1000
  end.

Definition hasMedia (messageType : string) : bool :=
  existsb (String.eqb messageType)
          ["image"; "video"; "audio"; "document"; "sticker"].

(* ================================================================== *)
(** * Entity store (migrations/001_initial_schema.sql and the models) *)
(* ================================================================== *)

Record ChatRow := {
  chat_pk : nat;
  chat_id : string;
  chat_type : ChatType;
  chat_name : option string;
  is_archived : bool;
  is_pinned : bool;
  is_muted : bool;
  last_message_at : option Z;
  last_message_preview : option string;
  unread_count : Z;
  total_message_count : Z
}.

Record ContactRow := {
  contact_pk : nat;
  contact_id : string;
  contact_name : option string;
  avatar_url : option string;
  about : option string;
  last_seen_at : option Z
}.

Inductive LocationData :=
| StaticLocation (latitude longitude : option Z) (name address : option string)
| LiveLocation (latitude longitude : option Z) (caption : option string).

Inductive ContactData :=
| ContactCard (displayName vcard : option string)
| ContactList (contacts : list ContactMessage).

(** The [defaults] object handed to [Message.findOrCreate]. *)
Record MessageAttrs := {
  message_id : string;
  msg_chat_id : nat;
  sender_id : string;
  sender_name : option string;
  is_from_me : bool;
  body : option string;
  message_type : string;
  has_media : bool;
  media_mimetype : option string;
  media_filename : option string;
  media_caption : option string;
  timestamp : Z;
  is_forwarded : bool;
  quoted_message_id : option nat;
  mentions : option (list string);
  poll_data : option PollCreationMessage;
  location_data : option LocationData;
  contact_data : option ContactData;
  raw_data : WebMessageInfo
}.

Record MessageRow := {
  msg_pk : nat;
  attrs : MessageAttrs
}.

Record GroupMetadataRow := {
  gm_pk : nat;
  gm_chat_id : nat;
  gm_subject : option string;
  gm_owner : option string;
  gm_description : option string;
  gm_announce : bool;
  gm_restrict_mode : bool;
  gm_join_approval_mode : bool;
  gm_member_add_mode : bool;
  gm_ephemeral_duration : option Z
}.

Record Store := {
  chats : list ChatRow;
  contacts : list ContactRow;
  messages : list MessageRow;
  group_metadata : list GroupMetadataRow
}.

Definition empty_store : Store :=
  {| chats := []; contacts := []; messages := []; group_metadata := [] |}.

(** The [changes] objects passed to [instance.update]: a column is written
    exactly when its key is present ([Some]). *)
Record ChatChanges := {
  set_is_archived : option bool;
  set_is_pinned : option bool;
  set_is_muted : option bool;
  set_name : option (option string);
  set_unread_count : option Z;
  set_last_message_at : option Z;
  set_last_message_preview : option string
}.

Definition no_chat_changes : ChatChanges :=
  {| set_is_archived := None; set_is_pinned := None; set_is_muted := None;
     set_name := None; set_unread_count := None;
     set_last_message_at := None; set_last_message_preview := None |}.

Record ContactChanges := {
  set_contact_name : option string;
  set_avatar_url : option (option string);
  set_about : option (option string);
  set_last_seen_at : option Z
}.

Record GroupChanges := {
  set_subject : option string;
  set_owner : option string;
  set_description : option string;
  set_announce : option bool;
  set_restrict_mode : option bool;
  set_join_approval_mode : option bool;
  set_member_add_mode : option bool;
  set_ephemeral_duration : option Z
}.

(** [Object.keys(changes).length > 0] *)
Definition has_key {A} (o : option A) : bool :=
  match o with Some _ => true | None => false end.

Definition chat_changes_nonempty (c : ChatChanges) : bool :=
  has_key (set_is_archived c) || has_key (set_is_pinned c) ||
  has_key (set_is_muted c) || has_key (set_name c) ||
  has_key (set_unread_count c) || has_key (set_last_message_at c) ||
  has_key (set_last_message_preview c).

Definition contact_changes_nonempty (c : ContactChanges) : bool :=
  has_key (set_contact_name c) || has_key (set_avatar_url c) ||
  has_key (set_about c) || has_key (set_last_seen_at c).

Definition group_changes_nonempty (c : GroupChanges) : bool :=
  has_key (set_subject c) || has_key (set_owner c) ||
  has_key (set_description c) || has_key (set_announce c) ||
  has_key (set_restrict_mode c) || has_key (set_join_approval_mode c) ||
  has_key (set_member_add_mode c) || has_key (set_ephemeral_duration c).

Definition upd {A} (new : option A) (old : A) : A :=
  match new with Some v => v | None => old end.

Definition apply_chat_changes (c : ChatChanges) (r : ChatRow) : ChatRow :=
  {| chat_pk := chat_pk r;
     chat_id := chat_id r;
     chat_type := chat_type r;
     chat_name := upd (set_name c) (chat_name r);
     is_archived := upd (set_is_archived c) (is_archived r);
     is_pinned := upd (set_is_pinned c) (is_pinned r);
     is_muted := upd (set_is_muted c) (is_muted r);
     last_message_at :=
       match set_last_message_at c with
       | Some t => Some t
       | None => last_message_at r
       end;
     last_message_preview :=
       match set_last_message_preview c with
       | Some p => Some p
       | None => last_message_preview r
       end;
     unread_count := upd (set_unread_count c) (unread_count r);
     total_message_count := total_message_count r |}.

Definition apply_contact_changes (c : ContactChanges) (r : ContactRow)
  : ContactRow :=
  {| contact_pk := contact_pk r;
     contact_id := contact_id r;
     contact_name :=
       match set_contact_name c with
       | Some n => Some n
       | None => contact_name r
       end;
     avatar_url := upd (set_avatar_url c) (avatar_url r);
     about := upd (set_about c) (about r);
     last_seen_at :=
       match set_last_seen_at c with
       | Some t => Some t
       | None => last_seen_at r
       end |}.

Definition some_or {A} (new old : option A) : option A :=
  match new with Some v => Some v | None => old end.

Definition apply_group_changes (c : GroupChanges) (r : GroupMetadataRow)
  : GroupMetadataRow :=
  {| gm_pk := gm_pk r;
     gm_chat_id := gm_chat_id r;
     gm_subject := some_or (set_subject c) (gm_subject r);
     gm_owner := some_or (set_owner c) (gm_owner r);
     gm_description := some_or (set_description c) (gm_description r);
     gm_announce := upd (set_announce c) (gm_announce r);
     gm_restrict_mode := upd (set_restrict_mode c) (gm_restrict_mode r);
     gm_join_approval_mode :=
       upd (set_join_approval_mode c) (gm_join_approval_mode r);
     gm_member_add_mode :=
       upd (set_member_add_mode c) (gm_member_add_mode r);
     gm_ephemeral_duration :=
       some_or (set_ephemeral_duration c) (gm_ephemeral_duration r) |}.

(** A request sent to the store. *)
Inductive DbOp :=
| TxBegin
| TxCommit
| TxRollback
| ChatFindOne (jid : string)
| ChatFindOrCreate (jid : string) (ty : ChatType) (name : option string)
| ChatUpdate (pk : nat) (c : ChatChanges)
| ContactFindOrCreate (cid : string) (name avatar status : option string)
| ContactUpdate (pk : nat) (c : ContactChanges)
| MessageFindOne (mid : string)
| MessageFindOrCreate (defaults : MessageAttrs)
| GroupMetadataFindOrCreate (chat : nat) (c : GroupChanges)
| GroupMetadataUpdate (pk : nat) (c : GroupChanges).

Inductive Exn :=
| DbError (op : DbOp)
| TransactionFinished.

Inductive Level := debug | info | warn | error.

Inductive LogValue :=
| VStr (s : option string)
| VNum (n : Z)
| VBool (b : bool)
| VKeys (ks : list string)
| VKey (k : option MessageKey)
| VErr (e : Exn).

(** What a handler does that the outside can observe, in order: log lines
    and store requests ([in_tx]: issued with the [transaction] option). *)
Inductive Event :=
| EvLog (lvl : Level) (fields : list (string * LogValue)) (msg : string)
| EvDb (in_tx : bool) (op : DbOp).

(** The surroundings of a handler run: the clock behind [new Date()] and
    which store requests the store rejects (constraint violation, lost
    connection, ...). *)
Record Env := {
  now : Z;
  db_fails : DbOp -> bool
}.

Record World := {
  store : Store;
  trace : list Event;
  (** the open transaction, as the store contents to roll back to *)
  tx : option Store
}.

Definition initial_world : World :=
  {| store := empty_store; trace := []; tx := None |}.

(* ------------------------------------------------------------------ *)
(** ** The handler monad: environment, world, exceptions *)

Inductive Outcome (A : Type) : Type :=
| Ok (a : A)
| Throw (e : Exn).
Arguments Ok {A} a.
Arguments Throw {A} e.

Definition M (A : Type) : Type := Env -> World -> Outcome A * World.

Definition ret {A} (a : A) : M A := fun _ w => (Ok a, w).

Definition bind {A B} (m : M A) (k : A -> M B) : M B :=
  fun env w =>
    match m env w with
    | (Ok a, w') => k a env w'
    | (Throw e, w') => (Throw e, w')
    end.

Definition throw {A} (e : Exn) : M A := fun _ w => (Throw e, w).

(** [try { m } catch (err) { h err }] *)
Definition try_catch {A} (m : M A) (h : Exn -> M A) : M A :=
  fun env w =>
    match m env w with
    | (Ok a, w') => (Ok a, w')
    | (Throw e, w') => h e env w'
    end.

Declare Scope monad_scope.
Delimit Scope monad_scope with monad.
Notation "x <- m ;; k" := (bind m (fun x => k))
  (at level 61, m at next level, right associativity) : monad_scope.
Notation "' pat <- m ;; k" := (bind m (fun x => match x with pat => k end))
  (at level 61, pat pattern, m at next level, right associativity)
  : monad_scope.
Notation "m ;; k" := (bind m (fun _ => k))
  (at level 61, right associativity) : monad_scope.
Local Open Scope monad_scope.

Definition emit (e : Event) (w : World) : World :=
  {| store := store w; trace := trace w ++ [e]; tx := tx w |}.

Definition with_store (s : Store) (w : World) : World :=
  {| store := s; trace := trace w; tx := tx w |}.

Definition with_tx (t : option Store) (w : World) : World :=
  {| store := store w; trace := trace w; tx := t |}.

Definition log (lvl : Level) (fields : list (string * LogValue))
           (msg : string) : M unit :=
  fun _ w => (Ok tt, emit (EvLog lvl fields msg) w).

Definition get_now : M Z := fun env w => (Ok (now env), w).

(** One awaited store request: recorded, then rejected or run. *)
Definition query {A} (in_tx : bool) (op : DbOp) (run : Store -> A * Store)
  : M A :=
  fun env w =>
    let w1 := emit (EvDb in_tx op) w in
    if db_fails env op then (Throw (DbError op), w1)
    else let (a, s') := run (store w1) in (Ok a, with_store s' w1).

(** [for (const x of xs) { body x }] *)
Fixpoint for_of {A} (xs : list A) (body : A -> M unit) : M unit :=
  match xs with
  | [] => ret tt
  | x :: rest => body x ;; for_of rest body
  end.

Definition when (b : bool) (m : M unit) : M unit :=
  if b then m else ret tt.

(* ------------------------------------------------------------------ *)
(** ** sequelize.transaction() *)

Module Transaction.

Definition begin : M unit :=
  fun env w =>
    let w1 := emit (EvDb false TxBegin) w in
    if db_fails env TxBegin then (Throw (DbError TxBegin), w1)
    else (Ok tt, with_tx (Some (store w1)) w1).

Definition commit : M unit :=
  fun env w =>
    let w1 := emit (EvDb true TxCommit) w in
    match tx w1 with
    | None => (Throw TransactionFinished, w1)
    | Some _ =>
        if db_fails env TxCommit then (Throw (DbError TxCommit), w1)
        else (Ok tt, with_tx None w1)
    end.

Definition rollback : M unit :=
  fun env w =>
    let w1 := emit (EvDb true TxRollback) w in
    match tx w1 with
    | None => (Throw TransactionFinished, w1)
    | Some snapshot =>
        if db_fails env TxRollback then (Throw (DbError TxRollback), w1)
        else (Ok tt, with_tx None (with_store snapshot w1))
    end.

End Transaction.

(* ------------------------------------------------------------------ *)
(** ** The models: findOne / findOrCreate / update *)

(** The next value of a table's [BIGSERIAL] key. *)
Definition next_pk {R} (pk : R -> nat) (rows : list R) : nat :=
  S (list_max (map pk rows)).

Module Chat.

Definition lookup (jid : string) (s : Store) : option ChatRow :=
  find (fun r => chat_id r =? jid) (chats s).

Definition with_chats (cs : list ChatRow) (s : Store) : Store :=
  {| chats := cs; contacts := contacts s; messages := messages s;
     group_metadata := group_metadata s |}.

Definition new_row (pk : nat) (jid : string) (ty : ChatType)
           (name : option string) : ChatRow :=
  {| chat_pk := pk; chat_id := jid; chat_type := ty; chat_name := name;
     is_archived := false; is_pinned := false; is_muted := false;
     last_message_at := None; last_message_preview := None;
     unread_count := 0; total_message_count := 0 |}.

Definition findOne (in_tx : bool) (jid : string) : M (option ChatRow) :=
  query in_tx (ChatFindOne jid) (fun s => (lookup jid s, s)).

(** [Chat.findOrCreate({ where: { chat_id }, defaults })] returns the row
    and whether it was created. *)
Definition findOrCreate (in_tx : bool) (jid : string) (ty : ChatType)
           (name : option string) : M (ChatRow * bool) :=
  query in_tx (ChatFindOrCreate jid ty name) (fun s =>
    match lookup jid s with
    | Some r => ((r, false), s)
    | None =>
        let r := new_row (next_pk chat_pk (chats s)) jid ty name in
        ((r, true), with_chats (chats s ++ [r]) s)
    end).

(** [chat.update(changes)]: UPDATE ... WHERE id = chat.id *)
Definition update (in_tx : bool) (chat : ChatRow) (c : ChatChanges)
  : M unit :=
  query in_tx (ChatUpdate (chat_pk chat) c) (fun s =>
    (tt, with_chats
           (map (fun r => if (chat_pk r =? chat_pk chat)%nat
                          then apply_chat_changes c r else r)
                (chats s)) s)).

End Chat.

Module Contact.

Definition lookup (cid : string) (s : Store) : option ContactRow :=
  find (fun r => contact_id r =? cid) (contacts s).

Definition with_contacts (cs : list ContactRow) (s : Store) : Store :=
  {| chats := chats s; contacts := cs; messages := messages s;
     group_metadata := group_metadata s |}.

Definition findOrCreate (in_tx : bool) (cid : string)
           (name avatar status : option string) : M (ContactRow * bool) :=
  query in_tx (ContactFindOrCreate cid name avatar status) (fun s =>
    match lookup cid s with
    | Some r => ((r, false), s)
    | None =>
        let r := {| contact_pk := next_pk contact_pk (contacts s);
                    contact_id := cid; contact_name := name;
                    avatar_url := avatar; about := status;
                    last_seen_at := None |} in
        ((r, true), with_contacts (contacts s ++ [r]) s)
    end).

Definition update (in_tx : bool) (contact : ContactRow)
           (c : ContactChanges) : M unit :=
  query in_tx (ContactUpdate (contact_pk contact) c) (fun s =>
    (tt, with_contacts
           (map (fun r => if (contact_pk r =? contact_pk contact)%nat
                          then apply_contact_changes c r else r)
                (contacts s)) s)).

End Contact.

Module Message.

Definition lookup (mid : string) (s : Store) : option MessageRow :=
  find (fun r => message_id (attrs r) =? mid) (messages s).

(** [trg_update_chat_timestamp]: AFTER INSERT ON messages. *)
Definition update_chat_last_message (new : MessageAttrs) (r : ChatRow)
  : ChatRow :=
  if (chat_pk r =? msg_chat_id new)%nat then
    {| chat_pk := chat_pk r; chat_id := chat_id r;
       chat_type := chat_type r; chat_name := chat_name r;
       is_archived := is_archived r; is_pinned := is_pinned r;
       is_muted := is_muted r;
       last_message_at := Some (timestamp new);
       last_message_preview :=
         Some (substring 0 100
                 (match body new with Some b => b | None => "[Media]" end));
       unread_count := unread_count r;
       total_message_count := total_message_count r + 1 |}
  else r.

Definition insert (new : MessageAttrs) (s : Store) : MessageRow * Store :=
  let r := {| msg_pk := next_pk msg_pk (messages s); attrs := new |} in
  (r, {| chats := map (update_chat_last_message new) (chats s);
         contacts := contacts s;
         messages := messages s ++ [r];
         group_metadata := group_metadata s |}).

Definition findOne (mid : string) : M (option MessageRow) :=
  query false (MessageFindOne mid) (fun s => (lookup mid s, s)).

(** [Message.findOrCreate({ where: { message_id }, defaults })] *)
Definition findOrCreate (defaults : MessageAttrs)
  : M (MessageRow * bool) :=
  query false (MessageFindOrCreate defaults) (fun s =>
    match lookup (message_id defaults) s with
    | Some r => ((r, false), s)
    | None => let (r, s') := insert defaults s in ((r, true), s')
    end).

End Message.

Module GroupMetadata.

Definition lookup (chat : nat) (s : Store) : option GroupMetadataRow :=
  find (fun r => (gm_chat_id r =? chat)%nat) (group_metadata s).

Definition with_groups (gs : list GroupMetadataRow) (s : Store) : Store :=
  {| chats := chats s; contacts := contacts s; messages := messages s;
     group_metadata := gs |}.

Definition blank (pk chat : nat) : GroupMetadataRow :=
  {| gm_pk := pk; gm_chat_id := chat; gm_subject := None;
     gm_owner := None; gm_description := None; gm_announce := false;
     gm_restrict_mode := false; gm_join_approval_mode := false;
     gm_member_add_mode := false; gm_ephemeral_duration := None |}.

(** [defaults: { chat_id, ...changes }] *)
Definition findOrCreate (chat : nat) (c : GroupChanges)
  : M (GroupMetadataRow * bool) :=
  query false (GroupMetadataFindOrCreate chat c) (fun s =>
    match lookup chat s with
    | Some r => ((r, false), s)
    | None =>
        let r := apply_group_changes c
                   (blank (next_pk gm_pk (group_metadata s)) chat) in
        ((r, true), with_groups (group_metadata s ++ [r]) s)
    end).

Definition update (g : GroupMetadataRow) (c : GroupChanges) : M unit :=
  query false (GroupMetadataUpdate (gm_pk g) c) (fun s =>
    (tt, with_groups
           (map (fun r => if (gm_pk r =? gm_pk g)%nat
                          then apply_group_changes c r else r)
                (group_metadata s)) s)).

End GroupMetadata.

(* ================================================================== *)
(** * Ingestion pipeline: message.handler.ts *)
(* ================================================================== *)

(** The string a truthy-checked nullable string holds. *)
Definition str (s : option string) : string :=
  match s with Some s => s | None => "" end.

Module MessageHandler.

(** [contextInfo]: the first non-null of the five candidates. *)
Definition contextInfo_of (m : option IMessage) : option ContextInfo :=
  or_obj (opt (opt m get_extendedTextMessage) ext_contextInfo)
  (or_obj (opt (opt m get_imageMessage) contextInfo)
  (or_obj (opt (opt m get_videoMessage) contextInfo)
  (or_obj (opt (opt m get_audioMessage) contextInfo)
          (opt (opt m get_documentMessage) contextInfo)))).

Definition is_true (b : option bool) : bool :=
  match b with Some true => true | _ => false end.

(** [mediaMsg ? mediaMsg.mimetype || null : null], [mediaMsg] being the
    first non-null of image, video, audio, document and sticker. *)
Definition mediaMimetype_of (m : option IMessage) : option string :=
  let mediaMsg :=
    or_obj (opt m get_imageMessage)
    (or_obj (opt m get_videoMessage)
    (or_obj (opt m get_audioMessage)
    (or_obj (opt m get_documentMessage)
            (opt m get_stickerMessage)))) in
  or_str (opt mediaMsg mimetype) None.

Definition locationData_of (messageType : string) (m : option IMessage)
  : option LocationData :=
  if messageType =? "location" then
    match opt m get_locationMessage with
    | Some l =>
        Some (StaticLocation (degreesLatitude l) (degreesLongitude l)
                             (loc_name l) (address l))
    | None =>
        match opt m get_liveLocationMessage with
        | Some l =>
            Some (LiveLocation (degreesLatitude l) (degreesLongitude l)
                               (loc_caption l))
        | None => None
        end
    end
  else None.

Definition pollData_of (messageType : string) (m : option IMessage)
  : option PollCreationMessage :=
  if messageType =? "poll" then opt m get_pollCreationMessage else None.

Definition contactData_of (messageType : string) (m : option IMessage)
  : option ContactData :=
  if messageType =? "contact" then
    match opt m get_contactMessage with
    | Some c => Some (ContactCard (displayName c) (vcard c))
    | None =>
        match opt m get_contactsArrayMessage with
        | Some cs => Some (ContactList cs)
        | None => None
        end
    end
  else None.

Definition quotedStanzaId_of (m : option IMessage) : option string :=
  or_str (opt (contextInfo_of m) stanzaId) None.

(** [!!(contextInfo?.isForwarded ||
        messageContent?.extendedTextMessage?.contextInfo?.isForwarded)] *)
Definition isForwarded_of (m : option IMessage) : bool :=
  is_true (opt (contextInfo_of m) isForwarded) ||
  is_true (opt (opt (opt m get_extendedTextMessage) ext_contextInfo)
               isForwarded).

(** [key.participant || key.remoteJid || ''] *)
Definition senderId_of (key : option MessageKey) : string :=
  str (or_str (opt key participant)
              (or_str (opt key remoteJid) (Some ""))).

(** The [defaults] of [Message.findOrCreate], from the message, the
    owning chat's row id, the extracted timestamp and the resolved
    quoted row id. *)
Definition defaults_of (msg : WebMessageInfo) (chat : nat) (timestamp : Z)
           (quotedMessageDbId : option nat) : MessageAttrs :=
  let key := key msg in
  let messageContent := message msg in
  let messageType := resolveMessageType messageContent in
  let body := extractBody messageContent in
  let msgHasMedia := hasMedia messageType in
  {| message_id := str (opt key id);
     msg_chat_id := chat;
     sender_id := senderId_of key;
     sender_name := or_str (pushName msg) None;
     is_from_me := match opt key fromMe with Some b => b | None => false end;
     body := body;
     message_type := messageType;
     has_media := msgHasMedia;
     media_mimetype := mediaMimetype_of messageContent;
     media_filename :=
       or_str (opt (opt messageContent get_documentMessage) fileName) None;
     media_caption := if msgHasMedia then body else None;
     timestamp := timestamp;
     is_forwarded := isForwarded_of messageContent;
     quoted_message_id := quotedMessageDbId;
     mentions := opt (contextInfo_of messageContent) mentionedJid;
     poll_data := pollData_of messageType messageContent;
     location_data := locationData_of messageType messageContent;
     contact_data := contactData_of messageType messageContent;
     raw_data := msg |}.

(** The [chatUpdate] object written after a first insertion. *)
Definition chatUpdate_of (msg : WebMessageInfo) (chat : ChatRow)
           (timestamp : Z) : ChatChanges :=
  let key := key msg in
  let isFromMe :=
    match opt key fromMe with Some b => b | None => false end in
  let pushName := or_str (pushName msg) None in
  let messageType := resolveMessageType (message msg) in
  let body := extractBody (message msg) in
  let chatType := chatTypeFromJid (str (opt key remoteJid)) in
  let preview :=
    if truthy body then substring 0 200 (str body)
    else String.append "[" (String.append messageType "]") in
  let seed_name :=
    negb (truthy (chat_name chat)) && truthy pushName && negb isFromMe &&
    match chatType with private => true | _ => false end in
  {| set_is_archived := None; set_is_pinned := None; set_is_muted := None;
     set_name := if seed_name then Some pushName else None;
     set_unread_count := None;
     set_last_message_at := Some timestamp;
     set_last_message_preview := Some preview |}.

(** The body of the [try] block for one message of the batch. *)
Definition processMessage (msg : WebMessageInfo) : M unit :=
  let key := key msg in
  if negb (truthy (opt key remoteJid)) || negb (truthy (opt key id)) then
    log warn [("key", VKey key)] "Skipping message with missing key fields"
  else
    let chatJid := str (opt key remoteJid) in
    let messageId := str (opt key id) in
    let senderId := senderId_of key in
    let pushName := or_str (pushName msg) None in
    let messageContent := message msg in
    let messageType := resolveMessageType messageContent in
    timestamp <- (t <- get_now ;;
                  ret (extractTimestamp t (messageTimestamp msg))) ;;
    if messageType =? "protocol" then
      log debug [("messageId", VStr (Some messageId));
                 ("messageType", VStr (Some messageType))]
          "Skipping protocol message"
    else
      '(chat, _) <-
        Chat.findOrCreate false chatJid (chatTypeFromJid chatJid) None ;;
      when (negb (senderId =? ""))
           (_ <- Contact.findOrCreate false senderId pushName None None ;;
            ret tt) ;;
      quotedMessageDbId <-
        (match quotedStanzaId_of messageContent with
         | Some q =>
             quotedMsg <- Message.findOne q ;;
             ret (option_map msg_pk quotedMsg)
         | None => ret None
         end) ;;
      '(savedMsg, created) <-
        Message.findOrCreate
          (defaults_of msg (chat_pk chat) timestamp quotedMessageDbId) ;;
      if created : bool then
        log info [("messageId", VStr (Some messageId));
                  ("chatJid", VStr (Some chatJid));
                  ("messageType", VStr (Some messageType));
                  ("isFromMe", VBool (is_from_me (attrs savedMsg)));
                  ("dbId", VNum (Z.of_nat (msg_pk savedMsg)))]
            "Message saved" ;;
        Chat.update false chat (chatUpdate_of msg chat timestamp)
      else
        log debug [("messageId", VStr (Some messageId))]
            "Message already exists, skipped".

(** The [catch] block of one message. *)
Definition on_error (msg : WebMessageInfo) (err : Exn) : M unit :=
  log error [("err", VErr err);
             ("messageId", VStr (opt (key msg) id));
             ("chatJid", VStr (opt (key msg) remoteJid))]
      "Failed to process message".

(** One iteration of the loop: the message inside its error boundary. *)
Definition guarded (msg : WebMessageInfo) : M unit :=
  try_catch (processMessage msg) (on_error msg).

Definition handleUpsert (messages : list WebMessageInfo) (type : string)
  : M unit :=
  log info [("count", VNum (Z.of_nat (length messages)));
            ("type", VStr (Some type))]
      "Processing message upsert" ;;
  for_of messages guarded.

End MessageHandler.

(* ================================================================== *)
(** * Historical batch importer: history.handler.ts *)
(* ================================================================== *)

Module HistoryHandler.

(** An element of [chats]: [{ id, name? }]. *)
Record HistoryChat := {
  hc_id : string;
  hc_name : option string
}.

(** An element of [contacts]: [{ id, name?, notify? }]. *)
Record HistoryContact := {
  hk_id : string;
  hk_name : option string;
  hk_notify : option string
}.

Definition MESSAGE_BATCH_SIZE : nat := 100.

(** [xs.slice(i, j)] for [i <= j] *)
Definition slice {A} (i j : nat) (xs : list A) : list A :=
  firstn (j - i) (skipn i xs).

(** The body of [for (const chatData of chats)]. *)
Definition processChat (chatData : HistoryChat) (chatsProcessed : nat)
  : M nat :=
  if hc_id chatData =? "" then ret chatsProcessed
  else
    let chatType := chatTypeFromJid (hc_id chatData) in
    let chatName := or_str (hc_name chatData) None in
    '(chat, created) <-
      Chat.findOrCreate true (hc_id chatData) chatType chatName ;;
    when (negb created && truthy chatName && negb (truthy (chat_name chat)))
         (Chat.update true chat
            {| set_is_archived := None; set_is_pinned := None;
               set_is_muted := None; set_name := Some chatName;
               set_unread_count := None; set_last_message_at := None;
               set_last_message_preview := None |}) ;;
    ret (S chatsProcessed).

(** The body of [for (const contactData of contacts)]. *)
Definition processContact (contactData : HistoryContact)
           (contactsProcessed : nat) : M nat :=
  if hk_id contactData =? "" then ret contactsProcessed
  else
    let contactName :=
      or_str (hk_name contactData) (or_str (hk_notify contactData) None) in
    _ <- Contact.findOrCreate true (hk_id contactData) contactName
           None None ;;
    ret (S contactsProcessed).

(** A [for ... of] loop that carries a counter. *)
Fixpoint counting {A} (body : A -> nat -> M nat) (xs : list A) (n : nat)
  : M nat :=
  match xs with
  | [] => ret n
  | x :: rest => n' <- body x n ;; counting body rest n'
  end.

(** [for (let i = 0; i < messages.length; i += MESSAGE_BATCH_SIZE)]:
    [fuel] bounds the number of iterations. *)
Fixpoint message_loop (fuel : nat) (messages : list WebMessageInfo)
         (i messagesProcessed : nat) : M nat :=
  match fuel with
  | O => ret messagesProcessed
  | S fuel' =>
      if (i <? length messages)%nat then
        let batch := slice i (i + MESSAGE_BATCH_SIZE) messages in
        MessageHandler.handleUpsert batch "history" ;;
        let messagesProcessed := (messagesProcessed + length batch)%nat in
        when ((messagesProcessed mod 500 =? 0)%nat ||
              (messagesProcessed =? length messages)%nat)
             (log info
                [("messagesProcessed", VNum (Z.of_nat messagesProcessed));
                 ("total", VNum (Z.of_nat (length messages)))]
                "History sync progress") ;;
        message_loop fuel' messages (i + MESSAGE_BATCH_SIZE)
                     messagesProcessed
      else ret messagesProcessed
  end.

(** The loop started at [i = 0]; it needs no more iterations than there
    are messages. *)
Definition message_phase (messages : list WebMessageInfo) : M nat :=
  message_loop (length messages) messages 0%nat 0%nat.

Definition handleHistorySet (messages : list WebMessageInfo)
           (chats : list HistoryChat) (contacts : list HistoryContact)
           (isLatest : bool) : M unit :=
  log info [("messageCount", VNum (Z.of_nat (length messages)));
            ("chatCount", VNum (Z.of_nat (length chats)));
            ("contactCount", VNum (Z.of_nat (length contacts)));
            ("isLatest", VBool isLatest)]
      "Processing history sync batch" ;;
  Transaction.begin ;;
  try_catch
    (chatsProcessed <- counting processChat chats 0%nat ;;
     contactsProcessed <- counting processContact contacts 0%nat ;;
     Transaction.commit ;;
     messagesProcessed <- message_phase messages ;;
     log info [("chatsProcessed", VNum (Z.of_nat chatsProcessed));
               ("contactsProcessed", VNum (Z.of_nat contactsProcessed));
               ("messagesProcessed", VNum (Z.of_nat messagesProcessed))]
         "History sync processed" ;;
     when isLatest (log info [] "History sync complete (isLatest=true)"))
    (fun err =>
       Transaction.rollback ;;
       log error [("err", VErr err)]
           "Failed to process history sync batch" ;;
       throw err).

End HistoryHandler.

(* ================================================================== *)
(** * Chat, contact and group updates: chat.handler.ts,
      contact.handler.ts, group.handler.ts *)
(* ================================================================== *)

Module ChatHandler.

Record ChatUpdate := {
  id : string;
  archive : Field bool;
  pin : Field Z;
  mute : Field Z;
  name : Field string;
  unreadCount : Field Z
}.

(** The [changes] object built from one update. *)
Definition changes_of (update : ChatUpdate) : ChatChanges :=
  {| set_is_archived := nullable (archive update);
     set_is_pinned := option_map (fun p => (0 <? p)%Z) (nullable (pin update));
     set_is_muted := option_map (fun m => (0 <? m)%Z) (nullable (mute update));
     set_name :=
       match name update with
       | Absent => None
       | Null => Some None
       | Val n => Some (Some n)
       end;
     set_unread_count := nullable (unreadCount update);
     set_last_message_at := None;
     set_last_message_preview := None |}.

Definition changed_keys (c : ChatChanges) : list string :=
  (if has_key (set_is_archived c) then ["is_archived"] else []) ++
  (if has_key (set_is_pinned c) then ["is_pinned"] else []) ++
  (if has_key (set_is_muted c) then ["is_muted"] else []) ++
  (if has_key (set_name c) then ["name"] else []) ++
  (if has_key (set_unread_count c) then ["unread_count"] else []).

Definition processUpdate (update : ChatUpdate) : M unit :=
  if id update =? "" then
    log warn [] "Skipping chat update with missing id"
  else
    chat <- Chat.findOne false (id update) ;;
    match chat with
    | None =>
        log debug [("chatId", VStr (Some (id update)))]
            "Chat not found for update, skipping"
    | Some chat =>
        let changes := changes_of update in
        when (chat_changes_nonempty changes)
             (Chat.update false chat changes ;;
              log info [("chatId", VStr (Some (id update)));
                        ("changes", VKeys (changed_keys changes))]
                  "Chat updated")
    end.

(** One iteration of the loop: the update inside its error boundary. *)
Definition guarded (update : ChatUpdate) : M unit :=
  try_catch (processUpdate update) (fun err =>
    log error [("err", VErr err); ("chatId", VStr (Some (id update)))]
        "Failed to process chat update").

Definition handleUpdate (updates : list ChatUpdate) : M unit :=
  log info [("count", VNum (Z.of_nat (length updates)))]
      "Processing chat updates" ;;
  for_of updates guarded.

End ChatHandler.

Module ContactHandler.

Record ContactUpdate := {
  id : string;
  name : Field string;
  notify : Field string;
  imgUrl : Field string;
  status : Field string
}.

(** [update.name || update.notify || null] *)
Definition contactName_of (update : ContactUpdate) : option string :=
  or_str (nullable (name update)) (or_str (nullable (notify update)) None).

(** [changes.f = update.f] under [update.f !== undefined] *)
Definition assigned (f : Field string) : option (option string) :=
  match f with
  | Absent => None
  | Null => Some None
  | Val v => Some (Some v)
  end.

Definition changed_keys (c : ContactChanges) : list string :=
  (if has_key (set_contact_name c) then ["name"] else []) ++
  (if has_key (set_avatar_url c) then ["avatar_url"] else []) ++
  (if has_key (set_about c) then ["about"] else []) ++
  (if has_key (set_last_seen_at c) then ["last_seen_at"] else []).

Definition processUpdate (update : ContactUpdate) : M unit :=
  if id update =? "" then
    log warn [] "Skipping contact update with missing id"
  else
    let contactName := contactName_of update in
    '(contact, created) <-
      Contact.findOrCreate false (id update) contactName
        (or_str (nullable (imgUrl update)) None)
        (or_str (nullable (status update)) None) ;;
    if created : bool then
      log info [("contactId", VStr (Some (id update)))] "Contact created"
    else
      let changes :=
        {| set_contact_name := contactName;
           set_avatar_url := assigned (imgUrl update);
           set_about := assigned (status update);
           set_last_seen_at := None |} in
      when (contact_changes_nonempty changes)
           (t <- get_now ;;
            let changes :=
              {| set_contact_name := set_contact_name changes;
                 set_avatar_url := set_avatar_url changes;
                 set_about := set_about changes;
                 set_last_seen_at := Some t |} in
            Contact.update false contact changes ;;
            log info [("contactId", VStr (Some (id update)));
                      ("changes", VKeys (changed_keys changes))]
                "Contact updated").

(** One iteration of the loop: the update inside its error boundary. *)
Definition guarded (update : ContactUpdate) : M unit :=
  try_catch (processUpdate update) (fun err =>
    log error [("err", VErr err); ("contactId", VStr (Some (id update)))]
        "Failed to process contact update").

Definition handleUpdate (updates : list ContactUpdate) : M unit :=
  log info [("count", VNum (Z.of_nat (length updates)))]
      "Processing contact updates" ;;
  for_of updates guarded.

End ContactHandler.

Module GroupHandler.

Record GroupUpdate := {
  id : string;
  subject : option string;
  owner : option string;
  desc : option string;
  announce : option bool;
  restrict : option bool;
  joinApprovalMode : option bool;
  memberAddMode : option bool;
  ephemeralDuration : option Z
}.

Definition changes_of (update : GroupUpdate) : GroupChanges :=
  {| set_subject := subject update;
     set_owner := owner update;
     set_description := desc update;
     set_announce := announce update;
     set_restrict_mode := restrict update;
     set_join_approval_mode := joinApprovalMode update;
     set_member_add_mode := memberAddMode update;
     set_ephemeral_duration := ephemeralDuration update |}.

Definition changed_keys (c : GroupChanges) : list string :=
  (if has_key (set_subject c) then ["subject"] else []) ++
  (if has_key (set_owner c) then ["owner"] else []) ++
  (if has_key (set_description c) then ["description"] else []) ++
  (if has_key (set_announce c) then ["announce"] else []) ++
  (if has_key (set_restrict_mode c) then ["restrict_mode"] else []) ++
  (if has_key (set_join_approval_mode c)
   then ["join_approval_mode"] else []) ++
  (if has_key (set_member_add_mode c) then ["member_add_mode"] else []) ++
  (if has_key (set_ephemeral_duration c)
   then ["ephemeral_duration"] else []).

Definition processUpdate (update : GroupUpdate) : M unit :=
  if id update =? "" then
    log warn [] "Skipping group update with missing id"
  else
    chat <- Chat.findOne false (id update) ;;
    match chat with
    | None =>
        log debug [("groupId", VStr (Some (id update)))]
            "Chat not found for group update, skipping"
    | Some chat =>
        (* if (update.subject !== undefined): also update the chat name *)
        match subject update with
        | Some s =>
            Chat.update false chat
              {| set_is_archived := None; set_is_pinned := None;
                 set_is_muted := None; set_name := Some (Some s);
                 set_unread_count := None; set_last_message_at := None;
                 set_last_message_preview := None |}
        | None => ret tt
        end ;;
        let changes := changes_of update in
        when (group_changes_nonempty changes)
             ('(groupMeta, created) <-
                GroupMetadata.findOrCreate (chat_pk chat) changes ;;
              when (negb created) (GroupMetadata.update groupMeta changes) ;;
              log info [("groupId", VStr (Some (id update)));
                        ("changes", VKeys (changed_keys changes));
                        ("created", VBool created)]
                  "Group metadata updated")
    end.

(** One iteration of the loop: the update inside its error boundary. *)
Definition guarded (update : GroupUpdate) : M unit :=
  try_catch (processUpdate update) (fun err =>
    log error [("err", VErr err); ("groupId", VStr (Some (id update)))]
        "Failed to process group update").

Definition handleGroupUpdate (updates : list GroupUpdate) : M unit :=
  log info [("count", VNum (Z.of_nat (length updates)))]
      "Processing group updates" ;;
  for_of updates guarded.

End GroupHandler.

(* ================================================================== *)
(** * Connection lifecycle manager: whatsapp.service.ts *)
(* ================================================================== *)

Module WhatsAppService.

Record ConnectOptions := {
  syncFullHistory : option bool
}.

(** A handle returned by [makeWASocket]: its creation number and the
    [options] its [connection.update] listener has captured. *)
Record WASocket := {
  sock_id : nat;
  sock_options : option ConnectOptions
}.

Record EventHandler := {
  event : string;
  handler : nat
}.

(** The private fields of the service object. *)
Record Service := {
  sock : option WASocket;
  reconnectAttempts : nat;
  isConnecting : bool;
  registeredHandlers : list EventHandler
}.

Definition maxReconnectAttempts : nat := 10.

(** [DisconnectReason.loggedOut] of the transport library. *)
Definition DisconnectReason_loggedOut : Z := 401.

(** A [connect()] call waiting at one of its [await]s. *)
Record Suspended := {
  sus_options : option ConnectOptions;
  (** started by a reconnect timer, whose [.catch] logs a rejection *)
  sus_from_timer : bool
}.

(** A pending [setTimeout] callback: its delay in milliseconds and the
    [options] it will pass to [connect]. *)
Record Timer := {
  delay : Z;
  timer_options : option ConnectOptions
}.

(** The service object together with the event loop around it. *)
Record Runtime := {
  this : Service;
  timers : list Timer;
  suspended : list Suspended;
  (** every socket made so far, oldest first *)
  sockets : list WASocket;
  (** [sock.ev.on] registrations: socket number and handler *)
  listeners : list (nat * EventHandler);
  logs : list (Level * string)
}.

Definition initial : Runtime :=
  {| this := {| sock := None; reconnectAttempts := 0; isConnecting := false;
                registeredHandlers := [] |};
     timers := []; suspended := []; sockets := []; listeners := [];
     logs := [] |}.

Definition set_this (f : Service -> Service) (rt : Runtime) : Runtime :=
  {| this := f (this rt); timers := timers rt; suspended := suspended rt;
     sockets := sockets rt; listeners := listeners rt; logs := logs rt |}.

Definition set_sock (s : option WASocket) (t : Service) : Service :=
  {| sock := s; reconnectAttempts := reconnectAttempts t;
     isConnecting := isConnecting t;
     registeredHandlers := registeredHandlers t |}.

Definition set_reconnectAttempts (n : nat) (t : Service) : Service :=
  {| sock := sock t; reconnectAttempts := n;
     isConnecting := isConnecting t;
     registeredHandlers := registeredHandlers t |}.

Definition set_isConnecting (b : bool) (t : Service) : Service :=
  {| sock := sock t; reconnectAttempts := reconnectAttempts t;
     isConnecting := b; registeredHandlers := registeredHandlers t |}.

Definition add_handler (h : EventHandler) (t : Service) : Service :=
  {| sock := sock t; reconnectAttempts := reconnectAttempts t;
     isConnecting := isConnecting t;
     registeredHandlers := registeredHandlers t ++ [h] |}.

Definition say (lvl : Level) (msg : string) (rt : Runtime) : Runtime :=
  {| this := this rt; timers := timers rt; suspended := suspended rt;
     sockets := sockets rt; listeners := listeners rt;
     logs := logs rt ++ [(lvl, msg)] |}.

Definition setTimeout (t : Timer) (rt : Runtime) : Runtime :=
  {| this := this rt; timers := timers rt ++ [t];
     suspended := suspended rt; sockets := sockets rt;
     listeners := listeners rt; logs := logs rt |}.

Definition set_timers (ts : list Timer) (rt : Runtime) : Runtime :=
  {| this := this rt; timers := ts; suspended := suspended rt;
     sockets := sockets rt; listeners := listeners rt; logs := logs rt |}.

Definition set_suspended (ss : list Suspended) (rt : Runtime) : Runtime :=
  {| this := this rt; timers := timers rt; suspended := ss;
     sockets := sockets rt; listeners := listeners rt; logs := logs rt |}.

(** [sock.ev.on(event, handler)] on socket number [n] *)
Definition ev_on (n : nat) (hs : list EventHandler) (rt : Runtime)
  : Runtime :=
  {| this := this rt; timers := timers rt; suspended := suspended rt;
     sockets := sockets rt;
     listeners := listeners rt ++ map (fun h => (n, h)) hs;
     logs := logs rt |}.

Definition add_socket (s : WASocket) (rt : Runtime) : Runtime :=
  {| this := this rt; timers := timers rt; suspended := suspended rt;
     sockets := sockets rt ++ [s]; listeners := listeners rt;
     logs := logs rt |}.

(** How a call of [connect] stands after a step. *)
Inductive Reply :=
| Resolved (s : WASocket)
| Rejected (msg : string)
| Pending
| Nothing.

Definition onPersistent (h : EventHandler) (rt : Runtime) : Runtime :=
  let rt := set_this (add_handler h) rt in
  match sock (this rt) with
  | Some s => ev_on (sock_id s) [h] rt
  | None => rt
  end.

Definition applyHandlers (rt : Runtime) : Runtime :=
  match sock (this rt) with
  | None => rt
  | Some s =>
      say info "Event handlers registered on socket"
          (ev_on (sock_id s) (registeredHandlers (this rt)) rt)
  end.

(** [connect(options)] up to its first [await]. *)
Definition connect (from_timer : bool) (options : option ConnectOptions)
           (rt : Runtime) : Reply * Runtime :=
  if isConnecting (this rt) then
    let rt := say warn "Connection attempt already in progress" rt in
    match sock (this rt) with
    | Some s => (Resolved s, rt)
    | None =>
        (Rejected "Connection in progress, socket not yet available", rt)
    end
  else
    let rt := set_this (set_isConnecting true) rt in
    (Pending,
     set_suspended
       (suspended rt ++ [{| sus_options := options;
                            sus_from_timer := from_timer |}]) rt).

(** The rest of the oldest suspended [connect()]: [ok = false] when
    [createAuthState], [createBaileysConfig] or [makeWASocket] throws. *)
Definition resume (ok : bool) (rt : Runtime) : Reply * Runtime :=
  match suspended rt with
  | [] => (Nothing, rt)
  | c :: rest =>
      let rt := set_suspended rest rt in
      if ok then
        let s := {| sock_id := length (sockets rt);
                    sock_options := sus_options c |} in
        let rt := say info "Creating WhatsApp socket" rt in
        let rt := set_this (set_sock (Some s)) (add_socket s rt) in
        let rt :=
          ev_on (sock_id s)
                [{| event := "creds.update"; handler := 0 |};
                 {| event := "connection.update"; handler := 0 |}] rt in
        (Resolved s, applyHandlers rt)
      else
        let rt := set_this (set_isConnecting false) rt in
        (Rejected "connect failed",
         if sus_from_timer c then say error "Reconnection failed" rt
         else rt)
  end.

Inductive Connection := close | open | connecting.

(** The argument of a [connection.update] event;
    [statusCode] is [lastDisconnect?.error?.output?.statusCode]. *)
Record ConnectionState := {
  connection : option Connection;
  statusCode : option Z;
  qr : option string
}.

Definition is_loggedOut (statusCode : option Z) : bool :=
  match statusCode with
  | Some c => (c =? DisconnectReason_loggedOut)%Z
  | None => false
  end.

(** [Math.min(1000 * Math.pow(2, attempts), 60000)]; the products stay
    far below 2^53, so the arithmetic is exact. *)
Definition backoff_delay (attempts : nat) : Z :=
  Z.min (1000 * 2 ^ Z.of_nat attempts) 60000.

(** The [connection.update] listener a [connect(options)] call has put
    on its socket. *)
Definition on_connection_update (options : option ConnectOptions)
           (update : ConnectionState) (rt : Runtime) : Runtime :=
  let rt :=
    match qr update with
    | Some _ => say info "QR code received, saving as image..." rt
    | None => rt
    end in
  match connection update with
  | Some close =>
      let isLoggedOut := is_loggedOut (statusCode update) in
      let rt := say warn "Connection closed" rt in
      let rt := set_this (set_isConnecting false) rt in
      if isLoggedOut then
        let rt :=
          say error
            "Logged out from WhatsApp. Manual re-authentication required."
            rt in
        set_this (set_sock None) rt
      else if (reconnectAttempts (this rt) <? maxReconnectAttempts)%nat then
        let rt :=
          set_this (set_reconnectAttempts (S (reconnectAttempts (this rt))))
                   rt in
        let delay := backoff_delay (reconnectAttempts (this rt)) in
        let rt := say info "Reconnecting with exponential backoff..." rt in
        setTimeout {| delay := delay; timer_options := options |} rt
      else
        let rt :=
          say error "Max reconnection attempts reached. Giving up." rt in
        set_this (set_sock None) rt
  | Some open =>
      let rt := set_this (set_reconnectAttempts 0) rt in
      let rt := set_this (set_isConnecting false) rt in
      say info "Connected to WhatsApp successfully" rt
  | _ => rt
  end.

(** [disconnect()] *)
Definition disconnect (rt : Runtime) : Runtime :=
  match sock (this rt) with
  | Some _ =>
      let rt := say info "Disconnecting WhatsApp socket..." rt in
      let rt := set_this (set_sock None) rt in
      let rt := set_this (set_isConnecting false) rt in
      say info "WhatsApp socket disconnected" rt
  | None => rt
  end.

Fixpoint remove_nth {A} (k : nat) (xs : list A) : list A :=
  match k, xs with
  | _, [] => []
  | O, _ :: rest => rest
  | S k', x :: rest => x :: remove_nth k' rest
  end.

(** What can happen next to the service. *)
Inductive Action :=
| Connect (options : option ConnectOptions)
| Resume (ok : bool)
| ConnectionUpdate (socket : nat) (update : ConnectionState)
| TimerFires (k : nat)
| Disconnect
| OnPersistent (h : EventHandler).

Definition step (a : Action) (rt : Runtime) : Reply * Runtime :=
  match a with
  | Connect options => connect false options rt
  | Resume ok => resume ok rt
  | ConnectionUpdate n update =>
      match nth_error (sockets rt) n with
      | Some s => (Nothing, on_connection_update (sock_options s) update rt)
      | None => (Nothing, rt)
      end
  | TimerFires k =>
      match nth_error (timers rt) k with
      | Some t =>
          let rt := set_timers (remove_nth k (timers rt)) rt in
          match connect true (timer_options t) rt with
          | (Rejected msg, rt) =>
              (Rejected msg, say error "Reconnection failed" rt)
          | r => r
          end
      | None => (Nothing, rt)
      end
  | Disconnect => (Nothing, disconnect rt)
  | OnPersistent h => (Nothing, onPersistent h rt)
  end.

Fixpoint run (actions : list Action) (rt : Runtime) : Runtime :=
  match actions with
  | [] => rt
  | a :: rest => run rest (snd (step a rt))
  end.

End WhatsAppService.

(* ================================================================== *)
(** * Vocabulary of the properties *)
(* ================================================================== *)

(** [wp m env w Q]: running [m] from [w] ends in an outcome and a world
    that satisfy [Q]. *)
Definition wp {A} (m : M A) (env : Env) (w : World)
           (Q : Outcome A -> World -> Prop) : Prop :=
  Q (fst (m env w)) (snd (m env w)).

(** The number of Message rows carrying an external id. *)
Definition count_rows (mid : string) (s : Store) : nat :=
  length (filter (fun r => message_id (attrs r) =? mid) (messages s)).

(** The unique constraint on [messages.message_id]. *)
Definition unique_ids (s : Store) : Prop :=
  NoDup (map (fun r => message_id (attrs r)) (messages s)).

(** What one pass over a message may do to the messages table: nothing, or
    append one row with the message's external id, which no row had. *)
Definition msgs_step (mid : string) (w w' : World) : Prop :=
  messages (store w') = messages (store w) \/
  (Message.lookup mid (store w) = None /\
   exists r, message_id (attrs r) = mid /\
             messages (store w') = messages (store w) ++ [r]).

(** The trace of [w'] continues the trace of [w] with events that all
    satisfy [P]. *)
Definition extends_with (P : Event -> bool) (w w' : World) : Prop :=
  exists t, trace w' = trace w ++ t /\ forallb P t = true.

Definition is_tx_op (op : DbOp) : bool :=
  match op with TxBegin | TxCommit | TxRollback => true | _ => false end.

(** Log lines, and store requests sent without a transaction. *)
Definition outside_transaction (e : Event) : bool :=
  match e with
  | EvLog _ _ _ => true
  | EvDb in_tx op => negb in_tx && negb (is_tx_op op)
  end.

(** A message that passes the guards of the handler and whose store
    requests the store does not reject. *)
Definition accepted (env : Env) (msg : WebMessageInfo) : Prop :=
  let jid := str (opt (key msg) remoteJid) in
  truthy (opt (key msg) remoteJid) = true /\
  truthy (opt (key msg) id) = true /\
  (resolveMessageType (message msg) =? "protocol") = false /\
  db_fails env (ChatFindOrCreate jid (chatTypeFromJid jid) None) = false /\
  db_fails env (ContactFindOrCreate (MessageHandler.senderId_of (key msg))
                  (or_str (pushName msg) None) None None) = false /\
  (forall q, db_fails env (MessageFindOne q) = false) /\
  (forall pk t q,
     db_fails env (MessageFindOrCreate
                     (MessageHandler.defaults_of msg pk t q)) = false).

(** The first log line of [handleUpsert]. *)
Definition upsert_header (n : nat) (type : string) : Event :=
  EvLog info [("count", VNum (Z.of_nat n)); ("type", VStr (Some type))]
        "Processing message upsert".


(** The log line of a duplicate message. *)
Definition duplicate_entry (mid : string) : Event :=
  EvLog debug [("messageId", VStr (Some mid))]
        "Message already exists, skipped".

(** No store request is rejected. *)
Definition calm (env : Env) : Prop := forall op, db_fails env op = false.

(** What a chat update leaves in each column of the chat it names. *)
Definition chat_after (u : ChatHandler.ChatUpdate) (row row' : ChatRow)
  : Prop :=
  chat_name row' =
    match ChatHandler.name u with
    | Absent => chat_name row
    | Null => None
    | Val n => Some n
    end /\
  is_archived row' =
    match ChatHandler.archive u with
    | Val b => b
    | _ => is_archived row
    end /\
  is_pinned row' =
    match ChatHandler.pin u with
    | Val p => (0 <? p)%Z
    | _ => is_pinned row
    end /\
  is_muted row' =
    match ChatHandler.mute u with
    | Val m => (0 <? m)%Z
    | _ => is_muted row
    end /\
  unread_count row' =
    match ChatHandler.unreadCount u with
    | Val n => n
    | _ => unread_count row
    end /\
  chat_pk row' = chat_pk row /\
  chat_id row' = chat_id row /\
  chat_type row' = chat_type row /\
  last_message_at row' = last_message_at row /\
  last_message_preview row' = last_message_preview row /\
  total_message_count row' = total_message_count row.

(** What a contact update leaves in each column of the contact it names:
    the last-seen time becomes the time of the update when the update
    writes a name, an avatar or a status, and stays as it was when it
    writes nothing. *)
Definition contact_after (now : Z) (u : ContactHandler.ContactUpdate)
           (row row' : ContactRow) : Prop :=
  contact_name row' =
    match or_str (nullable (ContactHandler.name u))
                 (or_str (nullable (ContactHandler.notify u)) None) with
    | Some n => Some n
    | None => contact_name row
    end /\
  avatar_url row' =
    match ContactHandler.imgUrl u with
    | Absent => avatar_url row
    | Null => None
    | Val v => Some v
    end /\
  about row' =
    match ContactHandler.status u with
    | Absent => about row
    | Null => None
    | Val v => Some v
    end /\
  last_seen_at row' =
    match or_str (nullable (ContactHandler.name u))
                 (or_str (nullable (ContactHandler.notify u)) None),
          ContactHandler.imgUrl u, ContactHandler.status u with
    | None, Absent, Absent => last_seen_at row
    | _, _, _ => Some now
    end /\
  contact_pk row' = contact_pk row /\
  contact_id row' = contact_id row.

(** The row a contact update creates for an id that is not stored. *)
Definition contact_created (u : ContactHandler.ContactUpdate) (pk : nat)
  : ContactRow :=
  {| contact_pk := pk;
     contact_id := ContactHandler.id u;
     contact_name :=
       or_str (nullable (ContactHandler.name u))
              (or_str (nullable (ContactHandler.notify u)) None);
     avatar_url := or_str (nullable (ContactHandler.imgUrl u)) None;
     about := or_str (nullable (ContactHandler.status u)) None;
     last_seen_at := None |}.

(** What a group update with a subject leaves in the chat row. *)
Definition renamed_to (s : string) (row row' : ChatRow) : Prop :=
  chat_name row' = Some s /\
  chat_pk row' = chat_pk row /\
  chat_id row' = chat_id row /\
  chat_type row' = chat_type row /\
  is_archived row' = is_archived row /\
  is_pinned row' = is_pinned row /\
  is_muted row' = is_muted row /\
  unread_count row' = unread_count row.

(** The name column of the contact with an external id ([None]: no name,
    or no such contact). *)
Definition stored_name (cid : string) (s : Store) : option string :=
  match Contact.lookup cid s with
  | Some r => contact_name r
  | None => None
  end.

(** The name an update leaves, given the name stored before it. *)
Definition name_after (cur : option string)
           (u : ContactHandler.ContactUpdate) : option string :=
  match ContactHandler.contactName_of u with
  | Some n => Some n
  | None => cur
  end.

(** A find-or-create of a chat or contact, or a chat update, that carries
    the transaction. *)
Definition in_transaction (e : Event) : bool :=
  match e with
  | EvDb true (ChatFindOrCreate _ _ _) => true
  | EvDb true (ChatUpdate _ _) => true
  | EvDb true (ContactFindOrCreate _ _ _ _) => true
  | _ => false
  end.

(** Anything but a request about the messages table. *)
Definition no_message_request (e : Event) : bool :=
  match e with
  | EvDb _ (MessageFindOne _) => false
  | EvDb _ (MessageFindOrCreate _) => false
  | _ => true
  end.


(** The message phase written over an explicit list of sub-batches: each
    one goes through [handleUpsert], followed by the progress line. *)
Fixpoint run_batches (total : nat) (batches : list (list WebMessageInfo))
         (messagesProcessed : nat) : M nat :=
  match batches with
  | [] => ret messagesProcessed
  | batch :: rest =>
      MessageHandler.handleUpsert batch "history" ;;
      let messagesProcessed := (messagesProcessed + length batch)%nat in
      when ((messagesProcessed mod 500 =? 0)%nat ||
            (messagesProcessed =? total)%nat)
           (log info
              [("messagesProcessed", VNum (Z.of_nat messagesProcessed));
               ("total", VNum (Z.of_nat total))]
              "History sync progress") ;;
      run_batches total rest messagesProcessed
  end.

(** The metadata phase: events inside the transaction, the messages table
    and the open transaction untouched. *)
Definition metadata_step (w w' : World) : Prop :=
  extends_with in_transaction w w' /\
  messages (store w') = messages (store w) /\
  tx w' = tx w.

(** The pipeline phase: events outside any transaction, the transaction
    state untouched. *)
Definition pipeline_step (w w' : World) : Prop :=
  extends_with outside_transaction w w' /\ tx w' = tx w.


(* ------------------------------------------------------------------ *)
(** ** A history batch as a function on the store *)

(** The result and the store a computation leaves depend on the world
    only through its store: neither the trace nor the transaction state
    is read. *)
Definition store_driven {A} (m : M A) : Prop :=
  forall env w1 w2,
    store w1 = store w2 ->
    fst (m env w1) = fst (m env w2) /\
    store (snd (m env w1)) = store (snd (m env w2)).

Module HistorySpec.

Import HistoryHandler.






End HistorySpec.

(* ------------------------------------------------------------------ *)
(** ** Sample payloads, stores and runs *)

Definition photo : MediaMessage :=
  {| caption := None; mimetype := Some "image/jpeg"; fileName := None;
     contextInfo := None |}.

(** A payload with a plain conversation key followed by an image key. *)
Definition text_then_image : IMessage :=
  [conversation (Some "hi"); imageMessage (Some photo)].

(** The same two properties, image key first. *)
Definition image_then_text : IMessage :=
  [imageMessage (Some photo); conversation (Some "hi")].

Fixpoint pad (n : nat) : string :=
  match n with O => "" | S n' => String "9" (pad n') end.

(** The column widths of the schema: what PostgreSQL refuses to store. *)
Definition too_long (op : DbOp) : bool :=
  match op with
  | ChatFindOrCreate jid _ name =>
      (255 <? String.length jid)%nat || (255 <? String.length (str name))%nat
  | ContactFindOrCreate cid name _ _ =>
      (100 <? String.length cid)%nat || (255 <? String.length (str name))%nat
  | MessageFindOrCreate d =>
      (255 <? String.length (message_id d))%nat ||
      (100 <? String.length (sender_id d))%nat
  | _ => false
  end.

Definition schema_env : Env :=
  {| now := 1700000000000; db_fails := too_long |}.

(** A store that rejects nothing. *)
Definition calm_env : Env :=
  {| now := 1700000000000; db_fails := fun _ => false |}.

Definition alice : string := "4915112345678@s.whatsapp.net".

Definition text_message (mid sender body : string) : WebMessageInfo :=
  {| key := Some {| remoteJid := Some alice; fromMe := Some false;
                    id := Some mid; participant := Some sender |};
     message := Some [conversation (Some body)];
     messageTimestamp := Some (TsNumber 1700000000);
     pushName := Some "Alice" |}.

Definition item1 := text_message "3EB0A1" alice "one".
Definition item2 := text_message "3EB0A2" alice "two".
(** a sender id of 115 characters, wider than [contacts.contact_id] *)
Definition item3 :=
  text_message "3EB0A3" (String.append (pad 100) "@s.whatsapp.net") "three".
Definition item4 := text_message "3EB0A4" alice "four".
Definition item5 := text_message "3EB0A5" alice "five".

(** The world after [item1] has been ingested once. *)
Definition item1_stored : World :=
  snd (MessageHandler.handleUpsert [item1] "notify" schema_env initial_world).

Definition family : string := "120363041234567890@g.us".

(** A store with one group chat and one contact, as a history batch
    leaves it. *)
Definition directory : World :=
  snd (HistoryHandler.handleHistorySet []
         [{| HistoryHandler.hc_id := family;
             HistoryHandler.hc_name := Some "Family" |}]
         [{| HistoryHandler.hk_id := alice;
             HistoryHandler.hk_name := Some "Alice";
             HistoryHandler.hk_notify := None |}]
         true calm_env initial_world).

Definition archive_update : ChatHandler.ChatUpdate :=
  {| ChatHandler.id := family; ChatHandler.archive := Val true;
     ChatHandler.pin := Absent; ChatHandler.mute := Absent;
     ChatHandler.name := Absent; ChatHandler.unreadCount := Val 5%Z |}.

(** The same store after the chat was archived with five unread messages. *)
Definition archived : World :=
  snd (ChatHandler.handleUpdate [archive_update] calm_env directory).

(** A chat update whose archive and unread count are explicitly [null]. *)
Definition null_chat_update : ChatHandler.ChatUpdate :=
  {| ChatHandler.id := family; ChatHandler.archive := Null;
     ChatHandler.pin := Absent; ChatHandler.mute := Absent;
     ChatHandler.name := Absent; ChatHandler.unreadCount := Null |}.

(** A contact update for Alice that carries only a name field. *)
Definition named (n : Field string) : ContactHandler.ContactUpdate :=
  {| ContactHandler.id := alice; ContactHandler.name := n;
     ContactHandler.notify := Absent; ContactHandler.imgUrl := Absent;
     ContactHandler.status := Absent |}.

(** A contact update whose name is [null] and whose push name is "Bob". *)
Definition pushed_bob : ContactHandler.ContactUpdate :=
  {| ContactHandler.id := alice; ContactHandler.name := Null;
     ContactHandler.notify := Val "Bob"; ContactHandler.imgUrl := Absent;
     ContactHandler.status := Absent |}.

(** A group update that carries only a subject. *)
Definition new_subject : GroupHandler.GroupUpdate :=
  {| GroupHandler.id := family; GroupHandler.subject := Some "Family 2024";
     GroupHandler.owner := None; GroupHandler.desc := None;
     GroupHandler.announce := None; GroupHandler.restrict := None;
     GroupHandler.joinApprovalMode := None;
     GroupHandler.memberAddMode := None;
     GroupHandler.ephemeralDuration := None |}.

(** A history batch with two chats, two contacts and three messages. *)
Definition batch_chats : list HistoryHandler.HistoryChat :=
  [{| HistoryHandler.hc_id := family;
      HistoryHandler.hc_name := Some "Family" |};
   {| HistoryHandler.hc_id := alice; HistoryHandler.hc_name := None |}].

Definition batch_contacts : list HistoryHandler.HistoryContact :=
  [{| HistoryHandler.hk_id := alice; HistoryHandler.hk_name := Some "Alice";
      HistoryHandler.hk_notify := None |};
   {| HistoryHandler.hk_id := "4915198765432@s.whatsapp.net";
      HistoryHandler.hk_name := None;
      HistoryHandler.hk_notify := Some "Bob" |}].

Definition batch_messages : list WebMessageInfo := [item1; item2; item4].




Module Scenarios.

Import WhatsAppService.

Definition closed_with (code : option Z) (q : option string)
  : ConnectionState :=
  {| connection := Some close; statusCode := code; qr := q |}.

Definition opened : ConnectionState :=
  {| connection := Some open; statusCode := None; qr := None |}.

Definition logged_out : ConnectionState :=
  closed_with (Some DisconnectReason_loggedOut) None.

Definition defaults : option ConnectOptions :=
  Some {| syncFullHistory := Some true |}.

(** A service whose first socket has just been created. *)
Definition connected_once : Runtime :=
  run [Connect defaults; Resume true] initial.

(** The service after: a first socket closes for a transient reason (a
    reconnect is scheduled), the caller connects again, and the second
    socket is about to report that the session was logged out. *)
Definition reconnect_pending : Runtime :=
  run [Connect defaults; Resume true;
       ConnectionUpdate 0 (closed_with (Some 428%Z) None);
       Connect defaults; Resume true] initial.

(** The service while its first [connect()] is still waiting for the
    credentials: the attempt is in flight and no socket exists yet. *)
Definition first_connect_in_flight : Runtime :=
  run [Connect defaults] initial.

(** The service while a reconnect is waiting for its credentials and the
    old socket has reported a second close: an attempt is in flight and
    the [isConnecting] flag is clear. *)
Definition flag_cleared_in_flight : Runtime :=
  run [Connect defaults; Resume true;
       ConnectionUpdate 0 (closed_with (Some 428%Z) None);
       TimerFires 0;
       ConnectionUpdate 0 (closed_with (Some 428%Z) None)] initial.

End Scenarios.

(* ================================================================== *)
(** * Vocabulary of the invariants of the store and of the service *)
(* ================================================================== *)

(* ------------------------------------------------------------------ *)
(** ** Normalizer: chat kinds, message types and bodies *)

(** The values the CHECK constraint [valid_message_type] admits. *)
Definition valid_message_type : list string :=
  ["chat"; "image"; "video"; "audio"; "document"; "sticker"; "ptt";
   "location"; "contact"; "poll"; "system"; "reaction"; "protocol";
   "revoke"; "unknown"].

(* ------------------------------------------------------------------ *)
(** ** Rows are only added, and keys stay unique *)

(** [l'] is [l] followed by further elements. *)
Definition extends {A} (l l' : list A) : Prop := exists added, l' = l ++ added.

(** Rows are only ever added: no message row changes, and no chat, contact
    or group row changes its row id, its external id or (for a chat) its
    kind. *)
Definition grows (s s' : Store) : Prop :=
  extends (messages s) (messages s') /\
  extends (map (fun r => (chat_pk r, chat_id r, chat_type r)) (chats s))
          (map (fun r => (chat_pk r, chat_id r, chat_type r)) (chats s')) /\
  extends (map (fun r => (contact_pk r, contact_id r)) (contacts s))
          (map (fun r => (contact_pk r, contact_id r)) (contacts s')) /\
  extends (map (fun r => (gm_pk r, gm_chat_id r)) (group_metadata s))
          (map (fun r => (gm_pk r, gm_chat_id r)) (group_metadata s')).

(** The UNIQUE constraints of the schema. *)
Definition unique_keys (s : Store) : Prop :=
  NoDup (map (fun r => message_id (attrs r)) (messages s)) /\
  NoDup (map chat_id (chats s)) /\
  NoDup (map contact_id (contacts s)) /\
  NoDup (map gm_chat_id (group_metadata s)).

Definition keeps_unique (s s' : Store) : Prop :=
  unique_keys s -> unique_keys s'.

(** Every run of [m] takes the store to an [R]-related store. *)
Definition keeps (R : Store -> Store -> Prop) {A} (m : M A) : Prop :=
  forall env w, R (store w) (store (snd (m env w))).

(* ------------------------------------------------------------------ *)
(** ** The first insertion of a message *)

(** A message the handler drops before any store request: a key field
    is missing or empty, or the content is a protocol message. *)
Definition skipped (msg : WebMessageInfo) : bool :=
  negb (truthy (opt (key msg) remoteJid)) ||
  negb (truthy (opt (key msg) id)) ||
  (resolveMessageType (message msg) =? "protocol").

(** An accepted message whose refresh of the chat row the store accepts
    as well. *)
Definition welcomed (env : Env) (msg : WebMessageInfo) : Prop :=
  accepted env msg /\
  forall pk c, db_fails env (ChatUpdate pk c) = false.

(** The row id the quoted message resolves to in a store. *)
Definition resolved_quote (msg : WebMessageInfo) (s : Store) : option nat :=
  match MessageHandler.quotedStanzaId_of (message msg) with
  | Some q => option_map msg_pk (Message.lookup q s)
  | None => None
  end.

(** The chat row a first insertion finds or creates. *)
Definition owning_chat (msg : WebMessageInfo) (s : Store) : ChatRow :=
  let jid := str (opt (key msg) remoteJid) in
  match Chat.lookup jid s with
  | Some c => c
  | None => Chat.new_row (next_pk chat_pk (chats s)) jid
                         (chatTypeFromJid jid) None
  end.

(** What a first insertion leaves, when the store rejects nothing. *)
Definition first_insertion (env : Env) (msg : WebMessageInfo)
           (w w' : World) : Prop :=
  let jid := str (opt (key msg) remoteJid) in
  let mid := str (opt (key msg) id) in
  let t := extractTimestamp (now env) (messageTimestamp msg) in
  let chat := owning_chat msg (store w) in
  let d := MessageHandler.defaults_of msg (chat_pk chat) t
             (resolved_quote msg (store w)) in
  messages (store w') =
    messages (store w) ++
    [{| msg_pk := next_pk msg_pk (messages (store w)); attrs := d |}] /\
  Chat.lookup jid (store w') =
    Some (apply_chat_changes (MessageHandler.chatUpdate_of msg chat t)
            (Message.update_chat_last_message d chat)) /\
  Contact.lookup (MessageHandler.senderId_of (key msg)) (store w') <> None.

Definition is_log (e : Event) : bool :=
  match e with EvLog _ _ _ => true | EvDb _ _ => false end.

(* ------------------------------------------------------------------ *)
(** ** Redelivery *)

(** Nothing is left to do for a message: the handler drops it, or its
    chat, its sender's contact and its own row are stored. *)
Definition settled (msg : WebMessageInfo) (s : Store) : Prop :=
  skipped msg = true \/
  (Chat.lookup (str (opt (key msg) remoteJid)) s <> None /\
   Contact.lookup (MessageHandler.senderId_of (key msg)) s <> None /\
   Message.lookup (str (opt (key msg) id)) s <> None).

Definition deliverable (env : Env) (msg : WebMessageInfo) : Prop :=
  skipped msg = true \/ welcomed env msg.

(* ------------------------------------------------------------------ *)
(** ** Shape of stored rows and message counters *)

(** What the pipeline writes into a row of the messages table. *)
Definition well_formed (a : MessageAttrs) : Prop :=
  message_id a <> "" /\
  sender_id a <> "" /\
  In (message_type a) valid_message_type /\
  message_type a <> "protocol" /\
  body a <> Some "" /\
  has_media a = hasMedia (message_type a) /\
  media_caption a = (if has_media a then body a else None).

Definition rows_well_formed (s : Store) : Prop :=
  Forall (fun r => well_formed (attrs r)) (messages s).

Definition keeps_well_formed (s s' : Store) : Prop :=
  rows_well_formed s -> rows_well_formed s'.

(** Every message row refers to a stored chat, and the counter of each
    chat is the number of message rows that refer to it. *)
Definition messages_of (pk : nat) (s : Store) : list MessageRow :=
  filter (fun m => (msg_chat_id (attrs m) =? pk)%nat) (messages s).

Definition consistent (s : Store) : Prop :=
  (forall m, In m (messages s) ->
             In (msg_chat_id (attrs m)) (map chat_pk (chats s))) /\
  (forall c, In c (chats s) ->
             total_message_count c =
             Z.of_nat (length (messages_of (chat_pk c) s))).

Definition keeps_consistent (s s' : Store) : Prop :=
  consistent s -> consistent s'.

(* ------------------------------------------------------------------ *)
(** ** Which tables a handler writes *)

(** A view of the store is the same before and after. *)
Definition same_on {X} (view : Store -> X) (s s' : Store) : Prop :=
  view s' = view s.

(** The identity of the chat rows: row id, JID and type, in order. *)
Definition chat_identities (s : Store) : list (nat * string * ChatType) :=
  map (fun r => (chat_pk r, chat_id r, chat_type r)) (chats s).

(* ------------------------------------------------------------------ *)
(** ** Chat and group updates *)

(** An update that names no stored chat. *)
Definition names_no_chat (s : Store) (jid : string) : Prop :=
  jid = "" \/ Chat.lookup jid s = None.


(* ================================================================== *)
(** * Further calls of the service and the participants handler:
      whatsapp.service.ts, chat.handler.ts *)
(* ================================================================== *)

(* ------------------------------------------------------------------ *)
(** ** Service calls: getSocket and on *)

Module ServiceCalls.

Import WhatsAppService.

(** [getSocket()]: the handle, or the error it throws. *)
Definition getSocket (rt : Runtime) : Reply :=
  match sock (this rt) with
  | Some s => Resolved s
  | None => Rejected "WhatsApp socket not available. Call connect() first."
  end.

(** [on(event, handler)]: registers on the current socket only. *)
Definition on (h : EventHandler) (rt : Runtime) : Reply * Runtime :=
  match getSocket rt with
  | Resolved s => (Nothing, ev_on (sock_id s) [h] rt)
  | r => (r, rt)
  end.

(** A call into the service or an event of its event loop. *)
Inductive Call :=
| Do (a : Action)
| On (h : EventHandler).

Definition call (c : Call) (rt : Runtime) : Runtime :=
  match c with
  | Do a => snd (step a rt)
  | On h => snd (on h rt)
  end.

Fixpoint calls (cs : list Call) (rt : Runtime) : Runtime :=
  match cs with
  | [] => rt
  | c :: rest => calls rest (call c rt)
  end.

(** The handlers listening on socket number [n], in registration order. *)
Definition listeners_of (n : nat) (rt : Runtime) : list EventHandler :=
  map snd (filter (fun p => (fst p =? n)%nat) (listeners rt)).

(** The two listeners [connect] itself puts on a socket. *)
Definition own_listeners : list EventHandler :=
  [{| event := "creds.update"; handler := 0 |};
   {| event := "connection.update"; handler := 0 |}].

(** What holds of the service after any sequence of calls and events. *)
Record sound (rt : Runtime) : Prop := {
  attempts_bounded : reconnectAttempts (this rt) <= maxReconnectAttempts;
  delays_bounded :
    Forall (fun t => (2000 <= delay t <= 60000)%Z) (timers rt);
  handle_is_made :
    forall s, sock (this rt) = Some s ->
              nth_error (sockets rt) (sock_id s) = Some s;
  sockets_numbered :
    forall n s, nth_error (sockets rt) n = Some s -> sock_id s = n;
  listeners_have_sockets :
    Forall (fun p => fst p < length (sockets rt)) (listeners rt);
  handlers_attached :
    forall s h, sock (this rt) = Some s ->
                In h (registeredHandlers (this rt)) ->
                In (sock_id s, h) (listeners rt)
}.

End ServiceCalls.

(* ------------------------------------------------------------------ *)
(** ** Group participants: handleParticipantsUpdate *)

Module Participants.

(** A row of [group_participants]. *)
Record GroupParticipantRow := {
  gp_pk : nat;
  group_metadata_id : nat;
  participant_jid : string;
  role : string;
  gp_is_active : bool;
  added_at : Z;
  removed_at : option Z
}.

(** The requests the handler sends to the store. *)
Inductive Request :=
| ChatFind (jid : string)
| MetadataFindOrCreate (chat : nat)
| ParticipantFindOrCreate (group : nat) (jid : string)
| ParticipantFindOne (group : nat) (jid : string)
| ParticipantUpdate (pk : nat).

(** The clock and the requests the store rejects. *)
Record Setting := {
  clock : Z;
  refuses : Request -> bool
}.

(** The four tables of the store, the participants table, and the log
    lines by level and text. *)
Record Tables := {
  base : Store;
  participants : list GroupParticipantRow;
  lines : list (Level * string)
}.

(** A computation that may throw ([None]). *)
Definition P (A : Type) : Type := Setting -> Tables -> option A * Tables.

Definition pret {A} (a : A) : P A := fun _ t => (Some a, t).

Definition pbind {A B} (m : P A) (k : A -> P B) : P B :=
  fun st t =>
    match m st t with
    | (Some a, t') => k a st t'
    | (None, t') => (None, t')
    end.

Definition ptry (m : P unit) (h : P unit) : P unit :=
  fun st t =>
    match m st t with
    | (Some a, t') => (Some a, t')
    | (None, t') => h st t'
    end.

Definition plog (lvl : Level) (msg : string) : P unit :=
  fun _ t =>
    (Some tt, {| base := base t; participants := participants t;
                 lines := lines t ++ [(lvl, msg)] |}).

Definition new_Date : P Z := fun st t => (Some (clock st), t).

Definition request {A} (r : Request) (run : Tables -> A * Tables) : P A :=
  fun st t =>
    if refuses st r then (None, t)
    else let (a, t') := run t in (Some a, t').

Fixpoint pfor {A} (xs : list A) (body : A -> P unit) : P unit :=
  match xs with
  | [] => pret tt
  | x :: rest => pbind (body x) (fun _ => pfor rest body)
  end.

Definition with_base (s : Store) (t : Tables) : Tables :=
  {| base := s; participants := participants t; lines := lines t |}.

Definition with_participants (ps : list GroupParticipantRow) (t : Tables)
  : Tables :=
  {| base := base t; participants := ps; lines := lines t |}.

(** [where: { group_metadata_id, participant_jid }] *)
Definition lookup (group : nat) (jid : string)
           (ps : list GroupParticipantRow) : option GroupParticipantRow :=
  find (fun r => (group_metadata_id r =? group)%nat &&
                 (participant_jid r =? jid)) ps.

(** [Chat.findOne({ where: { chat_id } })] *)
Definition Chat_findOne (jid : string) : P (option ChatRow) :=
  request (ChatFind jid) (fun t => (Chat.lookup jid (base t), t)).

(** [GroupMetadata.findOrCreate({ where: { chat_id }, defaults:
    { chat_id } })] *)
Definition GroupMetadata_findOrCreate (chat : nat) : P GroupMetadataRow :=
  request (MetadataFindOrCreate chat) (fun t =>
    match GroupMetadata.lookup chat (base t) with
    | Some g => (g, t)
    | None =>
        let g := GroupMetadata.blank
                   (next_pk gm_pk (group_metadata (base t))) chat in
        (g, with_base
              (GroupMetadata.with_groups (group_metadata (base t) ++ [g])
                                         (base t)) t)
    end).

(** [GroupParticipant.findOrCreate] with the defaults of the handler. *)
Definition findOrCreate (group : nat) (jid : string) (added : Z) : P unit :=
  request (ParticipantFindOrCreate group jid) (fun t =>
    match lookup group jid (participants t) with
    | Some _ => (tt, t)
    | None =>
        (tt, with_participants
               (participants t ++
                [{| gp_pk := next_pk gp_pk (participants t);
                    group_metadata_id := group;
                    participant_jid := jid;
                    role := "member";
                    gp_is_active := true;
                    added_at := added;
                    removed_at := None |}]) t)
    end).

Definition findOne (group : nat) (jid : string)
  : P (option GroupParticipantRow) :=
  request (ParticipantFindOne group jid)
          (fun t => (lookup group jid (participants t), t)).

(** [participant.update(changes)]: UPDATE ... WHERE id = participant.id *)
Definition update (p : GroupParticipantRow)
           (change : GroupParticipantRow -> GroupParticipantRow) : P unit :=
  request (ParticipantUpdate (gp_pk p)) (fun t =>
    (tt, with_participants
           (map (fun r => if (gp_pk r =? gp_pk p)%nat then change r else r)
                (participants t)) t)).

(** [{ is_active: false, removed_at }] *)
Definition deactivate (at_ : Z) (r : GroupParticipantRow)
  : GroupParticipantRow :=
  {| gp_pk := gp_pk r; group_metadata_id := group_metadata_id r;
     participant_jid := participant_jid r; role := role r;
     gp_is_active := false; added_at := added_at r;
     removed_at := Some at_ |}.

(** [{ role }] *)
Definition set_role (new : string) (r : GroupParticipantRow)
  : GroupParticipantRow :=
  {| gp_pk := gp_pk r; group_metadata_id := group_metadata_id r;
     participant_jid := participant_jid r; role := new;
     gp_is_active := gp_is_active r; added_at := added_at r;
     removed_at := removed_at r |}.

(** The [action] of the event; the handler has a [default] case for
    anything but the four it knows. *)
Inductive ParticipantAction :=
| add | remove | promote | demote | unknown_action (name : string).

Record ParticipantsUpdateEvent := {
  id : string;
  participants_of : list string;
  action : ParticipantAction
}.

(** The [switch] on the action, for one participant. *)
Definition processParticipant (group : nat) (a : ParticipantAction)
           (participantJid : string) : P unit :=
  match a with
  | add =>
      pbind new_Date (fun now =>
      pbind (findOrCreate group participantJid now) (fun _ =>
      plog info "Participant added to group"))
  | remove =>
      pbind (findOne group participantJid) (fun participant =>
      match participant with
      | Some p =>
          pbind new_Date (fun now =>
          pbind (update p (deactivate now)) (fun _ =>
          plog info "Participant removed from group"))
      | None => pret tt
      end)
  | promote =>
      pbind (findOne group participantJid) (fun toPromote =>
      match toPromote with
      | Some p =>
          pbind (update p (set_role "admin")) (fun _ =>
          plog info "Participant promoted to admin")
      | None => pret tt
      end)
  | demote =>
      pbind (findOne group participantJid) (fun toDemote =>
      match toDemote with
      | Some p =>
          pbind (update p (set_role "member")) (fun _ =>
          plog info "Participant demoted to member")
      | None => pret tt
      end)
  | unknown_action _ => plog warn "Unknown participant action"
  end.

(** One iteration of the loop: the participant inside its error
    boundary. *)
Definition guarded (group : nat) (a : ParticipantAction)
           (participantJid : string) : P unit :=
  ptry (processParticipant group a participantJid)
       (plog error "Failed to process participant update").

Definition handleParticipantsUpdate (event : ParticipantsUpdateEvent)
  : P unit :=
  pbind (plog info "Processing group participants update") (fun _ =>
  ptry
    (pbind (Chat_findOne (id event)) (fun chat =>
     match chat with
     | None => plog debug "Chat not found for participants update, skipping"
     | Some chat =>
         pbind (GroupMetadata_findOrCreate (chat_pk chat)) (fun groupMeta =>
         pfor (participants_of event)
              (guarded (gm_pk groupMeta) (action event)))
     end))
    (plog error "Failed to process group participants update")).

(** The metadata row of a chat once the handler has ensured it. *)
Definition group_of (chat : nat) (s : Store) : nat :=
  match GroupMetadata.lookup chat s with
  | Some g => gm_pk g
  | None => next_pk gm_pk (group_metadata s)
  end.

(** What an action does to the row of a participant it names. *)
Definition touched (a : ParticipantAction) (now : Z)
           (r : GroupParticipantRow) : GroupParticipantRow :=
  match a with
  | remove => deactivate now r
  | promote => set_role "admin" r
  | demote => set_role "member" r
  | _ => r
  end.

(** A store that refuses nothing. *)
Definition willing (st : Setting) : Prop := forall r, refuses st r = false.

End Participants.

Section ParticipantsVocabulary.

Import Participants.

(** What [guarded] does to the participants table when nothing is
    refused. *)
Definition participant_step (a : ParticipantAction) (now : Z) (group : nat)
           (ps : list GroupParticipantRow) (jid : string)
  : list GroupParticipantRow :=
  match a with
  | add =>
      match lookup group jid ps with
      | Some _ => ps
      | None =>
          ps ++ [{| gp_pk := next_pk gp_pk ps; group_metadata_id := group;
                    participant_jid := jid; role := "member";
                    gp_is_active := true; added_at := now;
                    removed_at := None |}]
      end
  | unknown_action _ => ps
  | _ =>
      match lookup group jid ps with
      | Some p =>
          map (fun r => if (gp_pk r =? gp_pk p)%nat then touched a now r
                        else r) ps
      | None => ps
      end
  end.

(** The row [add] creates for a participant that has none. *)
Definition fresh_member (now : Z) (r : GroupParticipantRow) : Prop :=
  role r = "member" /\ gp_is_active r = true /\ added_at r = now /\
  removed_at r = None.

(* ---------------- remove, promote, demote ---------------- *)

(** The actions that change a stored row in place. *)
Definition in_place (a : ParticipantAction) : bool :=
  match a with remove | promote | demote => true | _ => false end.

(** The columns no action changes. *)
Definition identity (r : GroupParticipantRow) : nat * nat * string * Z :=
  (gp_pk r, group_metadata_id r, participant_jid r, added_at r).

Definition maybe_touched (a : ParticipantAction) (now : Z)
           (r0 r : GroupParticipantRow) : Prop :=
  r = r0 \/ r = touched a now r0.

(** The row of a participant is the stored one after the action. *)
Definition settled_row (a : ParticipantAction) (now : Z) (group : nat)
           (ps0 ps : list GroupParticipantRow) (jid : string) : Prop :=
  lookup group jid ps = option_map (touched a now) (lookup group jid ps0).

End ParticipantsVocabulary.

(* ------------------------------------------------------------------ *)
(** ** Further sample payloads, stores and runs *)

(** A message without a key, and a protocol message. *)
Definition keyless : WebMessageInfo :=
  {| key := None; message := Some [conversation (Some "lost")];
     messageTimestamp := None; pushName := None |}.

Definition protocol_note : WebMessageInfo :=
  {| key := Some {| remoteJid := Some alice; fromMe := Some false;
                    id := Some "3EB0B1"; participant := None |};
     message := Some [protocolMessage];
     messageTimestamp := Some (TsNumber 1700000000);
     pushName := None |}.

(** A store that rejects every request on the group metadata table and
    nothing else. *)
Definition metadata_rejected : Env :=
  {| now := 1700000000000;
     db_fails := fun op =>
       match op with
       | GroupMetadataFindOrCreate _ _ => true
       | GroupMetadataUpdate _ _ => true
       | _ => false
       end |}.

Module ServiceSamples.

Import WhatsAppService ServiceCalls Scenarios.

(** A handler for incoming messages. *)
Definition on_upsert : EventHandler :=
  {| event := "messages.upsert"; handler := 1 |}.

(** The handler is registered before the first connection. *)
Definition registered_then_connected : list Call :=
  [Do (OnPersistent on_upsert); Do (Connect defaults); Do (Resume true)].

End ServiceSamples.

Module ParticipantSamples.

Import Participants.

Definition bob : string := "4915198765432@s.whatsapp.net".

(** A store that refuses nothing, at a fixed time. *)
Definition open_store : Setting :=
  {| clock := 1700000000000; refuses := fun _ => false |}.

(** The directory with an empty participants table. *)
Definition no_members : Tables :=
  {| base := store directory; participants := []; lines := [] |}.

Definition members (a : ParticipantAction) (js : list string)
  : ParticipantsUpdateEvent :=
  {| id := family; participants_of := js; action := a |}.

(** Alice and Bob have been added to the family group. *)
Definition two_members : Tables :=
  snd (handleParticipantsUpdate (members add [alice; bob]) open_store
         no_members).

End ParticipantSamples.

(* ================================================================== *)
(** * Properties of the event normalizer *)
(* ================================================================== *)

Lemma resolve_keys_skip (pre rest : list string) :
  Forall (fun k => type_of_key k = None) pre ->
  resolve_keys (pre ++ rest) = resolve_keys rest.
Proof.
  induction 1 as [|k pre Hk _ IH]; simpl.
  - reflexivity.
  - now rewrite Hk.
Qed.

(** C2 (as stated, refuted): a payload holding both a plain conversation
    key and an image key classifies as ["chat"], not as ["image"], when the
    conversation key comes first, and as ["image"] when the image key comes
    first: the result follows the order of the keys in the payload. *)
Lemma resolveMessageType_follows_payload_order :
  In "conversation" (Object_keys text_then_image) /\
  In "imageMessage" (Object_keys text_then_image) /\
  resolveMessageType (Some text_then_image) = "chat" /\
  resolveMessageType (Some text_then_image) <> "image" /\
  resolveMessageType (Some image_then_text) = "image".
Proof.
  repeat split.
  - simpl; auto.
  - simpl; auto.
  - discriminate.
Qed.

(** C2 (amended): classification walks the payload's own keys in the order
    the payload lists them; the first key that the switch recognises
    decides the type, whatever keys follow it. *)
Theorem resolveMessageType_first_recognised_key
        (m : IMessage) (pre : list string) (k : string) (post : list string)
        (t : string) :
  Object_keys m = pre ++ k :: post ->
  Forall (fun k' => type_of_key k' = None) pre ->
  type_of_key k = Some t ->
  resolveMessageType (Some m) = t.
Proof.
  intros Hkeys Hpre Hk.
  unfold resolveMessageType.
  rewrite Hkeys, (resolve_keys_skip pre (k :: post) Hpre).
  simpl. now rewrite Hk.
Qed.

Lemma resolveMessageType_first_recognised_key_witness :
  resolveMessageType (Some (otherKey "messageContextInfo" :: text_then_image))
  = "chat".
Proof.
  apply (resolveMessageType_first_recognised_key
           (otherKey "messageContextInfo" :: text_then_image)
           ["messageContextInfo"] "conversation" ["imageMessage"] "chat").
  - reflexivity.
  - repeat constructor.
  - reflexivity.
Defined.

(** No recognised key at all, or no content object: ["unknown"]. *)
Lemma resolveMessageType_unknown (m : IMessage) :
  Forall (fun k => type_of_key k = None) (Object_keys m) ->
  resolveMessageType (Some m) = "unknown" /\
  resolveMessageType None = "unknown".
Proof.
  intros H. split; [|reflexivity].
  unfold resolveMessageType.
  rewrite <- (app_nil_r (Object_keys m)).
  now rewrite (resolve_keys_skip _ [] H).
Qed.

(* ================================================================== *)
(** * Properties of the connection lifecycle manager *)
(* ================================================================== *)

Section Lifecycle.

Import WhatsAppService Scenarios.

(** C3: a closure that is not the logged-out condition, with the attempt
    counter [a] below 10, raises the counter to [a + 1] and schedules one
    reconnect after exactly [min (1000 * 2^(a+1)) 60000] milliseconds,
    keeping the handle; with the counter at 10 (ten closures since the
    last Open) it schedules nothing and drops the handle; an Open
    transition resets the counter to zero. *)
Theorem reconnect_backoff_schedule
        (rt : Runtime) (n : nat) (s : WASocket)
        (code : option Z) (q : option string) :
  nth_error (sockets rt) n = Some s ->
  is_loggedOut code = false ->
  let a := reconnectAttempts (this rt) in
  let rt' := snd (step (ConnectionUpdate n (closed_with code q)) rt) in
  (a < 10 ->
     reconnectAttempts (this rt') = S a /\
     timers rt' =
       timers rt ++ [{| delay := Z.min (1000 * 2 ^ Z.of_nat (S a)) 60000;
                        timer_options := sock_options s |}] /\
     sock (this rt') = sock (this rt)) /\
  (10 <= a ->
     reconnectAttempts (this rt') = a /\
     timers rt' = timers rt /\
     sock (this rt') = None) /\
  reconnectAttempts
    (this (snd (step (ConnectionUpdate n opened) rt))) = 0.
Proof.
  intros Hs Hcode a rt'.
  subst rt'. unfold step. rewrite Hs. simpl snd.
  unfold on_connection_update, closed_with; simpl.
  rewrite Hcode.
  split; [|split].
  - intros Ha.
    destruct q; simpl;
      (destruct (Nat.ltb_spec (reconnectAttempts (this rt))
                              maxReconnectAttempts) as [_|Hge];
       [simpl; auto | unfold maxReconnectAttempts in Hge; lia]).
  - intros Ha.
    destruct q; simpl;
      (destruct (Nat.ltb_spec (reconnectAttempts (this rt))
                              maxReconnectAttempts) as [Hlt|_];
       [unfold maxReconnectAttempts in Hlt; lia | simpl; auto]).
  - reflexivity.
Qed.

Lemma reconnect_backoff_schedule_witness :
  let rt' := snd (step (ConnectionUpdate 0 (closed_with (Some 428%Z) None))
                       connected_once) in
  nth_error (sockets connected_once) 0 =
    Some {| sock_id := 0; sock_options := defaults |} /\
  is_loggedOut (Some 428%Z) = false /\
  reconnectAttempts (this connected_once) < 10 /\
  reconnectAttempts (this rt') = 1 /\
  timers rt' = [{| delay := 2000%Z; timer_options := defaults |}] /\
  sock (this rt') = sock (this connected_once).
Proof.
  split; [reflexivity|]. split; [reflexivity|].
  split; [exact (Nat.lt_0_succ 9)|].
  exact (proj1 (reconnect_backoff_schedule connected_once 0
                  {| sock_id := 0; sock_options := defaults |}
                  (Some 428%Z) None eq_refl eq_refl)
               (Nat.lt_0_succ 9)).
Defined.

(** The delays of eleven closures in a row: ten reconnects, doubling from
    two seconds up to the one-minute cap, and none for the eleventh. *)
Example eleven_closures :
  let rt := run (repeat (ConnectionUpdate 0 (closed_with (Some 428%Z) None)) 11)
                connected_once in
  map delay (timers rt) =
    [2000; 4000; 8000; 16000; 32000; 60000; 60000; 60000; 60000; 60000]%Z /\
  reconnectAttempts (this rt) = 10 /\
  sock (this rt) = None.
Proof. vm_compute. auto. Qed.

(** C4 (as stated, refuted): a reconnect scheduled before the logged-out
    closure is still pending after it, and when its timer fires it starts
    a new connection attempt that creates a third socket. *)
Lemma pending_reconnect_fires_after_logged_out :
  let terminal := snd (step (ConnectionUpdate 1 logged_out)
                            reconnect_pending) in
  timers reconnect_pending = [{| delay := 2000%Z; timer_options := defaults |}] /\
  sock (this terminal) = None /\
  timers terminal = [{| delay := 2000%Z; timer_options := defaults |}] /\
  fst (step (TimerFires 0) terminal) = Pending /\
  isConnecting (this (snd (step (TimerFires 0) terminal))) = true /\
  sock (this (run [TimerFires 0; Resume true] terminal)) =
    Some {| sock_id := 2; sock_options := defaults |}.
Proof. vm_compute. repeat split. Qed.

(** C4 (amended): a closure whose reason is the logged-out condition
    schedules no reconnect whatever the attempt counter is, starts no
    connection attempt, clears the connecting flag and drops the handle;
    the set of reconnects scheduled earlier is left as it was. *)
Theorem logged_out_schedules_no_reconnect
        (rt : Runtime) (n : nat) (s : WASocket) (q : option string) :
  nth_error (sockets rt) n = Some s ->
  let rt' := snd (step (ConnectionUpdate n
                          (closed_with (Some DisconnectReason_loggedOut) q))
                       rt) in
  timers rt' = timers rt /\
  suspended rt' = suspended rt /\
  sockets rt' = sockets rt /\
  sock (this rt') = None /\
  isConnecting (this rt') = false /\
  reconnectAttempts (this rt') = reconnectAttempts (this rt).
Proof.
  intros Hs rt'. subst rt'. unfold step. rewrite Hs. simpl snd.
  unfold on_connection_update, closed_with; simpl.
  destruct q; simpl; auto 10.
Qed.

Lemma logged_out_schedules_no_reconnect_witness :
  let rt' := snd (step (ConnectionUpdate 1 logged_out) reconnect_pending) in
  timers rt' = timers reconnect_pending /\
  suspended rt' = suspended reconnect_pending /\
  sockets rt' = sockets reconnect_pending /\
  sock (this rt') = None /\
  isConnecting (this rt') = false /\
  reconnectAttempts (this rt') = reconnectAttempts (this reconnect_pending).
Proof.
  exact (logged_out_schedules_no_reconnect reconnect_pending 1
           {| sock_id := 1; sock_options := defaults |} None eq_refl).
Defined.

(** C8 (as stated, refuted): a second [connect()] during the first one's
    wait is rejected with an error instead of returning a handle. *)
Lemma connect_in_flight_without_socket_rejects :
  isConnecting (this first_connect_in_flight) = true /\
  fst (step (Connect defaults) first_connect_in_flight) =
    Rejected "Connection in progress, socket not yet available".
Proof. vm_compute. auto. Qed.

(** C8 (amended): [connect] decides on the [isConnecting] flag alone.
    While the flag is set it starts no second attempt: it returns the
    handle the service holds when there is one and otherwise fails with
    "Connection in progress, socket not yet available".  While the flag
    is clear it starts an attempt, whether or not an earlier [connect]
    is still waiting.  A close event and a [disconnect] of a held socket
    clear the flag and leave the waiting attempts as they are, so a
    [connect] called after them starts a second attempt beside the one
    in flight. *)
Theorem connect_guards_on_flag_alone
        (rt : Runtime) (options : option ConnectOptions) :
  (let (reply, rt') := step (Connect options) rt in
   if isConnecting (this rt) then
     reply = match sock (this rt) with
             | Some s => Resolved s
             | None =>
                 Rejected
                   "Connection in progress, socket not yet available"
             end /\
     rt' = say warn "Connection attempt already in progress" rt
   else
     reply = Pending /\
     isConnecting (this rt') = true /\
     suspended rt' =
       suspended rt ++ [{| sus_options := options;
                           sus_from_timer := false |}] /\
     sockets rt' = sockets rt /\
     timers rt' = timers rt /\
     sock (this rt') = sock (this rt)) /\
  (forall n s code q,
     nth_error (sockets rt) n = Some s ->
     let rt1 := snd (step (ConnectionUpdate n (closed_with code q)) rt) in
     isConnecting (this rt1) = false /\
     suspended rt1 = suspended rt /\
     fst (step (Connect options) rt1) = Pending /\
     suspended (snd (step (Connect options) rt1)) =
       suspended rt ++ [{| sus_options := options;
                           sus_from_timer := false |}]) /\
  (forall s,
     sock (this rt) = Some s ->
     let rt1 := snd (step Disconnect rt) in
     isConnecting (this rt1) = false /\
     suspended rt1 = suspended rt /\
     fst (step (Connect options) rt1) = Pending /\
     suspended (snd (step (Connect options) rt1)) =
       suspended rt ++ [{| sus_options := options;
                           sus_from_timer := false |}]).
Proof.
  split; [|split].
  - unfold step, connect.
    destruct (isConnecting (this rt)); cbn.
    + destruct (sock (this rt)); auto.
    + auto 10.
  - intros n s code q Hs. cbn [step]. rewrite Hs. cbn [snd].
    unfold on_connection_update, closed_with; cbn.
    destruct q; cbn;
      repeat match goal with
      | |- context [if ?b then _ else _] => destruct b; cbn
      end; auto.
  - intros s Hs. cbn [step snd]. unfold disconnect. rewrite Hs. cbn. auto.
Qed.

Lemma connect_guards_on_flag_alone_witness :
  length (suspended flag_cleared_in_flight) = 1 /\
  isConnecting (this flag_cleared_in_flight) = false /\
  let (reply, rt') := step (Connect defaults) flag_cleared_in_flight in
  reply = Pending /\
  suspended rt' =
    suspended flag_cleared_in_flight ++
    [{| sus_options := defaults; sus_from_timer := false |}] /\
  length (sockets (run [Resume true; Resume true] rt')) = 3.
Proof.
  split; [reflexivity|]. split; [reflexivity|].
  pose proof (proj1 (connect_guards_on_flag_alone flag_cleared_in_flight
                       defaults)) as H.
  destruct H as (Hr & _ & Hs & _).
  split; [exact Hr|]. split; [exact Hs|reflexivity].
Defined.

End Lifecycle.

(* ================================================================== *)
(** * Reasoning about handler runs *)
(* ================================================================== *)

Lemma wp_ret {A} (a : A) env w Q : Q (Ok a) w -> wp (ret a) env w Q.
Proof. exact (fun H => H). Qed.

Lemma wp_throw {A} (e : Exn) env w (Q : Outcome A -> World -> Prop) :
  Q (Throw e) w -> wp (throw e) env w Q.
Proof. exact (fun H => H). Qed.

Lemma wp_bind {A B} (m : M A) (k : A -> M B) env w Q :
  wp m env w (fun r w' =>
                match r with
                | Ok a => wp (k a) env w' Q
                | Throw e => Q (Throw e) w'
                end) ->
  wp (bind m k) env w Q.
Proof.
  unfold wp, bind. destruct (m env w) as [[a|e] w']; simpl; auto.
Qed.

Lemma wp_try_catch {A} (m : M A) (h : Exn -> M A) env w Q :
  wp m env w (fun r w' =>
                match r with
                | Ok a => Q (Ok a) w'
                | Throw e => wp (h e) env w' Q
                end) ->
  wp (try_catch m h) env w Q.
Proof.
  unfold wp, try_catch. destruct (m env w) as [[a|e] w']; simpl; auto.
Qed.

Lemma wp_log lvl fields msg env w Q :
  Q (Ok tt) (emit (EvLog lvl fields msg) w) ->
  wp (log lvl fields msg) env w Q.
Proof. exact (fun H => H). Qed.

Lemma wp_get_now env w Q : Q (Ok (now env)) w -> wp get_now env w Q.
Proof. exact (fun H => H). Qed.

Lemma wp_query {A} in_tx op (run : Store -> A * Store) env w Q :
  (db_fails env op = true ->
   Q (Throw (DbError op)) (emit (EvDb in_tx op) w)) ->
  (db_fails env op = false ->
   Q (Ok (fst (run (store w))))
     (with_store (snd (run (store w))) (emit (EvDb in_tx op) w))) ->
  wp (query in_tx op run) env w Q.
Proof.
  unfold wp, query. intros Hf Hs.
  destruct (db_fails env op); simpl.
  - now apply Hf.
  - destruct (run (store w)) as [a s'] eqn:E. simpl in *. now apply Hs.
Qed.

Lemma wp_conseq {A} (m : M A) env w (Q Q' : Outcome A -> World -> Prop) :
  wp m env w Q -> (forall r w', Q r w' -> Q' r w') -> wp m env w Q'.
Proof. unfold wp. auto. Qed.

(** One step of symbolic execution of a handler. *)
Ltac wp_step :=
  match goal with
  | |- wp (bind _ _) _ _ _ => apply wp_bind
  | |- wp (ret _) _ _ _ => apply wp_ret
  | |- wp (throw _) _ _ _ => apply wp_throw
  | |- wp (log _ _ _) _ _ _ => apply wp_log
  | |- wp get_now _ _ _ => apply wp_get_now
  | |- wp (try_catch _ _) _ _ _ => apply wp_try_catch
  | |- wp (query _ _ _) _ _ _ => apply wp_query; intros ?
  | |- wp (when ?b _) _ _ _ => unfold when
  | |- wp (if ?b then _ else _) _ _ _ => destruct b eqn:?
  | |- wp (match ?x with _ => _ end) _ _ _ => destruct x eqn:?
  end.

(** *** What each model operation does *)

Lemma wp_Chat_findOne in_tx jid env w Q :
  (db_fails env (ChatFindOne jid) = true ->
   Q (Throw (DbError (ChatFindOne jid))) (emit (EvDb in_tx (ChatFindOne jid)) w)) ->
  (db_fails env (ChatFindOne jid) = false ->
   Q (Ok (Chat.lookup jid (store w))) (emit (EvDb in_tx (ChatFindOne jid)) w)) ->
  wp (Chat.findOne in_tx jid) env w Q.
Proof. intros Hf Hs. apply wp_query; auto. Qed.

Lemma wp_Chat_findOrCreate in_tx jid ty name env w Q :
  let op := ChatFindOrCreate jid ty name in
  (db_fails env op = true -> Q (Throw (DbError op)) (emit (EvDb in_tx op) w)) ->
  (db_fails env op = false ->
   forall row, Chat.lookup jid (store w) = Some row ->
   Q (Ok (row, false)) (emit (EvDb in_tx op) w)) ->
  (db_fails env op = false ->
   Chat.lookup jid (store w) = None ->
   let r := Chat.new_row (next_pk chat_pk (chats (store w))) jid ty name in
   Q (Ok (r, true))
     (with_store (Chat.with_chats (chats (store w) ++ [r]) (store w))
                 (emit (EvDb in_tx op) w))) ->
  wp (Chat.findOrCreate in_tx jid ty name) env w Q.
Proof.
  intros op Hf Hfound Hnew. apply wp_query; [exact Hf|].
  intros Hok. destruct (Chat.lookup jid (store w)) as [row|] eqn:E; simpl.
  - now apply Hfound.
  - now apply Hnew.
Qed.

Lemma wp_Chat_update in_tx chat c env w Q :
  let op := ChatUpdate (chat_pk chat) c in
  (db_fails env op = true -> Q (Throw (DbError op)) (emit (EvDb in_tx op) w)) ->
  (db_fails env op = false ->
   Q (Ok tt)
     (with_store
        (Chat.with_chats
           (map (fun r => if (chat_pk r =? chat_pk chat)%nat
                          then apply_chat_changes c r else r)
                (chats (store w))) (store w))
        (emit (EvDb in_tx op) w))) ->
  wp (Chat.update in_tx chat c) env w Q.
Proof. intros op Hf Hs. apply wp_query; auto. Qed.

Lemma wp_Contact_findOrCreate in_tx cid name avatar status env w Q :
  let op := ContactFindOrCreate cid name avatar status in
  (db_fails env op = true -> Q (Throw (DbError op)) (emit (EvDb in_tx op) w)) ->
  (db_fails env op = false ->
   forall row, Contact.lookup cid (store w) = Some row ->
   Q (Ok (row, false)) (emit (EvDb in_tx op) w)) ->
  (db_fails env op = false ->
   Contact.lookup cid (store w) = None ->
   let r := {| contact_pk := next_pk contact_pk (contacts (store w));
               contact_id := cid; contact_name := name;
               avatar_url := avatar; about := status;
               last_seen_at := None |} in
   Q (Ok (r, true))
     (with_store (Contact.with_contacts (contacts (store w) ++ [r]) (store w))
                 (emit (EvDb in_tx op) w))) ->
  wp (Contact.findOrCreate in_tx cid name avatar status) env w Q.
Proof.
  intros op Hf Hfound Hnew. apply wp_query; [exact Hf|].
  intros Hok. destruct (Contact.lookup cid (store w)) as [row|] eqn:E; simpl.
  - now apply Hfound.
  - now apply Hnew.
Qed.

Lemma wp_Contact_update in_tx contact c env w Q :
  let op := ContactUpdate (contact_pk contact) c in
  (db_fails env op = true -> Q (Throw (DbError op)) (emit (EvDb in_tx op) w)) ->
  (db_fails env op = false ->
   Q (Ok tt)
     (with_store
        (Contact.with_contacts
           (map (fun r => if (contact_pk r =? contact_pk contact)%nat
                          then apply_contact_changes c r else r)
                (contacts (store w))) (store w))
        (emit (EvDb in_tx op) w))) ->
  wp (Contact.update in_tx contact c) env w Q.
Proof. intros op Hf Hs. apply wp_query; auto. Qed.

Lemma wp_Message_findOne mid env w Q :
  let op := MessageFindOne mid in
  (db_fails env op = true -> Q (Throw (DbError op)) (emit (EvDb false op) w)) ->
  (db_fails env op = false ->
   Q (Ok (Message.lookup mid (store w))) (emit (EvDb false op) w)) ->
  wp (Message.findOne mid) env w Q.
Proof. intros op Hf Hs. apply wp_query; auto. Qed.

Lemma wp_Message_findOrCreate defaults env w Q :
  let op := MessageFindOrCreate defaults in
  (db_fails env op = true -> Q (Throw (DbError op)) (emit (EvDb false op) w)) ->
  (db_fails env op = false ->
   forall row, Message.lookup (message_id defaults) (store w) = Some row ->
   Q (Ok (row, false)) (emit (EvDb false op) w)) ->
  (db_fails env op = false ->
   Message.lookup (message_id defaults) (store w) = None ->
   Q (Ok (fst (Message.insert defaults (store w)), true))
     (with_store (snd (Message.insert defaults (store w)))
                 (emit (EvDb false op) w))) ->
  wp (Message.findOrCreate defaults) env w Q.
Proof.
  intros op Hf Hfound Hnew. apply wp_query; [exact Hf|].
  intros Hok.
  destruct (Message.lookup (message_id defaults) (store w)) as [row|] eqn:E;
    simpl.
  - now apply Hfound.
  - now apply Hnew.
Qed.

Lemma wp_GroupMetadata_findOrCreate chat c env w Q :
  let op := GroupMetadataFindOrCreate chat c in
  (db_fails env op = true -> Q (Throw (DbError op)) (emit (EvDb false op) w)) ->
  (db_fails env op = false ->
   forall row, GroupMetadata.lookup chat (store w) = Some row ->
   Q (Ok (row, false)) (emit (EvDb false op) w)) ->
  (db_fails env op = false ->
   GroupMetadata.lookup chat (store w) = None ->
   let r := apply_group_changes c
              (GroupMetadata.blank
                 (next_pk gm_pk (group_metadata (store w))) chat) in
   Q (Ok (r, true))
     (with_store
        (GroupMetadata.with_groups (group_metadata (store w) ++ [r]) (store w))
        (emit (EvDb false op) w))) ->
  wp (GroupMetadata.findOrCreate chat c) env w Q.
Proof.
  intros op Hf Hfound Hnew. apply wp_query; [exact Hf|].
  intros Hok.
  destruct (GroupMetadata.lookup chat (store w)) as [row|] eqn:E; simpl.
  - now apply Hfound.
  - now apply Hnew.
Qed.

Lemma wp_GroupMetadata_update g c env w Q :
  let op := GroupMetadataUpdate (gm_pk g) c in
  (db_fails env op = true -> Q (Throw (DbError op)) (emit (EvDb false op) w)) ->
  (db_fails env op = false ->
   Q (Ok tt)
     (with_store
        (GroupMetadata.with_groups
           (map (fun r => if (gm_pk r =? gm_pk g)%nat
                          then apply_group_changes c r else r)
                (group_metadata (store w))) (store w))
        (emit (EvDb false op) w))) ->
  wp (GroupMetadata.update g c) env w Q.
Proof. intros op Hf Hs. apply wp_query; auto. Qed.

(** Symbolic execution through the model operations. *)
Ltac wp_op :=
  match goal with
  | |- wp (Chat.findOne _ _) _ _ _ => apply wp_Chat_findOne; intros ?
  | |- wp (Chat.findOrCreate _ _ _ _) _ _ _ =>
      apply wp_Chat_findOrCreate; [intros ?|intros ? ? ?|intros ? ?]
  | |- wp (Chat.update _ _ _) _ _ _ => apply wp_Chat_update; intros ?
  | |- wp (Contact.findOrCreate _ _ _ _ _) _ _ _ =>
      apply wp_Contact_findOrCreate; [intros ?|intros ? ? ?|intros ? ?]
  | |- wp (Contact.update _ _ _) _ _ _ => apply wp_Contact_update; intros ?
  | |- wp (Message.findOne _) _ _ _ => apply wp_Message_findOne; intros ?
  | |- wp (Message.findOrCreate _) _ _ _ =>
      apply wp_Message_findOrCreate; [intros ?|intros ? ? ?|intros ? ?]
  | |- wp (GroupMetadata.findOrCreate _ _) _ _ _ =>
      apply wp_GroupMetadata_findOrCreate; [intros ?|intros ? ? ?|intros ? ?]
  | |- wp (GroupMetadata.update _ _) _ _ _ =>
      apply wp_GroupMetadata_update; intros ?
  | _ => wp_step
  end.

Ltac wp_run := repeat (wp_op; cbn beta iota zeta).

(* ================================================================== *)
(** * Properties of the ingestion pipeline *)
(* ================================================================== *)

Lemma find_app {A} (f : A -> bool) (l l' : list A) :
  find f (l ++ l') =
  match find f l with Some x => Some x | None => find f l' end.
Proof.
  induction l as [|a l IH]; simpl; [reflexivity|]. destruct (f a); auto.
Qed.

Lemma find_map {A} (test : A -> bool) (h : A -> A) (l : list A) :
  (forall r, test (h r) = test r) ->
  find test (map h l) = option_map h (find test l).
Proof.
  intros Hh. induction l as [|a l IH]; simpl; [reflexivity|].
  rewrite Hh. destruct (test a); auto.
Qed.

Lemma count_rows_lookup mid s :
  count_rows mid s <> 0 <-> Message.lookup mid s <> None.
Proof.
  unfold count_rows, Message.lookup.
  induction (messages s) as [|r l IH]; simpl.
  - split; intros H; contradiction.
  - destruct (message_id (attrs r) =? mid); simpl.
    + split; intros _; discriminate.
    + exact IH.
Qed.

Lemma extends_with_refl P w : extends_with P w w.
Proof. exists []. split; [now rewrite app_nil_r | reflexivity]. Qed.

Lemma extends_with_trans P w1 w2 w3 :
  extends_with P w1 w2 -> extends_with P w2 w3 -> extends_with P w1 w3.
Proof.
  intros (t1 & E1 & F1) (t2 & E2 & F2). exists (t1 ++ t2). split.
  - now rewrite E2, E1, app_assoc.
  - now rewrite forallb_app, F1, F2.
Qed.

(** The events a finished symbolic run has appended, read off its world. *)
Ltac solve_extends :=
  match goal with
  | |- extends_with _ _ _ =>
      eexists; split;
      [ cbn [trace emit with_store with_tx store];
        repeat rewrite <- app_assoc; cbn [app]; reflexivity
      | reflexivity ]
  end.

Lemma lookup_kept mid mid' w w' :
  msgs_step mid' w w' ->
  Message.lookup mid (store w) <> None ->
  Message.lookup mid (store w') <> None.
Proof.
  unfold Message.lookup.
  intros [E|(_ & r & _ & E)] H; rewrite E; [exact H|].
  rewrite find_app.
  destruct (find _ (messages (store w))); [discriminate|contradiction].
Qed.

Lemma msgs_step_duplicate mid w w' :
  msgs_step mid w w' ->
  Message.lookup mid (store w) <> None ->
  messages (store w') = messages (store w).
Proof. intros [E|(Hn & _)] H; [exact E|contradiction]. Qed.

(** One message: at most one row is appended, every event is a log line
    or a request outside any transaction, and an open transaction is left
    alone. *)
Lemma processMessage_effect env msg w :
  wp (MessageHandler.processMessage msg) env w
     (fun _ w' => msgs_step (str (opt (key msg) id)) w w' /\
                  extends_with outside_transaction w w' /\
                  tx w' = tx w).
Proof.
  unfold MessageHandler.processMessage.
  wp_run.
  all: (split; [|split; [solve_extends|reflexivity]]).
  all: try (left; reflexivity).
  all: right; split; [assumption|]; eexists; split; [|reflexivity];
       reflexivity.
Qed.

(** The error boundary never lets an exception out. *)
Lemma guarded_effect env msg w :
  wp (MessageHandler.guarded msg) env w
     (fun r w' => r = Ok tt /\
                  msgs_step (str (opt (key msg) id)) w w' /\
                  extends_with outside_transaction w w' /\
                  tx w' = tx w).
Proof.
  unfold MessageHandler.guarded. apply wp_try_catch.
  eapply wp_conseq; [apply processMessage_effect|].
  intros [[]|e] w' (Hm & He & Ht).
  - auto.
  - unfold MessageHandler.on_error. apply wp_log.
    split; [reflexivity|]. split; [exact Hm|]. split; [|exact Ht].
    eapply extends_with_trans; [exact He|]. solve_extends.
Qed.

Lemma for_of_guarded_effect env ms w :
  wp (for_of ms MessageHandler.guarded) env w
     (fun r w' =>
        r = Ok tt /\
        extends_with outside_transaction w w' /\
        tx w' = tx w /\
        (forall mid, Message.lookup mid (store w) <> None ->
                     Message.lookup mid (store w') <> None)).
Proof.
  revert w. induction ms as [|m ms IH]; intros w; simpl.
  - apply wp_ret. repeat split; auto using extends_with_refl.
  - apply wp_bind.
    eapply wp_conseq; [apply guarded_effect|].
    intros r w1 (-> & Hm & He & Ht).
    eapply wp_conseq; [apply IH|].
    intros r w2 (-> & He2 & Ht2 & Hk).
    split; [reflexivity|]. split; [eauto using extends_with_trans|].
    split; [congruence|].
    intros mid H. apply Hk. eapply lookup_kept; eauto.
Qed.

Lemma for_of_guarded_ok env ms w :
  fst (for_of ms MessageHandler.guarded env w) = Ok tt.
Proof. apply (for_of_guarded_effect env ms w). Qed.

Lemma guarded_ok env m w : fst (MessageHandler.guarded m env w) = Ok tt.
Proof. apply (guarded_effect env m w). Qed.

Lemma for_of_guarded_cons env m ms w :
  snd (for_of (m :: ms) MessageHandler.guarded env w) =
  snd (for_of ms MessageHandler.guarded env
              (snd (MessageHandler.guarded m env w))).
Proof.
  simpl. unfold bind.
  pose proof (guarded_ok env m w) as H.
  destruct (MessageHandler.guarded m env w) as [[u|e] w1]; simpl in *.
  - reflexivity.
  - discriminate.
Qed.


Ltac not_rejected Hone Hins :=
  match goal with
  | H : db_fails _ (MessageFindOne _) = true |- _ =>
      rewrite Hone in H; discriminate
  | H : db_fails _ (MessageFindOrCreate _) = true |- _ =>
      rewrite Hins in H; discriminate
  end.

(** An accepted message has a row once it has been processed, even when
    the refresh of the chat preview fails afterwards. *)
Lemma processMessage_persists env msg w :
  accepted env msg ->
  wp (MessageHandler.processMessage msg) env w
     (fun _ w' => Message.lookup (str (opt (key msg) id)) (store w') <> None).
Proof.
  intros (Hjid & Hid & Hproto & Hchat & Hcontact & Hone & Hins).
  unfold MessageHandler.processMessage.
  rewrite Hjid, Hid, Hproto. cbn [negb orb].
  wp_run.
  all: try congruence.
  all: try not_rejected Hone Hins.
  all: unfold Message.lookup in *; cbn in *.
  all: try congruence.
  all: rewrite find_app; cbn; rewrite String.eqb_refl.
  all: match goal with
       | |- match find ?f ?l with _ => _ end <> None =>
           destruct (find f l); discriminate
       end.
Qed.

(** An accepted message whose external id is already stored ends with the
    debug line of a duplicate. *)
Lemma processMessage_duplicate_logged env msg w mid :
  accepted env msg ->
  opt (key msg) id = Some mid ->
  Message.lookup mid (store w) <> None ->
  wp (MessageHandler.processMessage msg) env w
     (fun r w' => r = Ok tt /\ exists t, trace w' = t ++ [duplicate_entry mid]).
Proof.
  intros (Hjid & Hid & Hproto & Hchat & Hcontact & Hone & Hins) Hmid Hrow.
  unfold MessageHandler.processMessage.
  rewrite Hjid, Hid, Hproto. cbn [negb orb].
  wp_run.
  all: try congruence.
  all: try not_rejected Hone Hins.
  all: try (split; [reflexivity|]; rewrite Hmid; cbn [str];
            eexists; cbn [trace emit]; reflexivity).
  all: exfalso; unfold Message.lookup in *; cbn in *;
       rewrite Hmid in *; cbn in *; congruence.
Qed.

Lemma guarded_persists env m w :
  accepted env m ->
  Message.lookup (str (opt (key m) id))
                 (store (snd (MessageHandler.guarded m env w))) <> None.
Proof.
  intros Hacc.
  pose proof (processMessage_persists env m w Hacc) as H. unfold wp in H.
  unfold MessageHandler.guarded, try_catch.
  destruct (MessageHandler.processMessage m env w) as [[u|e] w1]; exact H.
Qed.

Lemma for_of_guarded_persists env ms w x :
  In x ms -> accepted env x ->
  Message.lookup (str (opt (key x) id))
                 (store (snd (for_of ms MessageHandler.guarded env w)))
  <> None.
Proof.
  revert w. induction ms as [|m ms IH]; intros w Hin Hacc; [contradiction|].
  rewrite for_of_guarded_cons.
  destruct Hin as [->|Hin].
  - apply (for_of_guarded_effect env ms (snd (MessageHandler.guarded x env w))).
    now apply guarded_persists.
  - now apply IH.
Qed.

Lemma handleUpsert_unfold env ms type w :
  MessageHandler.handleUpsert ms type env w =
  for_of ms MessageHandler.guarded env
         (emit (upsert_header (length ms) type) w).
Proof. reflexivity. Qed.

(** C1: when the external id of a message event already has its row in
    the store, ingesting the event again returns without an exception,
    leaves the messages table as it was (so the id still has exactly one
    row), and, for an event the store accepts, ends with the debug line
    "Message already exists, skipped". *)
Theorem handleUpsert_duplicate_is_noop
        (env : Env) (w : World) (msg : WebMessageInfo) (type mid : string) :
  opt (key msg) id = Some mid ->
  count_rows mid (store w) = 1 ->
  let (r, w') := MessageHandler.handleUpsert [msg] type env w in
  r = Ok tt /\
  messages (store w') = messages (store w) /\
  count_rows mid (store w') = 1 /\
  (accepted env msg -> exists t, trace w' = t ++ [duplicate_entry mid]).
Proof.
  intros Hid Hcount.
  assert (Hrow : Message.lookup mid (store w) <> None)
    by (apply count_rows_lookup; lia).
  rewrite handleUpsert_unfold.
  set (w0 := emit _ w).
  assert (Hrow0 : Message.lookup mid (store w0) <> None) by exact Hrow.
  pose proof (for_of_guarded_ok env [msg] w0) as Hok.
  pose proof (for_of_guarded_cons env msg [] w0) as Hsnd.
  destruct (for_of [msg] MessageHandler.guarded env w0) as [r w'].
  simpl in Hok, Hsnd. subst r w'.
  pose proof (guarded_effect env msg w0) as (_ & Hm & _ & _).
  replace (str (opt (key msg) id)) with mid in Hm by now rewrite Hid.
  pose proof (msgs_step_duplicate _ _ _ Hm Hrow0) as Hsame.
  split; [reflexivity|]. split; [exact Hsame|]. split.
  - unfold count_rows. rewrite Hsame. exact Hcount.
  - intros Hacc.
    pose proof (processMessage_duplicate_logged env msg w0 mid Hacc Hid Hrow0)
      as Hdup.
    unfold wp in Hdup. unfold MessageHandler.guarded, try_catch.
    destruct (MessageHandler.processMessage msg env w0) as [[u|e] w1];
      simpl in *.
    + apply Hdup.
    + destruct Hdup as (Habs & _). discriminate.
Qed.

Lemma items_accepted :
  Forall (accepted schema_env) [item1; item2; item4; item5].
Proof.
  repeat constructor; try (intros; vm_compute; reflexivity).
Qed.

Lemma handleUpsert_duplicate_is_noop_witness :
  opt (key item1) id = Some "3EB0A1" /\
  count_rows "3EB0A1" (store item1_stored) = 1 /\
  let (r, w') := MessageHandler.handleUpsert [item1] "append" schema_env
                                            item1_stored in
  r = Ok tt /\
  messages (store w') = messages (store item1_stored) /\
  count_rows "3EB0A1" (store w') = 1 /\
  exists t, trace w' = t ++ [duplicate_entry "3EB0A1"].
Proof.
  split; [reflexivity|]. split; [reflexivity|].
  pose proof (handleUpsert_duplicate_is_noop schema_env item1_stored item1
                "append" "3EB0A1" eq_refl eq_refl) as H.
  destruct (MessageHandler.handleUpsert [item1] "append" schema_env
                                        item1_stored) as [r w'].
  destruct H as (Hr & Hm & Hc & Hlog).
  split; [exact Hr|]. split; [exact Hm|]. split; [exact Hc|].
  apply Hlog. exact (Forall_inv items_accepted).
Defined.

(** Ingesting the same event twice into an empty store: one row. *)
Example same_event_twice :
  let w' := snd (MessageHandler.handleUpsert [item1; item1] "notify"
                   schema_env initial_world) in
  map (fun r => message_id (attrs r)) (messages (store w')) = ["3EB0A1"] /\
  last (trace w') (upsert_header 0 "") = duplicate_entry "3EB0A1".
Proof. vm_compute. split; reflexivity. Qed.

Lemma lookup_none_not_in mid s :
  Message.lookup mid s = None ->
  ~ In mid (map (fun r => message_id (attrs r)) (messages s)).
Proof.
  unfold Message.lookup.
  induction (messages s) as [|r l IH]; cbn; [tauto|].
  destruct (String.eqb_spec (message_id (attrs r)) mid) as [E|N].
  - discriminate.
  - intros H [E|Hin]; [contradiction|]. now apply IH.
Qed.

Lemma msgs_step_unique mid w w' :
  msgs_step mid w w' -> unique_ids (store w) -> unique_ids (store w').
Proof.
  unfold unique_ids.
  intros [E|(Hn & r & Hr & E)] H; rewrite E; [exact H|].
  rewrite map_app. cbn [map].
  apply (NoDup_Add (a := message_id (attrs r))
                   (l := map (fun r => message_id (attrs r))
                             (messages (store w)))).
  - rewrite <- (app_nil_r (map _ _)) at 1.
    apply Add_app.
  - split; [exact H|]. rewrite Hr. now apply lookup_none_not_in.
Qed.

(** The pipeline never stores a second row for an external id. *)
Lemma for_of_guarded_unique env ms w :
  unique_ids (store w) ->
  unique_ids (store (snd (for_of ms MessageHandler.guarded env w))).
Proof.
  revert w. induction ms as [|m ms IH]; intros w H; [exact H|].
  rewrite for_of_guarded_cons. apply IH.
  pose proof (guarded_effect env m w) as (_ & Hm & _).
  eapply msgs_step_unique; eassumption.
Qed.

Lemma unique_count_le_1 mid s :
  unique_ids s -> count_rows mid s <= 1.
Proof.
  unfold unique_ids, count_rows.
  induction (messages s) as [|r l IH]; cbn; [lia|].
  intros H. inversion H as [|x xs Hnot Hrest]; subst.
  destruct (String.eqb_spec (message_id (attrs r)) mid) as [E|N]; cbn.
  - assert (Hz : length (filter (fun r0 => message_id (attrs r0) =? mid) l)
                 = 0); [|lia].
    destruct (filter (fun r0 => message_id (attrs r0) =? mid) l)
      as [|r' l'] eqn:F; [reflexivity|exfalso].
    assert (Hin : In r' (filter (fun r0 => message_id (attrs r0) =? mid) l))
      by (rewrite F; now left).
    apply filter_In in Hin as (Hin & Hid). apply String.eqb_eq in Hid.
    apply Hnot. rewrite E, <- Hid.
    exact (in_map (fun r0 => message_id (attrs r0)) l r' Hin).
  - now apply IH.
Qed.

(** Ingesting the same accepted event twice, into any store that respects
    the unique constraint, leaves exactly one row with its external id. *)
Lemma same_event_twice_one_row env w msg type :
  accepted env msg ->
  unique_ids (store w) ->
  count_rows (str (opt (key msg) id))
    (store (snd (MessageHandler.handleUpsert [msg; msg] type env w))) = 1.
Proof.
  intros Hacc Huniq. rewrite handleUpsert_unfold.
  set (w0 := emit _ w).
  assert (Hle := unique_count_le_1 (str (opt (key msg) id)) _
                   (for_of_guarded_unique env [msg; msg] w0 Huniq)).
  assert (Hge := proj2 (count_rows_lookup (str (opt (key msg) id)) _)
                   (for_of_guarded_persists env [msg; msg] w0 msg
                      (or_introl eq_refl) Hacc)).
  lia.
Qed.


(** Five message events, the third with a sender id the contacts table
    cannot hold: the other four are stored. *)
Example five_items_third_rejected :
  let w' := snd (MessageHandler.handleUpsert
                   [item1; item2; item3; item4; item5] "notify"
                   schema_env initial_world) in
  map (fun r => message_id (attrs r)) (messages (store w')) =
    ["3EB0A1"; "3EB0A2"; "3EB0A4"; "3EB0A5"] /\
  fst (MessageHandler.handleUpsert
         [item1; item2; item3; item4; item5] "notify"
         schema_env initial_world) = Ok tt.
Proof. vm_compute. split; reflexivity. Qed.


(* ================================================================== *)
(** * Properties of the chat, contact and group updates *)
(* ================================================================== *)

Lemma chat_lookup_after_update jid s row c :
  Chat.lookup jid s = Some row ->
  Chat.lookup jid
    (Chat.with_chats
       (map (fun r => if (chat_pk r =? chat_pk row)%nat
                      then apply_chat_changes c r else r) (chats s)) s)
  = Some (apply_chat_changes c row).
Proof.
  unfold Chat.lookup. cbn [chats Chat.with_chats]. intros H.
  rewrite find_map.
  - rewrite H. cbn. now rewrite Nat.eqb_refl.
  - intros r. now destruct (chat_pk r =? chat_pk row)%nat.
Qed.

Lemma contact_lookup_after_update cid s row c :
  Contact.lookup cid s = Some row ->
  Contact.lookup cid
    (Contact.with_contacts
       (map (fun r => if (contact_pk r =? contact_pk row)%nat
                      then apply_contact_changes c r else r) (contacts s)) s)
  = Some (apply_contact_changes c row).
Proof.
  unfold Contact.lookup. cbn [contacts Contact.with_contacts]. intros H.
  rewrite find_map.
  - rewrite H. cbn. now rewrite Nat.eqb_refl.
  - intros r. now destruct (contact_pk r =? contact_pk row)%nat.
Qed.

Ltac no_rejection Hcalm :=
  match goal with
  | H : db_fails _ _ = true |- _ => rewrite Hcalm in H; discriminate H
  end.

Lemma chat_processUpdate_effect env w u row :
  (forall op, db_fails env op = false) ->
  ChatHandler.id u <> "" ->
  Chat.lookup (ChatHandler.id u) (store w) = Some row ->
  wp (ChatHandler.processUpdate u) env w
     (fun r w' => r = Ok tt /\
        exists row', Chat.lookup (ChatHandler.id u) (store w') = Some row' /\
                     chat_after u row row').
Proof.
  intros Hcalm Hid Hrow.
  unfold ChatHandler.processUpdate.
  destruct (String.eqb_spec (ChatHandler.id u) "") as [E|_]; [contradiction|].
  wp_run; try no_rejection Hcalm.
  all: cbn [store emit with_store] in *.
  all: try congruence.
  - split; [reflexivity|].
    assert (c = row) by congruence. subst c.
    eexists. split; [apply chat_lookup_after_update; eassumption|].
    unfold chat_after, ChatHandler.changes_of. cbn.
    destruct u as [i a p m n uc]; cbn.
    destruct a, p, m, n, uc; cbn; repeat split; reflexivity.
  - split; [reflexivity|].
    assert (c = row) by congruence. subst c.
    exists row. split; [eassumption|].
    unfold chat_after.
    destruct u as [i a p m n uc]; cbn in *.
    destruct a, p, m, n, uc; cbn in *; try discriminate;
      repeat split; reflexivity.
Qed.

Lemma contact_processUpdate_effect env w u :
  (forall op, db_fails env op = false) ->
  ContactHandler.id u <> "" ->
  wp (ContactHandler.processUpdate u) env w
     (fun r w' => r = Ok tt /\
        exists row',
          Contact.lookup (ContactHandler.id u) (store w') = Some row' /\
          match Contact.lookup (ContactHandler.id u) (store w) with
          | Some row => contact_after (now env) u row row'
          | None => contact_name row' = ContactHandler.contactName_of u
          end).
Proof.
  intros Hcalm Hid.
  unfold ContactHandler.processUpdate.
  destruct (String.eqb_spec (ContactHandler.id u) "") as [E|_];
    [contradiction|].
  wp_run; try no_rejection Hcalm.
  all: cbn [store emit with_store] in *.
  all: split; [reflexivity|].
  - eexists. split; [apply contact_lookup_after_update; eassumption|].
    match goal with H : Contact.lookup _ _ = Some _ |- _ => rewrite H end.
    unfold contact_after, ContactHandler.assigned,
      ContactHandler.contactName_of in *. cbn.
    destruct (or_str (nullable (ContactHandler.name u)) _),
             (ContactHandler.imgUrl u), (ContactHandler.status u);
      cbn in *; try discriminate; repeat split; auto.
  - exists row. split; [assumption|].
    match goal with H : Contact.lookup _ _ = Some _ |- _ => rewrite H end.
    unfold contact_after, ContactHandler.assigned,
      ContactHandler.contactName_of in *.
    destruct (or_str (nullable (ContactHandler.name u)) _),
             (ContactHandler.imgUrl u), (ContactHandler.status u);
      cbn in *; try discriminate; repeat split; auto.
  - eexists. split.
    + unfold Contact.lookup in *. cbn [contacts Contact.with_contacts].
      rewrite find_app.
      match goal with H : find _ _ = None |- _ => rewrite H end.
      cbn. rewrite String.eqb_refl. reflexivity.
    + match goal with H : Contact.lookup _ _ = None |- _ => rewrite H end.
      reflexivity.
Qed.

Lemma group_lookup_after_update chat s g c :
  GroupMetadata.lookup chat s = Some g ->
  GroupMetadata.lookup chat
    (GroupMetadata.with_groups
       (map (fun r => if (gm_pk r =? gm_pk g)%nat
                      then apply_group_changes c r else r)
            (group_metadata s)) s)
  = Some (apply_group_changes c g).
Proof.
  unfold GroupMetadata.lookup.
  cbn [group_metadata GroupMetadata.with_groups]. intros H.
  rewrite find_map.
  - rewrite H. cbn. now rewrite Nat.eqb_refl.
  - intros r. now destruct (gm_pk r =? gm_pk g)%nat.
Qed.

Lemma group_processUpdate_subject env w u row s :
  (forall op, db_fails env op = false) ->
  GroupHandler.id u <> "" ->
  Chat.lookup (GroupHandler.id u) (store w) = Some row ->
  GroupHandler.subject u = Some s ->
  wp (GroupHandler.processUpdate u) env w
     (fun r w' => r = Ok tt /\
        (exists row', Chat.lookup (GroupHandler.id u) (store w') = Some row' /\
                      renamed_to s row row') /\
        (exists g, GroupMetadata.lookup (chat_pk row) (store w') = Some g /\
                   gm_subject g = Some s)).
Proof.
  intros Hcalm Hid Hrow Hsubj.
  unfold GroupHandler.processUpdate.
  destruct (String.eqb_spec (GroupHandler.id u) "") as [E|_];
    [contradiction|].
  rewrite Hsubj.
  assert (Hne : group_changes_nonempty (GroupHandler.changes_of u) = true)
    by (unfold group_changes_nonempty, GroupHandler.changes_of; cbn;
        now rewrite Hsubj).
  rewrite Hne.
  wp_run; try no_rejection Hcalm.
  all: cbn [store emit with_store] in *.
  all: try congruence.
  all: try match goal with
           | H : negb _ = _ |- _ => cbn in H; discriminate H
           end.
  all: match goal with
       | H : Chat.lookup _ _ = Some ?c |- _ =>
           assert (c = row) by congruence; subst c
       end.
  all: split; [reflexivity|]; split.
  all: try (eexists; split;
            [ apply chat_lookup_after_update; eassumption
            | unfold renamed_to; cbn; repeat split; reflexivity ]).
  - eexists. split.
    + apply group_lookup_after_update. eassumption.
    + cbn. now rewrite Hsubj.
  - eexists. split.
    + unfold GroupMetadata.lookup in *.
      cbn [group_metadata GroupMetadata.with_groups Chat.with_chats] in *.
      rewrite find_app.
      match goal with H : find _ _ = None |- _ => rewrite H end.
      cbn. rewrite Nat.eqb_refl. reflexivity.
    + cbn. now rewrite Hsubj.
Qed.

Lemma contact_guarded_name env w u :
  calm env ->
  ContactHandler.id u <> "" ->
  fst (ContactHandler.guarded u env w) = Ok tt /\
  stored_name (ContactHandler.id u)
              (store (snd (ContactHandler.guarded u env w))) =
    name_after (stored_name (ContactHandler.id u) (store w)) u.
Proof.
  intros Hcalm Hid.
  pose proof (contact_processUpdate_effect env w u Hcalm Hid) as H.
  unfold wp in H. unfold ContactHandler.guarded, try_catch.
  destruct (ContactHandler.processUpdate u env w) as [[[]|e] w'];
    cbn [fst snd] in *; destruct H as (Hr & row' & Hl & Hn);
    [|discriminate].
  split; [reflexivity|].
  unfold stored_name, name_after. rewrite Hl.
  destruct (Contact.lookup (ContactHandler.id u) (store w)) as [row|].
  - apply Hn.
  - rewrite Hn. now destruct (ContactHandler.contactName_of u).
Qed.

Lemma contact_for_of_name env cid updates w :
  calm env -> cid <> "" ->
  Forall (fun u => ContactHandler.id u = cid) updates ->
  fst (for_of updates ContactHandler.guarded env w) = Ok tt /\
  stored_name cid
    (store (snd (for_of updates ContactHandler.guarded env w))) =
    fold_left name_after updates (stored_name cid (store w)).
Proof.
  intros Hcalm Hcid Hall. revert w.
  induction Hall as [|u updates Hu _ IH]; intros w.
  - split; reflexivity.
  - subst cid. destruct (contact_guarded_name env w u Hcalm Hcid) as (Hok & Hn).
    cbn [for_of fold_left]. unfold bind.
    destruct (ContactHandler.guarded u env w) as [[[]|e] w1];
      cbn [fst snd] in *; [|discriminate].
    rewrite <- Hn. apply IH.
Qed.

(** C9 (as stated, refuted): an update whose name is [null] but whose
    push name ([notify]) is "Bob" replaces the stored name "Alice". *)
Lemma null_name_with_notify_overwrites :
  stored_name alice (store directory) = Some "Alice" /\
  ContactHandler.name pushed_bob = Null /\
  stored_name alice
    (store (snd (ContactHandler.handleUpdate [pushed_bob] calm_env directory)))
  = Some "Bob".
Proof. vm_compute. repeat split. Qed.

(** C9 (amended): over any sequence of contact updates for one external
    id, each update whose effective name -- its name or, when that is
    null, absent or empty, its push name -- is non-empty replaces the
    stored name with it, and an update without one leaves the stored name
    alone: the name stored at the end is the last non-empty effective name
    of the sequence, or the name stored before when there is none. *)
Theorem contact_name_last_nonempty_wins
        (env : Env) (w : World) (cid : string)
        (updates : list ContactHandler.ContactUpdate) :
  calm env ->
  cid <> "" ->
  Forall (fun u => ContactHandler.id u = cid) updates ->
  let (r, w') := ContactHandler.handleUpdate updates env w in
  r = Ok tt /\
  stored_name cid (store w') =
    fold_left
      (fun cur u =>
         match or_str (nullable (ContactHandler.name u))
                      (or_str (nullable (ContactHandler.notify u)) None) with
         | Some n => Some n
         | None => cur
         end)
      updates (stored_name cid (store w)).
Proof.
  intros Hcalm Hcid Hall.
  unfold ContactHandler.handleUpdate, bind, log.
  set (w0 := emit _ w).
  destruct (contact_for_of_name env cid updates w0 Hcalm Hcid Hall)
    as (Hok & Hn).
  destruct (for_of updates ContactHandler.guarded env w0) as [r w'].
  cbn [fst snd] in *. split; [exact Hok|exact Hn].
Qed.

Lemma calm_env_calm : calm calm_env.
Proof. intros op. reflexivity. Qed.

Lemma contact_name_last_nonempty_wins_witness :
  let (r, w') :=
    ContactHandler.handleUpdate
      [named (Val "Alice"); named Null; named (Val "Alicia")]
      calm_env initial_world in
  r = Ok tt /\
  stored_name alice (store w') =
    fold_left
      (fun cur u =>
         match or_str (nullable (ContactHandler.name u))
                      (or_str (nullable (ContactHandler.notify u)) None) with
         | Some n => Some n
         | None => cur
         end)
      [named (Val "Alice"); named Null; named (Val "Alicia")]
      (stored_name alice (store initial_world)).
Proof.
  apply (contact_name_last_nonempty_wins calm_env initial_world alice
           [named (Val "Alice"); named Null; named (Val "Alicia")]).
  - exact calm_env_calm.
  - discriminate.
  - repeat constructor.
Defined.

(** Names "Alice", then null, then "Alicia": "Alice" is stored after the
    second event and "Alicia" after the third. *)
Example alice_null_alicia :
  stored_name alice
    (store (snd (ContactHandler.handleUpdate
                   [named (Val "Alice"); named Null]
                   calm_env initial_world))) = Some "Alice" /\
  stored_name alice
    (store (snd (ContactHandler.handleUpdate
                   [named (Val "Alice"); named Null; named (Val "Alicia")]
                   calm_env initial_world))) = Some "Alicia".
Proof. vm_compute. split; reflexivity. Qed.

(** C7 (as stated, refuted): an explicit [null] for a chat's archive flag
    and unread count leaves the stored values (true and 5), and an
    explicit [null] name leaves the stored contact name. *)
Lemma explicit_null_keeps_stored_value :
  ChatHandler.archive null_chat_update = Null /\
  ChatHandler.unreadCount null_chat_update = Null /\
  option_map (fun r => (is_archived r, unread_count r))
    (Chat.lookup family
       (store (snd (ChatHandler.handleUpdate [null_chat_update]
                      calm_env archived))))
  = Some (true, 5%Z) /\
  stored_name alice
    (store (snd (ContactHandler.handleUpdate [named Null]
                   calm_env directory)))
  = Some "Alice".
Proof. vm_compute. repeat split. Qed.

Lemma chat_update_unknown env u w :
  ChatHandler.id u = "" \/ Chat.lookup (ChatHandler.id u) (store w) = None ->
  wp (ChatHandler.guarded u) env w (fun _ w' => store w' = store w).
Proof.
  intros H. unfold ChatHandler.guarded, ChatHandler.processUpdate.
  apply wp_try_catch.
  destruct (ChatHandler.id u =? "") eqn:E; [now apply wp_log|].
  destruct H as [H|H]; [rewrite H in E; discriminate|].
  wp_run; try reflexivity.
  all: cbn [store emit] in *; congruence.
Qed.

Lemma contact_update_unknown env u w :
  calm env ->
  ContactHandler.id u = "" \/
  Contact.lookup (ContactHandler.id u) (store w) = None ->
  wp (ContactHandler.guarded u) env w
     (fun _ w' =>
        store w' =
        if ContactHandler.id u =? "" then store w
        else Contact.with_contacts
               (contacts (store w) ++
                [contact_created u (next_pk contact_pk (contacts (store w)))])
               (store w)).
Proof.
  intros Hcalm H. unfold ContactHandler.guarded, ContactHandler.processUpdate.
  apply wp_try_catch.
  destruct (ContactHandler.id u =? "") eqn:E; [now apply wp_log|].
  destruct H as [H|H]; [rewrite H in E; discriminate|].
  wp_run; try no_rejection Hcalm.
  all: cbn [store emit with_store] in *; try congruence.
  reflexivity.
Qed.

(** C7 (amended): with the store accepting the requests, a chat update
    and a contact update each write exactly what their fields say.  For a
    stored chat an absent field leaves its column as it was, a present
    non-null field overwrites it (pin and mute as the test "greater than
    zero"), an explicit [null] overwrites the name and leaves the archive,
    pin, mute and unread-count columns as they were; an update without an
    id or for a chat that is not stored changes nothing.  For a stored
    contact the name becomes the non-empty name or else the non-empty push
    name and is left alone when there is neither, an absent avatar or
    status is left alone and a present one, [null] included, overwrites;
    the last-seen time becomes the time of the update when a name, avatar
    or status is written and is left alone otherwise; an update for a
    contact that is not stored creates it from its fields, and one without
    an id changes nothing. *)
Theorem update_applies_fields
        (env : Env) (w : World)
        (cu : ChatHandler.ChatUpdate) (ku : ContactHandler.ContactUpdate) :
  calm env ->
  (let s' := store (snd (ChatHandler.handleUpdate [cu] env w)) in
   if ChatHandler.id cu =? "" then s' = store w
   else
     match Chat.lookup (ChatHandler.id cu) (store w) with
     | Some chat =>
         exists chat',
           Chat.lookup (ChatHandler.id cu) s' = Some chat' /\
           chat_after cu chat chat'
     | None => s' = store w
     end) /\
  (let s' := store (snd (ContactHandler.handleUpdate [ku] env w)) in
   if ContactHandler.id ku =? "" then s' = store w
   else
     match Contact.lookup (ContactHandler.id ku) (store w) with
     | Some contact =>
         exists contact',
           Contact.lookup (ContactHandler.id ku) s' = Some contact' /\
           contact_after (now env) ku contact contact'
     | None =>
         s' = Contact.with_contacts
                (contacts (store w) ++
                 [contact_created ku
                    (next_pk contact_pk (contacts (store w)))])
                (store w)
     end).
Proof.
  intros Hcalm. split.
  - unfold ChatHandler.handleUpdate, bind, log.
    set (w0 := emit _ w). cbn [for_of]. unfold bind.
    assert (Hsame : wp (ChatHandler.guarded cu) env w0
                       (fun _ w' => store w' = store w) ->
                    store (snd (let (o, w') := ChatHandler.guarded cu env w0 in
                                match o with
                                | Ok _ => (Ok tt, w')
                                | Throw e => (Throw e, w')
                                end)) = store w).
    { unfold wp. destruct (ChatHandler.guarded cu env w0) as [[u|e] w'];
        cbn; auto. }
    destruct (String.eqb_spec (ChatHandler.id cu) "") as [E|N].
    { apply Hsame.
      eapply wp_conseq; [apply (chat_update_unknown env cu w0); now left|].
      intros ? ? H. exact H. }
    destruct (Chat.lookup (ChatHandler.id cu) (store w)) as [chat|] eqn:Hchat.
    + pose proof (chat_processUpdate_effect env w0 cu chat Hcalm N Hchat)
        as H.
      unfold wp in H. unfold ChatHandler.guarded, try_catch.
      destruct (ChatHandler.processUpdate cu env w0) as [[[]|e] w'];
        cbn [fst snd] in *; destruct H as (Hr & H); [exact H|discriminate].
    + apply Hsame.
      eapply wp_conseq; [apply (chat_update_unknown env cu w0); now right|].
      intros ? ? H. exact H.
  - unfold ContactHandler.handleUpdate, bind, log.
    set (w0 := emit _ w). cbn [for_of]. unfold bind.
    assert (Hnew : forall s,
              wp (ContactHandler.guarded ku) env w0
                 (fun _ w' => store w' = s) ->
              store (snd (let (o, w') :=
                            ContactHandler.guarded ku env w0 in
                          match o with
                          | Ok _ => (Ok tt, w')
                          | Throw e => (Throw e, w')
                          end)) = s).
    { intros s. unfold wp.
      destruct (ContactHandler.guarded ku env w0) as [[u|e] w']; cbn; auto. }
    destruct (String.eqb_spec (ContactHandler.id ku) "") as [E|N].
    { apply Hnew.
      eapply wp_conseq;
        [apply (contact_update_unknown env ku w0 Hcalm); now left|].
      change (store w0) with (store w).
      cbn beta. intros ? ? ->.
      now rewrite (proj2 (String.eqb_eq _ _) E). }
    destruct (Contact.lookup (ContactHandler.id ku) (store w))
      as [contact|] eqn:Hcontact.
    + pose proof (contact_processUpdate_effect env w0 ku Hcalm N) as H.
      unfold wp in H. unfold ContactHandler.guarded, try_catch.
      destruct (ContactHandler.processUpdate ku env w0) as [[[]|e] w'];
        cbn [fst snd] in *; destruct H as (Hr & row' & Hl & Hn);
        [|discriminate].
      exists row'. split; [exact Hl|].
      change (store w0) with (store w) in Hn. now rewrite Hcontact in Hn.
    + apply Hnew.
      eapply wp_conseq;
        [apply (contact_update_unknown env ku w0 Hcalm); now right|].
      change (store w0) with (store w).
      cbn beta. intros ? ? ->.
      now rewrite (proj2 (String.eqb_neq _ _) N).
Qed.

Lemma update_applies_fields_witness :
  (exists chat',
     Chat.lookup family
       (store (snd (ChatHandler.handleUpdate [null_chat_update]
                      calm_env archived)))
       = Some chat' /\
     chat_after null_chat_update
       {| chat_pk := 1; chat_id := family; chat_type := group;
          chat_name := Some "Family"; is_archived := true;
          is_pinned := false; is_muted := false; last_message_at := None;
          last_message_preview := None; unread_count := 5;
          total_message_count := 0 |} chat') /\
  (exists contact',
     Contact.lookup alice
       (store (snd (ContactHandler.handleUpdate [pushed_bob]
                      calm_env archived)))
       = Some contact' /\
     contact_after (now calm_env) pushed_bob
       {| contact_pk := 1; contact_id := alice; contact_name := Some "Alice";
          avatar_url := None; about := None; last_seen_at := None |}
       contact').
Proof.
  exact (update_applies_fields calm_env archived null_chat_update pushed_bob
           calm_env_calm).
Defined.

(** C10: a group update that carries a subject, for a stored chat and
    with the store accepting the requests, sets the chat's display name to
    that subject whatever name the chat had, changes no other column of
    the chat, and leaves a GroupMetadata row for the chat whose subject is
    that subject. *)
Theorem group_subject_renames_chat
        (env : Env) (w : World) (u : GroupHandler.GroupUpdate)
        (chat : ChatRow) (s : string) :
  calm env ->
  GroupHandler.id u <> "" ->
  Chat.lookup (GroupHandler.id u) (store w) = Some chat ->
  GroupHandler.subject u = Some s ->
  let (r, w') := GroupHandler.handleGroupUpdate [u] env w in
  r = Ok tt /\
  (exists chat', Chat.lookup (GroupHandler.id u) (store w') = Some chat' /\
                 chat_name chat' = Some s /\
                 renamed_to s chat chat') /\
  (exists g, GroupMetadata.lookup (chat_pk chat) (store w') = Some g /\
             gm_subject g = Some s).
Proof.
  intros Hcalm Hid Hchat Hsubj.
  unfold GroupHandler.handleGroupUpdate, bind, log.
  set (w0 := emit _ w). cbn [for_of]. unfold bind.
  pose proof (group_processUpdate_subject env w0 u chat s Hcalm Hid Hchat Hsubj)
    as H.
  unfold wp in H. unfold GroupHandler.guarded, try_catch.
  destruct (GroupHandler.processUpdate u env w0) as [[[]|e] w'];
    cbn [fst snd] in *;
    destruct H as (Hr & (row' & Hl & Hren) & Hg); [|discriminate].
  split; [reflexivity|]. split; [|exact Hg].
  exists row'. split; [exact Hl|]. split; [apply Hren|exact Hren].
Qed.

Lemma group_subject_renames_chat_witness :
  let (r, w') := GroupHandler.handleGroupUpdate [new_subject] calm_env
                                                directory in
  r = Ok tt /\
  (exists chat', Chat.lookup family (store w') = Some chat' /\
                 chat_name chat' = Some "Family 2024" /\
                 renamed_to "Family 2024"
                   (Chat.new_row 1 family group (Some "Family")) chat') /\
  (exists g, GroupMetadata.lookup 1 (store w') = Some g /\
             gm_subject g = Some "Family 2024").
Proof.
  apply (group_subject_renames_chat calm_env directory new_subject
           (Chat.new_row 1 family group (Some "Family")) "Family 2024").
  - exact calm_env_calm.
  - discriminate.
  - reflexivity.
  - reflexivity.
Defined.

(* ================================================================== *)
(** * Properties of the historical batch importer *)
(* ================================================================== *)


Lemma metadata_step_refl w : metadata_step w w.
Proof. repeat split. apply extends_with_refl. Qed.

Lemma metadata_step_trans w1 w2 w3 :
  metadata_step w1 w2 -> metadata_step w2 w3 -> metadata_step w1 w3.
Proof.
  intros (E1 & M1 & T1) (E2 & M2 & T2). repeat split.
  - eapply extends_with_trans; eassumption.
  - congruence.
  - congruence.
Qed.

Lemma pipeline_step_refl w : pipeline_step w w.
Proof. split; [apply extends_with_refl|reflexivity]. Qed.

Lemma pipeline_step_trans w1 w2 w3 :
  pipeline_step w1 w2 -> pipeline_step w2 w3 -> pipeline_step w1 w3.
Proof.
  intros (E1 & T1) (E2 & T2). split.
  - eapply extends_with_trans; eassumption.
  - congruence.
Qed.

Lemma processChat_step env chatData n w :
  wp (HistoryHandler.processChat chatData n) env w
     (fun _ w' => metadata_step w w').
Proof.
  unfold HistoryHandler.processChat.
  wp_run.
  all: split; [solve_extends || apply extends_with_refl|split; reflexivity].
Qed.

Lemma processContact_step env contactData n w :
  wp (HistoryHandler.processContact contactData n) env w
     (fun _ w' => metadata_step w w').
Proof.
  unfold HistoryHandler.processContact.
  wp_run.
  all: split; [solve_extends || apply extends_with_refl|split; reflexivity].
Qed.

Lemma counting_step {A} (body : A -> nat -> M nat) env :
  (forall x n w, wp (body x n) env w (fun _ w' => metadata_step w w')) ->
  forall xs n w,
    wp (HistoryHandler.counting body xs n) env w
       (fun _ w' => metadata_step w w').
Proof.
  intros Hbody xs. induction xs as [|x xs IH]; intros n w; cbn.
  - apply wp_ret. apply metadata_step_refl.
  - apply wp_bind. eapply wp_conseq; [apply Hbody|].
    intros [n'|e] w1 H1; [|exact H1].
    eapply wp_conseq; [apply IH|].
    intros r w2 H2. eapply metadata_step_trans; eassumption.
Qed.

Lemma handleUpsert_step env ms type w :
  wp (MessageHandler.handleUpsert ms type) env w
     (fun r w' => r = Ok tt /\ pipeline_step w w').
Proof.
  unfold wp. rewrite handleUpsert_unfold.
  destruct (for_of_guarded_effect env ms
              (emit (upsert_header (length ms) type) w))
    as (Hok & He & Ht & _).
  split; [exact Hok|]. split; [|exact Ht].
  eapply extends_with_trans; [|exact He]. solve_extends.
Qed.

Lemma run_batches_step env total bs p w :
  wp (run_batches total bs p) env w
     (fun r w' => (exists n, r = Ok n) /\ pipeline_step w w').
Proof.
  revert p w. induction bs as [|b bs IH]; intros p w; cbn [run_batches].
  - apply wp_ret. split; [eauto|apply pipeline_step_refl].
  - apply wp_bind. eapply wp_conseq; [apply handleUpsert_step|].
    intros r w1 (-> & H1).
    apply wp_bind. unfold when.
    match goal with |- wp (if ?c then _ else _) _ _ _ => destruct c end.
    + apply wp_log. eapply wp_conseq; [apply IH|].
      intros r w2 (Hr & H2). split; [exact Hr|].
      eapply pipeline_step_trans; [exact H1|].
      eapply pipeline_step_trans; [|exact H2].
      split; [solve_extends|reflexivity].
    + apply wp_ret. eapply wp_conseq; [apply IH|].
      intros r w2 (Hr & H2). split; [exact Hr|].
      eapply pipeline_step_trans; eassumption.
Qed.

(** The loop cuts the messages into consecutive sub-batches of at most
    [MESSAGE_BATCH_SIZE] and runs [handleUpsert] on each; the fuel never
    runs out. *)
Lemma message_loop_batches fuel ms i p :
  length ms - i <= fuel ->
  exists batches,
    concat batches = skipn i ms /\
    Forall (fun b => 1 <= length b <= 100) batches /\
    HistoryHandler.message_loop fuel ms i p =
      run_batches (length ms) batches p.
Proof.
  revert i p. induction fuel as [|fuel IH]; intros i p Hfuel.
  - exists []. split; [|split; [constructor|reflexivity]].
    symmetry. apply skipn_all2. lia.
  - cbn [HistoryHandler.message_loop].
    destruct (Nat.ltb_spec i (length ms)) as [Hlt|Hge].
    + unfold HistoryHandler.MESSAGE_BATCH_SIZE, HistoryHandler.slice.
      replace (i + 100 - i) with 100 by lia.
      destruct (IH (i + 100) (p + length (firstn 100 (skipn i ms)))
                   ltac:(lia)) as (bs & Hc & Hall & Heq).
      exists (firstn 100 (skipn i ms) :: bs).
      split; [|split].
      * cbn [concat]. rewrite Hc.
        replace (i + 100) with (100 + i) by lia.
        rewrite <- skipn_skipn. apply firstn_skipn.
      * constructor; [|exact Hall].
        rewrite length_firstn, length_skipn. lia.
      * cbn [run_batches]. rewrite Heq. reflexivity.
    + exists []. split; [|split; [constructor|reflexivity]].
      symmetry. apply skipn_all2. lia.
Qed.

Lemma wp_begin env w Q :
  (db_fails env TxBegin = true ->
   Q (Throw (DbError TxBegin)) (emit (EvDb false TxBegin) w)) ->
  (db_fails env TxBegin = false ->
   Q (Ok tt) (with_tx (Some (store w)) (emit (EvDb false TxBegin) w))) ->
  wp Transaction.begin env w Q.
Proof.
  unfold wp, Transaction.begin. intros Hf Hs.
  destruct (db_fails env TxBegin); cbn; auto.
Qed.

Lemma wp_commit env w snapshot Q :
  tx w = Some snapshot ->
  (db_fails env TxCommit = true ->
   Q (Throw (DbError TxCommit)) (emit (EvDb true TxCommit) w)) ->
  (db_fails env TxCommit = false ->
   Q (Ok tt) (with_tx None (emit (EvDb true TxCommit) w))) ->
  wp Transaction.commit env w Q.
Proof.
  unfold wp, Transaction.commit. intros Ht Hf Hs. cbn. rewrite Ht.
  destruct (db_fails env TxCommit); cbn; auto.
Qed.

Lemma wp_rollback env w snapshot Q :
  tx w = Some snapshot ->
  (db_fails env TxRollback = true ->
   Q (Throw (DbError TxRollback)) (emit (EvDb true TxRollback) w)) ->
  (db_fails env TxRollback = false ->
   Q (Ok tt)
     (with_tx None (with_store snapshot (emit (EvDb true TxRollback) w)))) ->
  wp Transaction.rollback env w Q.
Proof.
  unfold wp, Transaction.rollback. intros Ht Hf Hs. cbn. rewrite Ht.
  destruct (db_fails env TxRollback); cbn; auto.
Qed.

Lemma truthy_or_none a :
  truthy (or_str a None) = true -> or_str a None = a /\ truthy a = true.
Proof. unfold or_str. destruct (truthy a) eqn:E; [auto|discriminate]. Qed.

(** An existing chat keeps its name unless it had none and the batch
    supplies one. *)
Lemma processChat_name env chatData n w row :
  Chat.lookup (HistoryHandler.hc_id chatData) (store w) = Some row ->
  wp (HistoryHandler.processChat chatData n) env w
     (fun r w' =>
        exists row',
          Chat.lookup (HistoryHandler.hc_id chatData) (store w') = Some row' /\
          (chat_name row' = chat_name row \/
           (truthy (chat_name row) = false /\
            truthy (HistoryHandler.hc_name chatData) = true /\
            chat_name row' = HistoryHandler.hc_name chatData)) /\
          (forall k, r = Ok k ->
             HistoryHandler.hc_id chatData <> "" ->
             truthy (chat_name row) = false ->
             truthy (HistoryHandler.hc_name chatData) = true ->
             chat_name row' = HistoryHandler.hc_name chatData)).
Proof.
  intros Hrow.
  unfold HistoryHandler.processChat.
  wp_run.
  all: cbn [store emit with_store] in *.
  all: try congruence.
  all: try match goal with
           | H : Chat.lookup _ _ = Some ?c |- _ =>
               assert (c = row) by congruence; subst c
           end.
  all: try (exists row; split; [assumption|]; split; [now left|];
            intros k Hk; discriminate Hk).
  all: match goal with
       | Hid : (_ =? "") = true |- _ =>
           (* the id is empty: skipped *)
           exists row; split; [assumption|]; split; [now left|];
           intros k _ Hne; apply String.eqb_eq in Hid; contradiction
       | Hc : _ && _ = true |- _ =>
           (* the name is written *)
           apply andb_prop in Hc as (Hb & Hold);
           apply andb_prop in Hb as (_ & Hnew);
           apply truthy_or_none in Hnew as (Hor & Hnew);
           apply negb_true_iff in Hold;
           eexists; split; [apply chat_lookup_after_update; eassumption|];
           cbn; rewrite Hor; split; [right|]; auto
       | Hc : _ && _ = false |- _ =>
           (* the name is kept *)
           exists row; split; [assumption|]; split; [now left|];
           intros k _ _ Hold Hnew; exfalso;
           cbn [negb andb] in Hc; rewrite Hold in Hc;
           unfold or_str in Hc; rewrite Hnew in Hc; rewrite Hnew in Hc;
           discriminate Hc
       end.
Qed.

Lemma message_phase_step env ms w :
  wp (HistoryHandler.message_phase ms) env w
     (fun r w' => (exists n, r = Ok n) /\ pipeline_step w w').
Proof.
  unfold HistoryHandler.message_phase.
  destruct (message_loop_batches (length ms) ms 0 0 ltac:(lia))
    as (bs & _ & _ & ->).
  apply run_batches_step.
Qed.

(** The [catch] block of [handleHistorySet], entered with the
    transaction still open. *)
Lemma rollback_handler env w e snapshot :
  tx w = Some snapshot ->
  wp (Transaction.rollback ;;
      log error [("err", VErr e)] "Failed to process history sync batch" ;;
      throw (A:=unit) e) env w
     (fun r w' =>
        (exists e', r = Throw e') /\
        (exists t, trace w' = trace w ++ t /\
                   forallb no_message_request t = true) /\
        (store w' = snapshot \/ store w' = store w)).
Proof.
  intros Ht. apply wp_bind. eapply wp_rollback; [exact Ht| |]; intros _.
  - split; [eauto|]. split; [|now right].
    eexists. split; [reflexivity|reflexivity].
  - apply wp_bind, wp_log, wp_throw.
    split; [eauto|]. split; [|now left].
    eexists. split; [cbn; rewrite <- app_assoc; reflexivity|reflexivity].
Qed.

Lemma in_transaction_no_message t :
  forallb in_transaction t = true -> forallb no_message_request t = true.
Proof.
  induction t as [|e t IH]; cbn; [reflexivity|].
  intros H. apply andb_prop in H as (He & Ht). rewrite (IH Ht), andb_true_r.
  destruct e as [l f m|[] []]; cbn in *; congruence.
Qed.


Lemma driven_ret {A} (a : A) : store_driven (ret a).
Proof. intros env w1 w2 H. now split. Qed.

Lemma driven_throw {A} (e : Exn) : store_driven (throw (A:=A) e).
Proof. intros env w1 w2 H. now split. Qed.

Lemma driven_log lvl fields msg : store_driven (log lvl fields msg).
Proof. intros env w1 w2 H. now split. Qed.

Lemma driven_get_now : store_driven get_now.
Proof. intros env w1 w2 H. now split. Qed.

Lemma driven_bind {A B} (m : M A) (k : A -> M B) :
  store_driven m -> (forall a, store_driven (k a)) ->
  store_driven (bind m k).
Proof.
  intros Hm Hk env w1 w2 H. unfold bind.
  destruct (Hm env w1 w2 H) as (Hr & Hs).
  destruct (m env w1) as [[a|e] w1'], (m env w2) as [[a'|e'] w2'];
    cbn [fst snd] in *; try discriminate.
  - inversion Hr; subst. now apply Hk.
  - inversion Hr; subst. now split.
Qed.

Lemma driven_try_catch {A} (m : M A) (h : Exn -> M A) :
  store_driven m -> (forall e, store_driven (h e)) ->
  store_driven (try_catch m h).
Proof.
  intros Hm Hh env w1 w2 H. unfold try_catch.
  destruct (Hm env w1 w2 H) as (Hr & Hs).
  destruct (m env w1) as [[a|e] w1'], (m env w2) as [[a'|e'] w2'];
    cbn [fst snd] in *; try discriminate.
  - inversion Hr; subst. now split.
  - inversion Hr; subst. now apply Hh.
Qed.

Lemma driven_query {A} in_tx op (run : Store -> A * Store) :
  store_driven (query in_tx op run).
Proof.
  intros env w1 w2 H. unfold query. cbn [store emit].
  destruct (db_fails env op); cbn; [now split|].
  rewrite H. destruct (run (store w2)) as [a s']. now split.
Qed.

Lemma driven_when b (m : M unit) : store_driven m -> store_driven (when b m).
Proof. intros Hm. destruct b; [exact Hm|apply driven_ret]. Qed.

Lemma driven_for_of {A} (xs : list A) (body : A -> M unit) :
  (forall x, store_driven (body x)) -> store_driven (for_of xs body).
Proof.
  intros Hb. induction xs as [|x xs IH]; cbn.
  - apply driven_ret.
  - apply driven_bind; [apply Hb|intros _; exact IH].
Qed.

Ltac driven_walk :=
  repeat match goal with
  | |- store_driven (bind _ _) => apply driven_bind; [|intros ?]
  | |- store_driven (ret _) => apply driven_ret
  | |- store_driven (throw _) => apply driven_throw
  | |- store_driven (log _ _ _) => apply driven_log
  | |- store_driven get_now => apply driven_get_now
  | |- store_driven (try_catch _ _) => apply driven_try_catch; [|intros ?]
  | |- store_driven (when _ _) => apply driven_when
  | |- store_driven (for_of _ _) => apply driven_for_of; intros ?
  | |- store_driven (query _ _ _) => apply driven_query
  | |- store_driven (if ?b then _ else _) => destruct b
  | |- store_driven (match ?x with _ => _ end) => destruct x
  end.

Lemma driven_handleUpsert ms type :
  store_driven (MessageHandler.handleUpsert ms type).
Proof.
  unfold MessageHandler.handleUpsert, MessageHandler.guarded,
    MessageHandler.on_error, MessageHandler.processMessage,
    Chat.findOrCreate, Chat.update, Contact.findOrCreate, Message.findOne,
    Message.findOrCreate.
  driven_walk.
Qed.

Section HistoryBatch.

Import HistorySpec.








End HistoryBatch.

Section HistoryClaim.

Import HistorySpec.





End HistoryClaim.

(** One batch flagged as the latest, with two chats, two contacts and
    three messages, into an empty store. *)
Example history_end_to_end :
  let (r, w') := HistoryHandler.handleHistorySet batch_messages batch_chats
                   batch_contacts true calm_env initial_world in
  r = Ok tt /\
  length (chats (store w')) = 2 /\
  length (contacts (store w')) = 2 /\
  length (messages (store w')) = 3 /\
  tx w' = None /\
  last (trace w') (upsert_header 0 "") =
    EvLog info [] "History sync complete (isLatest=true)".
Proof. vm_compute. repeat split. Qed.

(* ================================================================== *)
(** * Invariants of the store and of the service *)
(* ================================================================== *)

(* ------------------------------------------------------------------ *)
(** ** Normalizer: chat kinds, message types and bodies *)

Lemma length_append (p t : string) :
  String.length (p ++ t)%string = String.length p + String.length t.
Proof. induction p as [|c p IH]; cbn; [reflexivity|now rewrite IH]. Qed.

Lemma substring_all (t : string) : substring 0 (String.length t) t = t.
Proof. induction t as [|c t IH]; cbn; [reflexivity|now rewrite IH]. Qed.

Lemma substring_skip (p t : string) n :
  substring (String.length p) n (p ++ t)%string = substring 0 n t.
Proof. induction p as [|c p IH]; cbn; [reflexivity|exact IH]. Qed.

Lemma endsWith_append (p t : string) : endsWith (p ++ t)%string t = true.
Proof.
  unfold endsWith. rewrite length_append.
  replace (String.length p + String.length t - String.length t)
    with (String.length p) by lia.
  rewrite substring_skip, substring_all, String.eqb_refl, andb_true_r.
  apply Nat.leb_le. lia.
Qed.

Lemma substring_suffix (s : string) n m :
  n + m = String.length s ->
  exists p, s = (p ++ substring n m s)%string /\ String.length p = n.
Proof.
  revert n. induction s as [|c s IH]; intros n H; cbn in H.
  - assert (n = 0) by lia. assert (m = 0) by lia. subst. now exists "".
  - destruct n as [|n].
    + exists "". split; [|reflexivity]. cbn [append].
      assert (Hm : m = String.length (String c s)) by (cbn; lia).
      rewrite Hm. now rewrite substring_all.
    + destruct (IH n ltac:(lia)) as (p & Hp & Hl).
      exists (String c p). cbn. split; [now rewrite <- Hp|now rewrite Hl].
Qed.

Lemma endsWith_inv (s t : string) :
  endsWith s t = true -> exists p, s = (p ++ t)%string.
Proof.
  unfold endsWith. intros H. apply andb_prop in H as (Hl & He).
  apply Nat.leb_le in Hl. apply String.eqb_eq in He.
  destruct (substring_suffix s (String.length s - String.length t)
                             (String.length t) ltac:(lia)) as (p & Hp & _).
  exists p. now rewrite He in Hp.
Qed.

Lemma append_split (p p' a b : string) :
  (p ++ a = p' ++ b)%string -> String.length p <= String.length p' ->
  exists q, p' = (p ++ q)%string /\ a = (q ++ b)%string.
Proof.
  revert p'. induction p as [|c p IH]; intros p' H Hl; cbn in *.
  - exists p'. auto.
  - destruct p' as [|c' p']; cbn in *; [lia|].
    injection H as -> H.
    destruct (IH p' H ltac:(lia)) as (q & -> & ->). now exists q.
Qed.

Lemma broadcast_not_group (p : string) :
  endsWith (p ++ "@broadcast")%string "@g.us" = false.
Proof.
  destruct (endsWith (p ++ "@broadcast")%string "@g.us") eqn:E;
    [exfalso|reflexivity].
  apply endsWith_inv in E as (p' & E).
  assert (Hlen : String.length p' = String.length p + 5).
  { apply (f_equal String.length) in E. rewrite !length_append in E.
    cbn in E. lia. }
  destruct (append_split p p' _ _ E ltac:(lia)) as (q & -> & Hq).
  rewrite length_append in Hlen.
  assert (Hq5 : String.length q = 5) by lia.
  destruct q as [|c1 [|c2 [|c3 [|c4 [|c5 [|c6 q]]]]]]; cbn in Hq5, Hq;
    congruence.
Qed.

(** X1: [chatTypeFromJid] answers by suffix alone: any JID ending in
    "@g.us" is a group, any JID ending in "@broadcast" is a broadcast, and
    conversely a group or broadcast answer means the JID has that suffix;
    everything else is a private chat. *)
Theorem chatTypeFromJid_by_suffix (jid : string) :
  (forall p, chatTypeFromJid (p ++ "@g.us")%string = group) /\
  (forall p, chatTypeFromJid (p ++ "@broadcast")%string = broadcast) /\
  match chatTypeFromJid jid with
  | group => exists p, jid = (p ++ "@g.us")%string
  | broadcast => exists p, jid = (p ++ "@broadcast")%string
  | private =>
      (forall p, jid <> (p ++ "@g.us")%string) /\
      (forall p, jid <> (p ++ "@broadcast")%string)
  end.
Proof.
  split; [|split].
  - intros p. unfold chatTypeFromJid. now rewrite endsWith_append.
  - intros p. unfold chatTypeFromJid.
    now rewrite broadcast_not_group, endsWith_append.
  - unfold chatTypeFromJid.
    destruct (endsWith jid "@g.us") eqn:G; [now apply endsWith_inv|].
    destruct (endsWith jid "@broadcast") eqn:B; [now apply endsWith_inv|].
    split; intros p ->; rewrite endsWith_append in *; discriminate.
Qed.

Lemma type_of_key_valid k t :
  type_of_key k = Some t -> In t valid_message_type /\ t <> "unknown".
Proof.
  unfold type_of_key.
  repeat match goal with
         | |- context [if ?b then _ else _] => destruct b
         end; intros H; inversion H; subst;
    (split; [cbn; tauto|discriminate]).
Qed.

Lemma resolve_keys_valid ks :
  In (resolve_keys ks) valid_message_type /\
  (resolve_keys ks <> "unknown" ->
   exists k, In k ks /\ type_of_key k = Some (resolve_keys ks)).
Proof.
  induction ks as [|k ks (IH1 & IH2)]; cbn.
  - split; [tauto|intros H; contradiction].
  - destruct (type_of_key k) as [t|] eqn:E.
    + split; [now apply (type_of_key_valid k)|eauto].
    + split; [exact IH1|]. intros H.
      destruct (IH2 H) as (k' & Hin & Hk). eauto.
Qed.

Lemma resolveMessageType_valid (messageContent : option IMessage) :
  In (resolveMessageType messageContent) valid_message_type.
Proof.
  destruct messageContent as [m|]; cbn [resolveMessageType].
  - apply resolve_keys_valid.
  - cbn; tauto.
Qed.

(** X2: [resolveMessageType] only ever answers with a type the CHECK
    constraint [valid_message_type] of the messages table admits, and an
    answer other than "unknown" is the type of a key the content object
    really has. *)
Theorem resolveMessageType_admitted (messageContent : option IMessage) :
  In (resolveMessageType messageContent) valid_message_type /\
  (resolveMessageType messageContent <> "unknown" ->
   exists m k, messageContent = Some m /\ In k (Object_keys m) /\
               type_of_key k = Some (resolveMessageType messageContent)).
Proof.
  split; [apply resolveMessageType_valid|].
  destruct messageContent as [m|]; cbn [resolveMessageType].
  - destruct (resolve_keys_valid (Object_keys m)) as (H1 & H2).
    intros H. destruct (H2 H) as (k & Hin & Hk). eauto.
  - intros H; contradiction.
Qed.

Lemma or_str_nonempty a b s :
  (forall s', b = Some s' -> s' <> "") -> or_str a b = Some s -> s <> "".
Proof.
  unfold or_str, truthy. destruct a as [x|].
  - destruct (String.eqb_spec x "") as [E|N]; cbn; [auto|].
    intros _ H. now inversion H; subst.
  - cbn. auto.
Qed.

Lemma extractBody_some (messageContent : option IMessage) (b : string) :
  extractBody messageContent = Some b -> b <> "".
Proof.
  destruct messageContent as [m|]; cbn [extractBody]; [|discriminate].
  repeat (apply or_str_nonempty; intros ?). discriminate.
Qed.

(** X3: [extractBody] never yields the empty string: the body is [null]
    or a non-empty text, whatever the content object holds. *)
Theorem extractBody_nonempty (messageContent : option IMessage) :
  extractBody messageContent = None \/
  truthy (extractBody messageContent) = true.
Proof.
  destruct (extractBody messageContent) as [b|] eqn:E; [right|now left].
  cbn. destruct (String.eqb_spec b "") as [->|N]; [|reflexivity].
  now apply extractBody_some in E.
Qed.

(* ------------------------------------------------------------------ *)
(** ** Rows are only added, and keys stay unique *)

Section Keeps.

Variable R : Store -> Store -> Prop.
Hypothesis R_refl : forall s, R s s.
Hypothesis R_trans : forall a b c, R a b -> R b c -> R a c.

Lemma keeps_ret {A} (a : A) : keeps R (ret a).
Proof. intros env w. apply R_refl. Qed.

Lemma keeps_throw {A} (e : Exn) : keeps R (throw (A:=A) e).
Proof. intros env w. apply R_refl. Qed.

Lemma keeps_log lvl fields msg : keeps R (log lvl fields msg).
Proof. intros env w. apply R_refl. Qed.

Lemma keeps_get_now : keeps R get_now.
Proof. intros env w. apply R_refl. Qed.

Lemma keeps_bind {A B} (m : M A) (k : A -> M B) :
  keeps R m -> (forall a, keeps R (k a)) -> keeps R (bind m k).
Proof.
  intros Hm Hk env w. unfold bind. specialize (Hm env w).
  destruct (m env w) as [[a|e] w1]; cbn in *.
  - eapply R_trans; [exact Hm|apply Hk].
  - exact Hm.
Qed.

Lemma keeps_try_catch {A} (m : M A) (h : Exn -> M A) :
  keeps R m -> (forall e, keeps R (h e)) -> keeps R (try_catch m h).
Proof.
  intros Hm Hh env w. unfold try_catch. specialize (Hm env w).
  destruct (m env w) as [[a|e] w1]; cbn in *.
  - exact Hm.
  - eapply R_trans; [exact Hm|apply Hh].
Qed.

Lemma keeps_query {A} in_tx op (run : Store -> A * Store) :
  (forall s, R s (snd (run s))) -> keeps R (query in_tx op run).
Proof.
  intros Hrun env w. unfold query.
  destruct (db_fails env op); cbn.
  - apply R_refl.
  - specialize (Hrun (store w)).
    destruct (run (store w)) as [a s']. exact Hrun.
Qed.

Lemma keeps_when b (m : M unit) : keeps R m -> keeps R (when b m).
Proof. intros Hm. destruct b; [exact Hm|apply keeps_ret]. Qed.

Lemma keeps_for_of {A} (xs : list A) (body : A -> M unit) :
  (forall x, keeps R (body x)) -> keeps R (for_of xs body).
Proof.
  intros Hb. induction xs as [|x xs IH]; cbn.
  - apply keeps_ret.
  - apply keeps_bind; [apply Hb|intros _; exact IH].
Qed.

Lemma keeps_counting {A} (body : A -> nat -> M nat) xs n :
  (forall x k, keeps R (body x k)) ->
  keeps R (HistoryHandler.counting body xs n).
Proof.
  intros Hb. revert n. induction xs as [|x xs IH]; intros n; cbn.
  - apply keeps_ret.
  - apply keeps_bind; [apply Hb|intros k; apply IH].
Qed.

End Keeps.

(** Walks a handler down to its model operations. *)
Ltac keeps_walk Hrefl Htrans op_tac :=
  repeat match goal with
  | |- keeps _ (bind _ _) => apply (keeps_bind _ Htrans); [|intros ?]
  | |- keeps _ (ret _) => apply (keeps_ret _ Hrefl)
  | |- keeps _ (throw _) => apply (keeps_throw _ Hrefl)
  | |- keeps _ (log _ _ _) => apply (keeps_log _ Hrefl)
  | |- keeps _ get_now => apply (keeps_get_now _ Hrefl)
  | |- keeps _ (try_catch _ _) =>
      apply (keeps_try_catch _ Htrans); [|intros ?]
  | |- keeps _ (when _ _) => apply (keeps_when _ Hrefl)
  | |- keeps _ (for_of _ _) => apply (keeps_for_of _ Hrefl Htrans); intros ?
  | |- keeps _ (if ?b then _ else _) => destruct b
  | |- keeps _ (match ?x with _ => _ end) => destruct x
  | |- keeps _ _ => op_tac
  end.

(* ---------------- grows ---------------- *)

Lemma extends_refl {A} (l : list A) : extends l l.
Proof. exists []. now rewrite app_nil_r. Qed.

Lemma extends_trans {A} (a b c : list A) :
  extends a b -> extends b c -> extends a c.
Proof. intros (x & ->) (y & ->). exists (x ++ y). now rewrite app_assoc. Qed.

Lemma extends_snoc {A} (l : list A) x : extends l (l ++ [x]).
Proof. now exists [x]. Qed.

Lemma extends_map_snoc {A B} (f : A -> B) l x :
  extends (map f l) (map f (l ++ [x])).
Proof. exists [f x]. now rewrite map_app. Qed.

Lemma map_map_same {A B} (f : A -> B) (h : A -> A) l :
  (forall r, f (h r) = f r) -> map f (map h l) = map f l.
Proof. intros H. rewrite map_map. apply map_ext. exact H. Qed.

Lemma grows_refl s : grows s s.
Proof. repeat split; apply extends_refl. Qed.

Lemma grows_trans a b c : grows a b -> grows b c -> grows a c.
Proof.
  intros (A1 & A2 & A3 & A4) (B1 & B2 & B3 & B4).
  repeat split; eapply extends_trans; eassumption.
Qed.

Ltac grows_leaf :=
  repeat split; cbn;
  try apply extends_refl;
  try apply extends_snoc;
  try apply extends_map_snoc;
  try (rewrite map_map_same; [apply extends_refl|];
       intros r;
       repeat match goal with
              | |- context [if ?b then _ else _] => destruct b
              end; reflexivity).

Lemma grows_Chat_findOrCreate in_tx jid ty name :
  keeps grows (Chat.findOrCreate in_tx jid ty name).
Proof.
  apply (keeps_query _ grows_refl). intros s.
  destruct (Chat.lookup jid s); grows_leaf.
Qed.

Lemma grows_Chat_findOne in_tx jid : keeps grows (Chat.findOne in_tx jid).
Proof. apply (keeps_query _ grows_refl). intros s. grows_leaf. Qed.

Lemma grows_Chat_update in_tx chat c : keeps grows (Chat.update in_tx chat c).
Proof. apply (keeps_query _ grows_refl). intros s. grows_leaf. Qed.

Lemma grows_Contact_findOrCreate in_tx cid n a st :
  keeps grows (Contact.findOrCreate in_tx cid n a st).
Proof.
  apply (keeps_query _ grows_refl). intros s.
  destruct (Contact.lookup cid s); grows_leaf.
Qed.

Lemma grows_Contact_update in_tx contact c :
  keeps grows (Contact.update in_tx contact c).
Proof. apply (keeps_query _ grows_refl). intros s. grows_leaf. Qed.

Lemma grows_Message_findOne mid : keeps grows (Message.findOne mid).
Proof. apply (keeps_query _ grows_refl). intros s. grows_leaf. Qed.

Lemma grows_Message_findOrCreate d : keeps grows (Message.findOrCreate d).
Proof.
  apply (keeps_query _ grows_refl). intros s.
  destruct (Message.lookup (message_id d) s); [grows_leaf|].
  unfold Message.insert. grows_leaf.
  rewrite map_map_same; [apply extends_refl|].
  intros r. unfold Message.update_chat_last_message.
  now destruct (chat_pk r =? msg_chat_id d)%nat.
Qed.

Lemma grows_GroupMetadata_findOrCreate chat c :
  keeps grows (GroupMetadata.findOrCreate chat c).
Proof.
  apply (keeps_query _ grows_refl). intros s.
  destruct (GroupMetadata.lookup chat s); grows_leaf.
Qed.

Lemma grows_GroupMetadata_update g c :
  keeps grows (GroupMetadata.update g c).
Proof. apply (keeps_query _ grows_refl). intros s. grows_leaf. Qed.

Ltac grows_op :=
  first [ apply grows_Chat_findOrCreate | apply grows_Chat_findOne
        | apply grows_Chat_update | apply grows_Contact_findOrCreate
        | apply grows_Contact_update | apply grows_Message_findOne
        | apply grows_Message_findOrCreate
        | apply grows_GroupMetadata_findOrCreate
        | apply grows_GroupMetadata_update ].

Lemma grows_processMessage msg : keeps grows (MessageHandler.processMessage msg).
Proof.
  unfold MessageHandler.processMessage.
  keeps_walk grows_refl grows_trans grows_op.
Qed.

Lemma grows_handleUpsert ms type :
  keeps grows (MessageHandler.handleUpsert ms type).
Proof.
  unfold MessageHandler.handleUpsert, MessageHandler.guarded,
    MessageHandler.on_error.
  keeps_walk grows_refl grows_trans ltac:(apply grows_processMessage).
Qed.

Lemma grows_chat_handleUpdate us : keeps grows (ChatHandler.handleUpdate us).
Proof.
  unfold ChatHandler.handleUpdate, ChatHandler.guarded,
    ChatHandler.processUpdate.
  keeps_walk grows_refl grows_trans grows_op.
Qed.

Lemma grows_contact_handleUpdate us :
  keeps grows (ContactHandler.handleUpdate us).
Proof.
  unfold ContactHandler.handleUpdate, ContactHandler.guarded,
    ContactHandler.processUpdate.
  keeps_walk grows_refl grows_trans grows_op.
Qed.

Lemma grows_handleGroupUpdate us :
  keeps grows (GroupHandler.handleGroupUpdate us).
Proof.
  unfold GroupHandler.handleGroupUpdate, GroupHandler.guarded,
    GroupHandler.processUpdate.
  keeps_walk grows_refl grows_trans grows_op.
Qed.

(* ---------------- unique keys ---------------- *)

Lemma keeps_unique_refl s : keeps_unique s s.
Proof. exact (fun H => H). Qed.

Lemma keeps_unique_trans a b c :
  keeps_unique a b -> keeps_unique b c -> keeps_unique a c.
Proof. unfold keeps_unique. auto. Qed.

Lemma find_none_not_in {A} (key : A -> string) k (l : list A) :
  find (fun r => key r =? k) l = None -> ~ In k (map key l).
Proof.
  induction l as [|r l IH]; cbn; [tauto|].
  destruct (String.eqb_spec (key r) k) as [E|N]; [discriminate|].
  intros H [E|Hin]; [contradiction|]. now apply IH.
Qed.

Lemma find_none_not_in_nat {A} (key : A -> nat) k (l : list A) :
  find (fun r => (key r =? k)%nat) l = None -> ~ In k (map key l).
Proof.
  induction l as [|r l IH]; cbn; [tauto|].
  destruct (Nat.eqb_spec (key r) k) as [E|N]; [discriminate|].
  intros H [E|Hin]; [contradiction|]. now apply IH.
Qed.

Lemma NoDup_snoc {A} (l : list A) x : NoDup l -> ~ In x l -> NoDup (l ++ [x]).
Proof.
  intros Hl Hx. apply NoDup_app; [exact Hl|repeat constructor; tauto|].
  intros a Ha [<-|[]]. contradiction.
Qed.

Lemma NoDup_map_snoc {A B} (f : A -> B) l x :
  NoDup (map f l) -> ~ In (f x) (map f l) -> NoDup (map f (l ++ [x])).
Proof. intros Hl Hx. rewrite map_app. now apply NoDup_snoc. Qed.

Lemma NoDup_map_same {A B} (f : A -> B) (h : A -> A) l :
  (forall r, f (h r) = f r) -> NoDup (map f l) -> NoDup (map f (map h l)).
Proof. intros H Hl. now rewrite map_map_same. Qed.

Ltac same_key :=
  intros ?;
  repeat match goal with
         | |- context [if ?b then _ else _] => destruct b
         end; reflexivity.

Lemma unique_Chat_findOrCreate in_tx jid ty name :
  keeps keeps_unique (Chat.findOrCreate in_tx jid ty name).
Proof.
  apply (keeps_query _ keeps_unique_refl). intros s.
  destruct (Chat.lookup jid s) eqn:E; [exact (fun H => H)|].
  intros (H1 & H2 & H3 & H4). repeat split; cbn; try assumption.
  apply NoDup_map_snoc; [exact H2|]. now apply find_none_not_in.
Qed.

Lemma unique_Chat_findOne in_tx jid :
  keeps keeps_unique (Chat.findOne in_tx jid).
Proof. apply (keeps_query _ keeps_unique_refl). intros s H. exact H. Qed.

Lemma unique_Chat_update in_tx chat c :
  keeps keeps_unique (Chat.update in_tx chat c).
Proof.
  apply (keeps_query _ keeps_unique_refl).
  intros s (H1 & H2 & H3 & H4). repeat split; cbn; try assumption.
  apply NoDup_map_same; [same_key|exact H2].
Qed.

Lemma unique_Contact_findOrCreate in_tx cid n a st :
  keeps keeps_unique (Contact.findOrCreate in_tx cid n a st).
Proof.
  apply (keeps_query _ keeps_unique_refl). intros s.
  destruct (Contact.lookup cid s) eqn:E; [exact (fun H => H)|].
  intros (H1 & H2 & H3 & H4). repeat split; cbn; try assumption.
  apply NoDup_map_snoc; [exact H3|]. now apply find_none_not_in.
Qed.

Lemma unique_Contact_update in_tx contact c :
  keeps keeps_unique (Contact.update in_tx contact c).
Proof.
  apply (keeps_query _ keeps_unique_refl).
  intros s (H1 & H2 & H3 & H4). repeat split; cbn; try assumption.
  apply NoDup_map_same; [same_key|exact H3].
Qed.

Lemma unique_Message_findOne mid : keeps keeps_unique (Message.findOne mid).
Proof. apply (keeps_query _ keeps_unique_refl). intros s H. exact H. Qed.

Lemma unique_Message_findOrCreate d :
  keeps keeps_unique (Message.findOrCreate d).
Proof.
  apply (keeps_query _ keeps_unique_refl). intros s.
  destruct (Message.lookup (message_id d) s) eqn:E; [exact (fun H => H)|].
  intros (H1 & H2 & H3 & H4). unfold Message.insert.
  repeat split; cbn; try assumption.
  - apply (NoDup_map_snoc (fun r => message_id (attrs r)));
      [exact H1|].
    now apply (find_none_not_in (fun r => message_id (attrs r))).
  - apply NoDup_map_same; [|exact H2].
    intros r. unfold Message.update_chat_last_message.
    now destruct (chat_pk r =? msg_chat_id d)%nat.
Qed.

Lemma unique_GroupMetadata_findOrCreate chat c :
  keeps keeps_unique (GroupMetadata.findOrCreate chat c).
Proof.
  apply (keeps_query _ keeps_unique_refl). intros s.
  destruct (GroupMetadata.lookup chat s) eqn:E; [exact (fun H => H)|].
  intros (H1 & H2 & H3 & H4). repeat split; cbn; try assumption.
  apply NoDup_map_snoc; [exact H4|]. now apply find_none_not_in_nat.
Qed.

Lemma unique_GroupMetadata_update g c :
  keeps keeps_unique (GroupMetadata.update g c).
Proof.
  apply (keeps_query _ keeps_unique_refl).
  intros s (H1 & H2 & H3 & H4). repeat split; cbn; try assumption.
  apply NoDup_map_same; [same_key|exact H4].
Qed.

Ltac unique_op :=
  first [ apply unique_Chat_findOrCreate | apply unique_Chat_findOne
        | apply unique_Chat_update | apply unique_Contact_findOrCreate
        | apply unique_Contact_update | apply unique_Message_findOne
        | apply unique_Message_findOrCreate
        | apply unique_GroupMetadata_findOrCreate
        | apply unique_GroupMetadata_update ].

Lemma unique_processMessage msg :
  keeps keeps_unique (MessageHandler.processMessage msg).
Proof.
  unfold MessageHandler.processMessage.
  keeps_walk keeps_unique_refl keeps_unique_trans unique_op.
Qed.

Lemma unique_handleUpsert ms type :
  keeps keeps_unique (MessageHandler.handleUpsert ms type).
Proof.
  unfold MessageHandler.handleUpsert, MessageHandler.guarded,
    MessageHandler.on_error.
  keeps_walk keeps_unique_refl keeps_unique_trans
             ltac:(apply unique_processMessage).
Qed.

Lemma unique_chat_handleUpdate us :
  keeps keeps_unique (ChatHandler.handleUpdate us).
Proof.
  unfold ChatHandler.handleUpdate, ChatHandler.guarded,
    ChatHandler.processUpdate.
  keeps_walk keeps_unique_refl keeps_unique_trans unique_op.
Qed.

Lemma unique_contact_handleUpdate us :
  keeps keeps_unique (ContactHandler.handleUpdate us).
Proof.
  unfold ContactHandler.handleUpdate, ContactHandler.guarded,
    ContactHandler.processUpdate.
  keeps_walk keeps_unique_refl keeps_unique_trans unique_op.
Qed.

Lemma unique_handleGroupUpdate us :
  keeps keeps_unique (GroupHandler.handleGroupUpdate us).
Proof.
  unfold GroupHandler.handleGroupUpdate, GroupHandler.guarded,
    GroupHandler.processUpdate.
  keeps_walk keeps_unique_refl keeps_unique_trans unique_op.
Qed.

(* ---------------- the history handler, for any kept relation ------------- *)

Section KeepsHistory.

Variable R : Store -> Store -> Prop.
Hypothesis R_refl : forall s, R s s.
Hypothesis R_trans : forall a b c, R a b -> R b c -> R a c.
Hypothesis R_chat : forall c n, keeps R (HistoryHandler.processChat c n).
Hypothesis R_contact :
  forall c n, keeps R (HistoryHandler.processContact c n).
Hypothesis R_upsert :
  forall ms type, keeps R (MessageHandler.handleUpsert ms type).

Lemma keeps_message_loop fuel ms i p :
  keeps R (HistoryHandler.message_loop fuel ms i p).
Proof.
  revert i p. induction fuel as [|fuel IH]; intros i p;
    cbn [HistoryHandler.message_loop].
  - apply (keeps_ret _ R_refl).
  - destruct (i <? length ms)%nat; [|apply (keeps_ret _ R_refl)].
    apply (keeps_bind _ R_trans); [apply R_upsert|intros _].
    apply (keeps_bind _ R_trans); [|intros _; apply IH].
    apply (keeps_when _ R_refl), (keeps_log _ R_refl).
Qed.

(** What the transaction leaves of a batch: the store [R]-related to the
    one before, whether the batch is committed or rolled back. *)
Lemma keeps_handleHistorySet ms cs ks isLatest :
  keeps R (HistoryHandler.handleHistorySet ms cs ks isLatest).
Proof.
  intros env w.
  change (wp (HistoryHandler.handleHistorySet ms cs ks isLatest) env w
             (fun _ w' => R (store w) (store w'))).
  unfold HistoryHandler.handleHistorySet.
  apply wp_bind, wp_log.
  apply wp_bind, wp_begin; intros _; [apply R_refl|].
  set (w0 := with_tx _ _).
  assert (Htx0 : tx w0 = Some (store w)) by reflexivity.
  assert (Hst0 : store w0 = store w) by reflexivity.
  clearbody w0.
  assert (Hcatch : forall e w1,
            R (store w) (store w1) -> tx w1 = Some (store w) ->
            wp (Transaction.rollback ;;
                log error [("err", VErr e)]
                    "Failed to process history sync batch" ;;
                throw (A:=unit) e) env w1
               (fun _ w' => R (store w) (store w'))).
  { intros e w1 HR Htx.
    eapply wp_conseq; [apply (rollback_handler env w1 e (store w) Htx)|].
    intros r w' (_ & _ & [-> | ->]); [apply R_refl|exact HR]. }
  apply wp_try_catch, wp_bind.
  pose proof (counting_step HistoryHandler.processChat env
                (processChat_step env) cs 0 w0) as Hm1.
  pose proof (keeps_counting R R_refl R_trans HistoryHandler.processChat
                cs 0 R_chat env w0) as Hk1.
  unfold wp in *.
  destruct (HistoryHandler.counting HistoryHandler.processChat cs 0 env w0)
    as [[n1|e] w1]; cbn [fst snd] in *;
    destruct Hm1 as (_ & _ & Htx1); rewrite Hst0 in Hk1.
  2: { apply Hcatch; [exact Hk1|congruence]. }
  apply wp_bind.
  pose proof (counting_step HistoryHandler.processContact env
                (processContact_step env) ks 0 w1) as Hm2.
  pose proof (keeps_counting R R_refl R_trans HistoryHandler.processContact
                ks 0 R_contact env w1) as Hk2.
  unfold wp in *.
  destruct (HistoryHandler.counting HistoryHandler.processContact ks 0
                                    env w1)
    as [[n2|e] w2]; cbn [fst snd] in *;
    destruct Hm2 as (_ & _ & Htx2);
    assert (HR2 : R (store w) (store w2)) by (eapply R_trans; eassumption).
  2: { apply Hcatch; [exact HR2|congruence]. }
  apply wp_bind.
  eapply (wp_commit env w2 (store w)); [congruence| |]; intros _.
  { apply (Hcatch (DbError TxCommit)); [exact HR2|cbn; congruence]. }
  apply wp_bind.
  set (w3 := with_tx None _).
  assert (HR3 : R (store w) (store w3)) by exact HR2.
  clearbody w3.
  pose proof (message_phase_step env ms w3) as Hm4.
  pose proof (keeps_message_loop (length ms) ms 0 0 env w3) as Hk4.
  unfold wp, HistoryHandler.message_phase in *.
  destruct (HistoryHandler.message_loop (length ms) ms 0 0 env w3)
    as [[n4|e] w4]; cbn [fst snd] in *;
    destruct Hm4 as ((n & Hn) & _); [|discriminate].
  assert (HR4 : R (store w) (store w4)) by (eapply R_trans; eassumption).
  apply wp_bind, wp_log. unfold when.
  destruct isLatest; [apply wp_log|apply wp_ret]; exact HR4.
Qed.

End KeepsHistory.

Lemma grows_processChat c n : keeps grows (HistoryHandler.processChat c n).
Proof.
  unfold HistoryHandler.processChat.
  keeps_walk grows_refl grows_trans grows_op.
Qed.

Lemma grows_processContact c n :
  keeps grows (HistoryHandler.processContact c n).
Proof.
  unfold HistoryHandler.processContact.
  keeps_walk grows_refl grows_trans grows_op.
Qed.

Lemma unique_processChat c n :
  keeps keeps_unique (HistoryHandler.processChat c n).
Proof.
  unfold HistoryHandler.processChat.
  keeps_walk keeps_unique_refl keeps_unique_trans unique_op.
Qed.

Lemma unique_processContact c n :
  keeps keeps_unique (HistoryHandler.processContact c n).
Proof.
  unfold HistoryHandler.processContact.
  keeps_walk keeps_unique_refl keeps_unique_trans unique_op.
Qed.

(** X4: no handler ever deletes or rewrites what identifies a row: after
    any run of the message, history, chat, contact or group handler, with
    any store failures, the messages table is the old one followed by new
    rows, and so are the row id, JID and type columns of the chats table,
    the row id and JID columns of the contacts table, and the row id and
    chat columns of the group metadata table. *)
Theorem handlers_only_add_rows (env : Env) (w : World) :
  (forall ms type,
     grows (store w)
           (store (snd (MessageHandler.handleUpsert ms type env w)))) /\
  (forall ms cs ks isLatest,
     grows (store w)
           (store (snd (HistoryHandler.handleHistorySet ms cs ks isLatest
                                                        env w)))) /\
  (forall us,
     grows (store w) (store (snd (ChatHandler.handleUpdate us env w)))) /\
  (forall us,
     grows (store w) (store (snd (ContactHandler.handleUpdate us env w)))) /\
  (forall us,
     grows (store w) (store (snd (GroupHandler.handleGroupUpdate us env w)))).
Proof.
  split; [|split; [|split; [|split]]]; intros.
  - apply grows_handleUpsert.
  - apply (keeps_handleHistorySet grows grows_refl grows_trans
             grows_processChat grows_processContact grows_handleUpsert).
  - apply grows_chat_handleUpdate.
  - apply grows_contact_handleUpdate.
  - apply grows_handleGroupUpdate.
Qed.

(** X5: the handlers keep the UNIQUE constraints of the schema: when no
    two messages share a message id, no two chats a chat id, no two
    contacts a contact id and no two metadata rows a chat, the same holds
    after any run of any of the five handlers, with any store failures. *)
Theorem handlers_keep_unique_keys (env : Env) (w : World) :
  unique_keys (store w) ->
  (forall ms type,
     unique_keys (store (snd (MessageHandler.handleUpsert ms type env w)))) /\
  (forall ms cs ks isLatest,
     unique_keys
       (store (snd (HistoryHandler.handleHistorySet ms cs ks isLatest
                                                    env w)))) /\
  (forall us,
     unique_keys (store (snd (ChatHandler.handleUpdate us env w)))) /\
  (forall us,
     unique_keys (store (snd (ContactHandler.handleUpdate us env w)))) /\
  (forall us,
     unique_keys (store (snd (GroupHandler.handleGroupUpdate us env w)))).
Proof.
  intros H. split; [|split; [|split; [|split]]]; intros.
  all: first
    [ now apply unique_handleUpsert
    | now apply (keeps_handleHistorySet keeps_unique keeps_unique_refl
                   keeps_unique_trans unique_processChat
                   unique_processContact unique_handleUpsert)
    | now apply unique_chat_handleUpdate
    | now apply unique_contact_handleUpdate
    | now apply unique_handleGroupUpdate ].
Qed.

Lemma handlers_keep_unique_keys_witness :
  unique_keys (store item1_stored) /\
  unique_keys
    (store (snd (MessageHandler.handleUpsert [item1; item2; item2] "notify"
                   schema_env item1_stored))).
Proof.
  assert (H0 : unique_keys (store initial_world))
    by (repeat split; constructor).
  pose proof (proj1 (handlers_keep_unique_keys schema_env initial_world H0)
                [item1] "notify") as H.
  split; [exact H|].
  exact (proj1 (handlers_keep_unique_keys schema_env item1_stored H) _ _).
Defined.

(* ------------------------------------------------------------------ *)
(** ** The first insertion of a message *)

Lemma chat_lookup_insert_update jid cs s' d chat c :
  find (fun r => chat_id r =? jid) cs = Some chat ->
  msg_chat_id d = chat_pk chat ->
  Chat.lookup jid
    (Chat.with_chats
       (map (fun r => if (chat_pk r =? chat_pk chat)%nat
                      then apply_chat_changes c r else r)
            (map (Message.update_chat_last_message d) cs)) s')
  = Some (apply_chat_changes c (Message.update_chat_last_message d chat)).
Proof.
  unfold Chat.lookup. cbn [chats Chat.with_chats]. intros H Hd.
  rewrite find_map.
  2: { intros r. now destruct (chat_pk r =? chat_pk chat)%nat. }
  rewrite find_map.
  2: { intros r. unfold Message.update_chat_last_message.
       now destruct (chat_pk r =? msg_chat_id d)%nat. }
  rewrite H. cbn [option_map].
  replace (chat_pk (Message.update_chat_last_message d chat))
    with (chat_pk chat).
  - now rewrite Nat.eqb_refl.
  - unfold Message.update_chat_last_message.
    now destruct (chat_pk chat =? msg_chat_id d)%nat.
Qed.

Lemma chat_find_new jid cs pk ty name :
  find (fun r => chat_id r =? jid) cs = None ->
  find (fun r => chat_id r =? jid) (cs ++ [Chat.new_row pk jid ty name])
  = Some (Chat.new_row pk jid ty name).
Proof.
  intros H. rewrite find_app, H. cbn. now rewrite String.eqb_refl.
Qed.

Lemma senderId_nonempty k :
  truthy (opt k remoteJid) = true ->
  (MessageHandler.senderId_of k =? "") = false.
Proof.
  unfold MessageHandler.senderId_of, or_str. intros H.
  destruct (truthy (opt k participant)) eqn:Hp.
  - destruct (opt k participant) as [p|]; cbn in *; [|discriminate].
    now destruct (p =? "").
  - rewrite H. destruct (opt k remoteJid) as [p|]; cbn in *; [|discriminate].
    now destruct (p =? "").
Qed.

Ltac served :=
  match goal with
  | H : db_fails _ _ = true, R : context [db_fails _ _ = false] |- _ =>
      rewrite R in H; discriminate H
  end.

Lemma processMessage_first env msg w :
  welcomed env msg ->
  Message.lookup (str (opt (key msg) id)) (store w) = None ->
  wp (MessageHandler.processMessage msg) env w
     (fun r w' => r = Ok tt /\ first_insertion env msg w w').
Proof.
  intros ((Hjid & Hid & Hproto & Hchat & Hcontact & Hone & Hins) & Hupd) Hnew.
  unfold MessageHandler.processMessage.
  rewrite Hjid, Hid, Hproto, (senderId_nonempty _ Hjid). cbn [negb orb].
  wp_run; try served.
  all: cbn [store emit with_store] in *.
  all: unfold Message.lookup, Contact.lookup in *;
       cbn [messages contacts Chat.with_chats Contact.with_contacts
            MessageHandler.defaults_of message_id] in *.
  all: try congruence.
  all: split; [reflexivity|].
  all: unfold first_insertion, owning_chat, resolved_quote.
  all: repeat match goal with
       | H : Chat.lookup _ _ = _ |- _ => rewrite H
       | H : MessageHandler.quotedStanzaId_of _ = _ |- _ => rewrite H
       end.
  all: unfold Message.lookup, Contact.lookup;
       cbn [store with_store emit Message.insert snd fst messages contacts
            chats Chat.with_chats Contact.with_contacts].
  all: split; [reflexivity|].
  all: split;
       [| rewrite ?find_app;
          destruct (find _ (contacts _));
          [discriminate
          |try discriminate; cbn; rewrite String.eqb_refl; discriminate] ].
  all: apply chat_lookup_insert_update; [|reflexivity].
  all: try assumption.
  all: now apply chat_find_new.
Qed.

Lemma guarded_of_ok env msg w :
  fst (MessageHandler.processMessage msg env w) = Ok tt ->
  snd (MessageHandler.guarded msg env w) =
  snd (MessageHandler.processMessage msg env w).
Proof.
  unfold MessageHandler.guarded, try_catch.
  destruct (MessageHandler.processMessage msg env w) as [[u|e] w1];
    cbn; [reflexivity|discriminate].
Qed.

Lemma handleUpsert_one env msg type w :
  snd (MessageHandler.handleUpsert [msg] type env w) =
  snd (MessageHandler.guarded msg env (emit (upsert_header 1 type) w)).
Proof. rewrite handleUpsert_unfold. now rewrite for_of_guarded_cons. Qed.

Lemma handleUpsert_first env msg type w :
  welcomed env msg ->
  Message.lookup (str (opt (key msg) id)) (store w) = None ->
  first_insertion env msg w
    (snd (MessageHandler.handleUpsert [msg] type env w)).
Proof.
  intros Hw Hnew. rewrite handleUpsert_one.
  pose proof (processMessage_first env msg (emit (upsert_header 1 type) w)
                Hw Hnew) as (Hok & H).
  rewrite (guarded_of_ok _ _ _ Hok). exact H.
Qed.

(** X6: a message that is accepted and not yet stored gets exactly one
    new row, appended to the messages table: the row is found under the
    message id, refers to the chat stored under the remote JID, carries the
    row id of the quoted message when that one is stored (and null
    otherwise) and the timestamp of the message (or the current time), and
    its sender has a contact row. *)
Theorem first_insertion_links_row
        (env : Env) (w : World) (msg : WebMessageInfo) (type : string) :
  welcomed env msg ->
  Message.lookup (str (opt (key msg) id)) (store w) = None ->
  let w' := snd (MessageHandler.handleUpsert [msg] type env w) in
  exists row chat,
    messages (store w') = messages (store w) ++ [row] /\
    Message.lookup (str (opt (key msg) id)) (store w') = Some row /\
    Chat.lookup (str (opt (key msg) remoteJid)) (store w') = Some chat /\
    msg_chat_id (attrs row) = chat_pk chat /\
    quoted_message_id (attrs row) = resolved_quote msg (store w) /\
    timestamp (attrs row) = extractTimestamp (now env) (messageTimestamp msg) /\
    Contact.lookup (sender_id (attrs row)) (store w') <> None.
Proof.
  intros Hw Hnew w'.
  destruct (handleUpsert_first env msg type w Hw Hnew) as (Hm & Hc & Hk).
  fold w' in Hm, Hc, Hk.
  eexists; eexists. split; [exact Hm|]. split.
  - unfold Message.lookup in *. rewrite Hm, find_app, Hnew. cbn.
    now rewrite String.eqb_refl.
  - split; [exact Hc|].
    unfold Message.update_chat_last_message.
    cbn [MessageHandler.defaults_of msg_chat_id attrs]. rewrite Nat.eqb_refl.
    split; [reflexivity|]. split; [reflexivity|]. split; [reflexivity|].
    exact Hk.
Qed.

Lemma first_insertion_links_row_witness :
  welcomed schema_env item2 /\
  Message.lookup "3EB0A2" (store item1_stored) = None /\
  let w' := snd (MessageHandler.handleUpsert [item2] "notify" schema_env
                   item1_stored) in
  exists row chat,
    messages (store w') = messages (store item1_stored) ++ [row] /\
    Message.lookup "3EB0A2" (store w') = Some row /\
    Chat.lookup alice (store w') = Some chat /\
    msg_chat_id (attrs row) = chat_pk chat /\
    quoted_message_id (attrs row) = resolved_quote item2 (store item1_stored) /\
    timestamp (attrs row) = 1700000000000%Z /\
    Contact.lookup (sender_id (attrs row)) (store w') <> None.
Proof.
  assert (Hw : welcomed schema_env item2).
  { split; [|reflexivity].
    pose proof items_accepted as H. inversion H as [|? ? _ H1]; subst.
    now inversion H1. }
  assert (Hl : Message.lookup (str (opt (key item2) id)) (store item1_stored)
               = None) by (vm_compute; reflexivity).
  split; [exact Hw|]. split; [exact Hl|].
  exact (first_insertion_links_row schema_env item1_stored item2 "notify"
           Hw Hl).
Defined.



Lemma processMessage_skipped env msg w :
  skipped msg = true ->
  wp (MessageHandler.processMessage msg) env w
     (fun r w' => r = Ok tt /\ store w' = store w /\
                  exists lvl fields text,
                    trace w' = trace w ++ [EvLog lvl fields text]).
Proof.
  unfold skipped, MessageHandler.processMessage. intros H.
  destruct (negb (truthy (opt (key msg) remoteJid)) ||
            negb (truthy (opt (key msg) id))); cbn in H.
  - apply wp_log. split; [reflexivity|]. split; [reflexivity|].
    now eexists _, _, _.
  - wp_step. wp_step. wp_step. wp_step. cbn beta iota zeta. rewrite H.
    apply wp_log. split; [reflexivity|]. split; [reflexivity|].
    now eexists _, _, _.
Qed.

(** X8: a batch of messages that all lack a remote JID or an id, or are
    protocol messages, is dropped without a single store request: the
    handler returns normally, the store is unchanged, and the trace grows
    by log lines only, one for the batch and one per message. *)
Theorem skipped_messages_reach_no_store
        (env : Env) (w : World) (ms : list WebMessageInfo) (type : string) :
  forallb skipped ms = true ->
  let (r, w') := MessageHandler.handleUpsert ms type env w in
  r = Ok tt /\ store w' = store w /\
  exists t, trace w' = trace w ++ t /\ forallb is_log t = true /\
            length t = S (length ms).
Proof.
  intros Hs.
  rewrite handleUpsert_unfold.
  set (w0 := emit _ w).
  assert (H : forall w1,
             fst (for_of ms MessageHandler.guarded env w1) = Ok tt /\
             store (snd (for_of ms MessageHandler.guarded env w1)) = store w1 /\
             exists t, trace (snd (for_of ms MessageHandler.guarded env w1))
                       = trace w1 ++ t /\
                       forallb is_log t = true /\ length t = length ms).
  { clear w0. induction ms as [|m ms IH]; intros w1.
    - cbn. split; [reflexivity|]. split; [reflexivity|].
      exists []. now rewrite app_nil_r.
    - cbn in Hs. apply andb_prop in Hs as [Hm Hs]. specialize (IH Hs).
      split; [apply for_of_guarded_ok|].
      rewrite for_of_guarded_cons.
      pose proof (processMessage_skipped env m w1 Hm)
        as (Hok & Hst & lvl & fs & text & Htr).
      rewrite (guarded_of_ok _ _ _ Hok).
      destruct (IH (snd (MessageHandler.processMessage m env w1)))
        as (_ & Hst' & t & Ht & Hlog & Hlen).
      split; [congruence|].
      exists (EvLog lvl fs text :: t).
      rewrite Ht, Htr, <- app_assoc. cbn. now rewrite Hlog, Hlen. }
  destruct (H w0) as (Hr & Hst & t & Ht & Hlog & Hlen).
  destruct (for_of ms MessageHandler.guarded env w0) as [r w']; cbn in *.
  split; [exact Hr|]. split; [exact Hst|].
  exists (upsert_header (length ms) type :: t).
  rewrite Ht. unfold w0. cbn. rewrite <- app_assoc. cbn.
  now rewrite Hlog, Hlen.
Qed.

Lemma skipped_messages_reach_no_store_witness :
  forallb skipped [keyless; protocol_note] = true /\
  let (r, w') := MessageHandler.handleUpsert [keyless; protocol_note]
                   "notify" calm_env item1_stored in
  r = Ok tt /\ store w' = store item1_stored /\
  exists t, trace w' = trace item1_stored ++ t /\ forallb is_log t = true /\
            length t = 3.
Proof.
  split; [reflexivity|].
  exact (skipped_messages_reach_no_store calm_env item1_stored
           [keyless; protocol_note] "notify" eq_refl).
Defined.

(* ------------------------------------------------------------------ *)
(** ** Redelivery *)

Lemma find_some_iff {A} (key : A -> string) k (l : list A) :
  find (fun r => key r =? k) l <> None <-> In k (map key l).
Proof.
  induction l as [|a l IH]; cbn.
  - split; [congruence|contradiction].
  - destruct (String.eqb_spec (key a) k) as [E|N].
    + split; [auto|discriminate].
    + rewrite IH. split; [auto|]. intros [E|H]; [contradiction|exact H].
Qed.

Lemma extends_in {A} (l l' : list A) x : extends l l' -> In x l -> In x l'.
Proof. intros [added ->] H. apply in_or_app. now left. Qed.

Lemma extends_map {A B} (f : A -> B) (l l' : list A) :
  extends l l' -> extends (map f l) (map f l').
Proof. intros [added ->]. exists (map f added). apply map_app. Qed.

Lemma extends_map_fst {A B C} (f : A -> B) (g : A -> C) (l l' : list A) :
  extends (map (fun r => (f r, g r)) l) (map (fun r => (f r, g r)) l') ->
  extends (map g l) (map g l').
Proof.
  intros H. apply (extends_map snd) in H. now rewrite !map_map in H.
Qed.

Lemma settled_grows msg s s' : grows s s' -> settled msg s -> settled msg s'.
Proof.
  intros (Hm & Hc & Hk & _) [Hs|(H1 & H2 & H3)]; [now left|right].
  unfold Chat.lookup, Contact.lookup, Message.lookup in *.
  rewrite (find_some_iff chat_id) in *.
  rewrite (find_some_iff contact_id) in *.
  rewrite (find_some_iff (fun r => message_id (attrs r))) in *.
  split; [|split].
  - apply (extends_map fst) in Hc. rewrite !map_map in Hc. cbn in Hc.
    apply (extends_map snd) in Hc. rewrite !map_map in Hc. cbn in Hc.
    eapply extends_in; eassumption.
  - apply (extends_map snd) in Hk. rewrite !map_map in Hk. cbn in Hk.
    eapply extends_in; eassumption.
  - apply (extends_map (fun r => message_id (attrs r))) in Hm.
    eapply extends_in; eassumption.
Qed.

Lemma find_some_in {A} (key : A -> string) k (l : list A) r :
  find (fun r => key r =? k) l = Some r -> In k (map key l).
Proof. intros H. apply find_some_iff. congruence. Qed.

Lemma in_map_snoc {A B} (key : A -> B) k (l : list A) x :
  In k (map key l) \/ key x = k -> In k (map key (l ++ [x])).
Proof.
  rewrite map_app. intros [H|H]; apply in_or_app; [now left|right; now left].
Qed.

Lemma chat_ids_insert_update d p c cs :
  map chat_id
    (map (fun r => if (chat_pk r =? p)%nat then apply_chat_changes c r else r)
         (map (Message.update_chat_last_message d) cs))
  = map chat_id cs.
Proof.
  rewrite !map_map. apply map_ext. intros r.
  unfold Message.update_chat_last_message.
  destruct (chat_pk r =? msg_chat_id d)%nat; cbn;
    now destruct (_ =? p)%nat.
Qed.

Ltac stored :=
  rewrite ?chat_ids_insert_update;
  first [ assumption
        | apply in_map_snoc; first [left; assumption | right; reflexivity] ].

Lemma processMessage_settles env msg w :
  welcomed env msg ->
  wp (MessageHandler.processMessage msg) env w
     (fun r w' => r = Ok tt /\ settled msg (store w')).
Proof.
  intros ((Hjid & Hid & Hproto & Hchat & Hcontact & Hone & Hins) & Hupd).
  unfold MessageHandler.processMessage.
  rewrite Hjid, Hid, Hproto, (senderId_nonempty _ Hjid). cbn [negb orb].
  wp_run; try served.
  all: split; [reflexivity|right].
  all: unfold Chat.lookup, Contact.lookup, Message.lookup in *.
  all: cbn [store emit with_store Message.insert snd fst messages contacts
            chats Chat.with_chats Contact.with_contacts
            MessageHandler.defaults_of message_id] in *.
  all: rewrite ?(find_some_iff chat_id), ?(find_some_iff contact_id),
         ?(find_some_iff (fun r => message_id (attrs r))).
  all: repeat match goal with
       | H : find _ _ = Some _ |- _ => apply find_some_in in H
       end.
  all: split; [stored|split; stored].
Qed.

Lemma processMessage_settled env msg w :
  skipped msg = true \/ welcomed env msg ->
  settled msg (store w) ->
  wp (MessageHandler.processMessage msg) env w
     (fun r w' => r = Ok tt /\ store w' = store w).
Proof.
  intros [Hs|Hw] Hset.
  { eapply wp_conseq; [apply (processMessage_skipped _ _ _ Hs)|].
    cbn. intros r w' (Hr & Hst & _). now split. }
  destruct Hw as ((Hjid & Hid & Hproto & Hchat & Hcontact & Hone & Hins)
                  & Hupd).
  destruct Hset as [Hs|(Hc & Hk & Hm)].
  { unfold skipped in Hs. now rewrite Hjid, Hid, Hproto in Hs. }
  unfold MessageHandler.processMessage.
  rewrite Hjid, Hid, Hproto, (senderId_nonempty _ Hjid). cbn [negb orb].
  wp_run; try served.
  all: cbn [store emit with_store] in *.
  all: try congruence.
  all: try now split.
Qed.

Lemma guarded_settles env msg w :
  skipped msg = true \/ welcomed env msg ->
  settled msg (store (snd (MessageHandler.guarded msg env w))).
Proof.
  intros [Hs|Hw]; [now left|].
  pose proof (processMessage_settles env msg w Hw) as (Hok & H).
  now rewrite (guarded_of_ok _ _ _ Hok).
Qed.

Lemma grows_guarded msg : keeps grows (MessageHandler.guarded msg).
Proof.
  apply (keeps_try_catch _ grows_trans).
  - apply grows_processMessage.
  - intros e. apply keeps_log, grows_refl.
Qed.

Lemma grows_for_of_guarded ms : keeps grows (for_of ms MessageHandler.guarded).
Proof.
  apply (keeps_for_of _ grows_refl grows_trans). intros m.
  apply grows_guarded.
Qed.

Lemma for_of_guarded_settles env ms w :
  Forall (deliverable env) ms ->
  Forall (fun m => settled m (store (snd (for_of ms MessageHandler.guarded
                                                 env w)))) ms.
Proof.
  revert w. induction ms as [|m ms IH]; intros w H; [constructor|].
  inversion H as [|? ? Hm Hms]; subst.
  rewrite for_of_guarded_cons. constructor; [|now apply IH].
  eapply settled_grows; [apply grows_for_of_guarded|].
  now apply guarded_settles.
Qed.

Lemma for_of_guarded_settled env ms w :
  Forall (deliverable env) ms ->
  Forall (fun m => settled m (store w)) ms ->
  store (snd (for_of ms MessageHandler.guarded env w)) = store w.
Proof.
  revert w. induction ms as [|m ms IH]; intros w H Hs; [reflexivity|].
  inversion H as [|? ? Hm Hms]; subst.
  inversion Hs as [|? ? Hsm Hsms]; subst.
  rewrite for_of_guarded_cons.
  pose proof (processMessage_settled env m w Hm Hsm) as (Hok & Hst).
  rewrite (guarded_of_ok _ _ _ Hok).
  rewrite IH; [exact Hst|exact Hms|now rewrite Hst].
Qed.

(** X9: delivering a batch a second time, under any event type, leaves
    the store exactly as the first delivery left it, when every message of
    the batch is either dropped by the guards or accepted by the store. *)
Theorem redelivery_changes_nothing
        (env : Env) (w : World) (ms : list WebMessageInfo)
        (type type' : string) :
  Forall (deliverable env) ms ->
  let w1 := snd (MessageHandler.handleUpsert ms type env w) in
  store (snd (MessageHandler.handleUpsert ms type' env w1)) = store w1.
Proof.
  intros H w1. rewrite handleUpsert_unfold.
  rewrite for_of_guarded_settled; [reflexivity|exact H|].
  cbn [store emit]. unfold w1. rewrite handleUpsert_unfold.
  now apply for_of_guarded_settles.
Qed.

Lemma redelivery_changes_nothing_witness :
  Forall (deliverable schema_env) [item1; item2; item4; item5] /\
  let w1 := snd (MessageHandler.handleUpsert [item1; item2; item4; item5]
                   "notify" schema_env initial_world) in
  store (snd (MessageHandler.handleUpsert [item1; item2; item4; item5]
                "append" schema_env w1)) = store w1.
Proof.
  assert (H : Forall (deliverable schema_env) [item1; item2; item4; item5]).
  { repeat constructor; right; split;
      try (repeat split; intros; vm_compute; reflexivity). }
  split; [exact H|].
  exact (redelivery_changes_nothing schema_env initial_world _ _ _ H).
Defined.

(* ------------------------------------------------------------------ *)
(** ** Shape of stored rows and message counters *)

(* ---------------- well-formed rows ---------------- *)

Lemma keeps_well_formed_refl s : keeps_well_formed s s.
Proof. now intros H. Qed.

Lemma keeps_well_formed_trans a b c :
  keeps_well_formed a b -> keeps_well_formed b c -> keeps_well_formed a c.
Proof. unfold keeps_well_formed. auto. Qed.

Lemma defaults_well_formed msg pk t q :
  skipped msg = false ->
  well_formed (MessageHandler.defaults_of msg pk t q).
Proof.
  unfold skipped. intros H.
  apply orb_false_elim in H as [H Hp]. apply orb_false_elim in H as [Hj Hi].
  apply negb_false_iff in Hj, Hi.
  unfold well_formed. cbn.
  split.
  { destruct (opt (key msg) id) as [i|]; cbn in *; [|discriminate].
    intros ->. discriminate. }
  split.
  { intros E. pose proof (senderId_nonempty _ Hj) as N. rewrite E in N.
    discriminate. }
  split; [apply resolveMessageType_valid|].
  split; [intros E; rewrite E in Hp; discriminate|].
  split; [intros E; now apply extractBody_some in E|].
  split; reflexivity.
Qed.

Lemma well_formed_same_messages {A} in_tx op (run : Store -> A * Store) :
  (forall s, messages (snd (run s)) = messages s) ->
  keeps keeps_well_formed (query in_tx op run).
Proof.
  intros H. apply (keeps_query _ keeps_well_formed_refl).
  intros s. unfold keeps_well_formed, rows_well_formed. now rewrite H.
Qed.

Lemma well_formed_Message_findOrCreate d :
  well_formed d -> keeps keeps_well_formed (Message.findOrCreate d).
Proof.
  intros Hd. apply (keeps_query _ keeps_well_formed_refl). intros s.
  destruct (Message.lookup (message_id d) s); [now intros H|].
  cbn. unfold keeps_well_formed, rows_well_formed. cbn. intros H.
  apply Forall_app. split; [exact H|]. now constructor.
Qed.

Ltac same_messages :=
  apply well_formed_same_messages; intros ?;
  repeat match goal with
  | |- context [match ?x with _ => _ end] => destruct x
  end; reflexivity.

Ltac well_formed_op :=
  first [ unfold Chat.findOrCreate, Chat.findOne, Chat.update,
            Contact.findOrCreate, Contact.update, Message.findOne,
            GroupMetadata.findOrCreate, GroupMetadata.update;
          same_messages ].

Lemma well_formed_processMessage msg :
  keeps keeps_well_formed (MessageHandler.processMessage msg).
Proof.
  unfold MessageHandler.processMessage.
  destruct (negb (truthy (opt (key msg) remoteJid)) ||
            negb (truthy (opt (key msg) id))) eqn:Hk.
  { apply (keeps_log _ keeps_well_formed_refl). }
  apply (keeps_bind _ keeps_well_formed_trans); [|intros t].
  { keeps_walk keeps_well_formed_refl keeps_well_formed_trans idtac. }
  destruct (resolveMessageType (message msg) =? "protocol") eqn:Hp.
  { apply (keeps_log _ keeps_well_formed_refl). }
  assert (Hs : skipped msg = false) by (unfold skipped; now rewrite Hk, Hp).
  keeps_walk keeps_well_formed_refl keeps_well_formed_trans
    ltac:(first [ apply well_formed_Message_findOrCreate;
                  now apply defaults_well_formed
                | well_formed_op ]).
Qed.

Lemma well_formed_handleUpsert ms type :
  keeps keeps_well_formed (MessageHandler.handleUpsert ms type).
Proof.
  unfold MessageHandler.handleUpsert, MessageHandler.guarded,
    MessageHandler.on_error.
  keeps_walk keeps_well_formed_refl keeps_well_formed_trans
    ltac:(apply well_formed_processMessage).
Qed.

Lemma well_formed_processChat c n :
  keeps keeps_well_formed (HistoryHandler.processChat c n).
Proof.
  unfold HistoryHandler.processChat.
  keeps_walk keeps_well_formed_refl keeps_well_formed_trans well_formed_op.
Qed.

Lemma well_formed_processContact c n :
  keeps keeps_well_formed (HistoryHandler.processContact c n).
Proof.
  unfold HistoryHandler.processContact.
  keeps_walk keeps_well_formed_refl keeps_well_formed_trans well_formed_op.
Qed.

(** X10: every row the pipeline writes has a non-empty message id and
    sender id, a type the CHECK constraint admits and that is not
    "protocol", a body that is not the empty string, the media flag of its
    type, and a caption that is the body for media and null otherwise; a
    messages table of such rows stays one through any run of the message
    or history handler. *)
Theorem stored_rows_stay_well_formed (env : Env) (w : World) :
  rows_well_formed (store w) ->
  (forall ms type,
     rows_well_formed
       (store (snd (MessageHandler.handleUpsert ms type env w)))) /\
  (forall ms cs ks isLatest,
     rows_well_formed
       (store (snd (HistoryHandler.handleHistorySet ms cs ks isLatest
                      env w)))).
Proof.
  intros H. split.
  - intros ms type. now apply (well_formed_handleUpsert ms type env w).
  - intros ms cs ks isLatest.
    now apply (keeps_handleHistorySet keeps_well_formed
                 keeps_well_formed_refl keeps_well_formed_trans
                 well_formed_processChat well_formed_processContact
                 well_formed_handleUpsert ms cs ks isLatest env w).
Qed.

Lemma stored_rows_stay_well_formed_witness :
  rows_well_formed (store item1_stored) /\
  rows_well_formed
    (store (snd (HistoryHandler.handleHistorySet batch_messages batch_chats
                   batch_contacts true schema_env item1_stored))).
Proof.
  assert (H0 : rows_well_formed (store initial_world)) by constructor.
  pose proof (proj1 (stored_rows_stay_well_formed schema_env initial_world H0)
                [item1] "notify") as H.
  split; [exact H|].
  exact (proj2 (stored_rows_stay_well_formed schema_env item1_stored H)
           _ _ _ _).
Defined.

(* ---------------- counters and references ---------------- *)

Lemma keeps_consistent_refl s : keeps_consistent s s.
Proof. now intros H. Qed.

Lemma keeps_consistent_trans a b c :
  keeps_consistent a b -> keeps_consistent b c -> keeps_consistent a c.
Proof. unfold keeps_consistent. auto. Qed.

Lemma consistent_with_contacts cs s :
  consistent s -> consistent (Contact.with_contacts cs s).
Proof. exact (fun H => H). Qed.

Lemma consistent_with_groups gs s :
  consistent s -> consistent (GroupMetadata.with_groups gs s).
Proof. exact (fun H => H). Qed.

Lemma consistent_chat_update p c s :
  consistent s ->
  consistent
    (Chat.with_chats
       (map (fun r => if (chat_pk r =? p)%nat
                      then apply_chat_changes c r else r) (chats s)) s).
Proof.
  intros (Href & Hcnt). split; cbn [chats messages Chat.with_chats].
  - intros m Hm. rewrite map_map.
    rewrite (map_ext _ chat_pk); [now apply Href|].
    intros r. now destruct (chat_pk r =? p)%nat.
  - intros c' Hc'. apply in_map_iff in Hc' as (r & <- & Hr).
    specialize (Hcnt r Hr). unfold messages_of in *.
    cbn [messages Chat.with_chats].
    now destruct (chat_pk r =? p)%nat.
Qed.

Lemma list_max_ge l n : In n l -> n <= list_max l.
Proof.
  intros H.
  pose proof (proj1 (list_max_le l (list_max l)) (le_n _)) as F.
  rewrite Forall_forall in F. now apply F.
Qed.

Lemma filter_none {A} (f : A -> bool) l :
  (forall x, In x l -> f x = false) -> filter f l = [].
Proof.
  induction l as [|a l IH]; cbn; [reflexivity|]. intros H.
  rewrite (H a (or_introl eq_refl)). apply IH. auto.
Qed.

Lemma consistent_new_chat jid ty name s :
  consistent s ->
  consistent
    (Chat.with_chats
       (chats s ++ [Chat.new_row (next_pk chat_pk (chats s)) jid ty name]) s).
Proof.
  intros (Href & Hcnt). split; cbn [chats messages Chat.with_chats].
  - intros m Hm. rewrite map_app. apply in_or_app. left. now apply Href.
  - intros c Hc. unfold messages_of. cbn [messages Chat.with_chats].
    apply in_app_or in Hc as [Hc|[<-|[]]]; [now apply Hcnt|].
    cbn [Chat.new_row total_message_count chat_pk].
    replace (filter _ (messages s)) with (@nil MessageRow); [reflexivity|].
    symmetry. apply filter_none. intros m Hm. apply Nat.eqb_neq.
    specialize (Href m Hm). apply list_max_ge in Href.
    unfold next_pk. lia.
Qed.

Lemma consistent_insert d s :
  consistent s ->
  In (msg_chat_id d) (map chat_pk (chats s)) ->
  consistent (snd (Message.insert d s)).
Proof.
  intros (Href & Hcnt) Hd. split; cbn [Message.insert snd chats messages].
  - intros m Hm. rewrite map_map.
    rewrite (map_ext _ chat_pk).
    2: { intros r. unfold Message.update_chat_last_message.
         now destruct (chat_pk r =? msg_chat_id d)%nat. }
    apply in_app_or in Hm as [Hm|[<-|[]]]; [now apply Href|exact Hd].
  - intros c' Hc'. apply in_map_iff in Hc' as (r & <- & Hr).
    specialize (Hcnt r Hr). unfold messages_of in *.
    cbn [Message.insert snd messages]. rewrite filter_app, length_app.
    unfold Message.update_chat_last_message.
    destruct (chat_pk r =? msg_chat_id d)%nat eqn:E;
      cbn [chat_pk total_message_count filter attrs].
    + rewrite Nat.eqb_sym, E. cbn [length]. lia.
    + rewrite Nat.eqb_sym, E. cbn [length]. lia.
Qed.

Lemma consistent_same {A} in_tx op (run : Store -> A * Store) :
  (forall s, chats (snd (run s)) = chats s /\
             messages (snd (run s)) = messages s) ->
  keeps keeps_consistent (query in_tx op run).
Proof.
  intros H. apply (keeps_query _ keeps_consistent_refl).
  intros s. destruct (H s) as (Hc & Hm).
  unfold keeps_consistent, consistent, messages_of. now rewrite Hc, Hm.
Qed.

Lemma consistent_Chat_findOrCreate in_tx jid ty name :
  keeps keeps_consistent (Chat.findOrCreate in_tx jid ty name).
Proof.
  apply (keeps_query _ keeps_consistent_refl). intros s.
  destruct (Chat.lookup jid s); [now intros H|].
  intros H. now apply consistent_new_chat.
Qed.

Lemma consistent_Chat_update in_tx chat c :
  keeps keeps_consistent (Chat.update in_tx chat c).
Proof.
  apply (keeps_query _ keeps_consistent_refl). intros s H.
  now apply consistent_chat_update.
Qed.

Ltac consistent_op :=
  first [ apply consistent_Chat_findOrCreate
        | apply consistent_Chat_update
        | unfold Chat.findOne, Contact.findOrCreate, Contact.update,
            Message.findOne, GroupMetadata.findOrCreate,
            GroupMetadata.update;
          apply consistent_same; intros ?;
          repeat match goal with
          | |- context [match ?x with _ => _ end] => destruct x
          end; split; reflexivity ].

Lemma chat_pk_known jid s row :
  Chat.lookup jid s = Some row -> In (chat_pk row) (map chat_pk (chats s)).
Proof.
  unfold Chat.lookup. intros H. apply find_some in H as [H _].
  now apply in_map.
Qed.

Lemma processMessage_consistent env msg w :
  consistent (store w) ->
  wp (MessageHandler.processMessage msg) env w
     (fun _ w' => consistent (store w')).
Proof.
  intros Hc. unfold MessageHandler.processMessage.
  wp_run.
  all: cbn [store emit with_store].
  all: repeat first
         [ assumption
         | apply consistent_chat_update
         | apply consistent_with_contacts
         | apply consistent_new_chat
         | apply consistent_insert ].
  all: cbn [MessageHandler.defaults_of msg_chat_id Chat.with_chats
            Contact.with_contacts chats].
  all: first [ eapply chat_pk_known; eassumption
             | rewrite map_app; apply in_or_app; right; left; reflexivity ].
Qed.

Lemma consistent_guarded msg :
  keeps keeps_consistent (MessageHandler.guarded msg).
Proof.
  intros env w Hc. unfold MessageHandler.guarded, try_catch.
  pose proof (processMessage_consistent env msg w Hc) as H. unfold wp in H.
  destruct (MessageHandler.processMessage msg env w) as [[u|e] w1];
    exact H.
Qed.

Lemma consistent_handleUpsert ms type :
  keeps keeps_consistent (MessageHandler.handleUpsert ms type).
Proof.
  unfold MessageHandler.handleUpsert.
  keeps_walk keeps_consistent_refl keeps_consistent_trans
    ltac:(apply consistent_guarded).
Qed.

Lemma consistent_processChat c n :
  keeps keeps_consistent (HistoryHandler.processChat c n).
Proof.
  unfold HistoryHandler.processChat.
  keeps_walk keeps_consistent_refl keeps_consistent_trans consistent_op.
Qed.

Lemma consistent_processContact c n :
  keeps keeps_consistent (HistoryHandler.processContact c n).
Proof.
  unfold HistoryHandler.processContact.
  keeps_walk keeps_consistent_refl keeps_consistent_trans consistent_op.
Qed.

Lemma consistent_chat_handleUpdate us :
  keeps keeps_consistent (ChatHandler.handleUpdate us).
Proof.
  unfold ChatHandler.handleUpdate, ChatHandler.guarded,
    ChatHandler.processUpdate.
  keeps_walk keeps_consistent_refl keeps_consistent_trans consistent_op.
Qed.

Lemma consistent_contact_handleUpdate us :
  keeps keeps_consistent (ContactHandler.handleUpdate us).
Proof.
  unfold ContactHandler.handleUpdate, ContactHandler.guarded,
    ContactHandler.processUpdate.
  keeps_walk keeps_consistent_refl keeps_consistent_trans consistent_op.
Qed.

Lemma consistent_handleGroupUpdate us :
  keeps keeps_consistent (GroupHandler.handleGroupUpdate us).
Proof.
  unfold GroupHandler.handleGroupUpdate, GroupHandler.guarded,
    GroupHandler.processUpdate.
  keeps_walk keeps_consistent_refl keeps_consistent_trans consistent_op.
Qed.

Lemma consistent_empty : consistent empty_store.
Proof. split; intros ? []. Qed.

(** X11: the message counter of a chat is the number of stored messages
    that refer to it, and every stored message refers to a stored chat:
    when this holds before a run of any of the five handlers it holds
    after it, whatever requests the store rejects. *)
Theorem counters_match_stored_rows (env : Env) (w : World) :
  consistent (store w) ->
  (forall ms type,
     consistent (store (snd (MessageHandler.handleUpsert ms type env w)))) /\
  (forall ms cs ks isLatest,
     consistent
       (store (snd (HistoryHandler.handleHistorySet ms cs ks isLatest
                      env w)))) /\
  (forall us, consistent (store (snd (ChatHandler.handleUpdate us env w)))) /\
  (forall us,
     consistent (store (snd (ContactHandler.handleUpdate us env w)))) /\
  (forall us,
     consistent (store (snd (GroupHandler.handleGroupUpdate us env w)))).
Proof.
  intros H. split; [|split; [|split; [|split]]].
  - intros ms type. now apply (consistent_handleUpsert ms type env w).
  - intros ms cs ks isLatest.
    now apply (keeps_handleHistorySet keeps_consistent
                 keeps_consistent_refl keeps_consistent_trans
                 consistent_processChat consistent_processContact
                 consistent_handleUpsert ms cs ks isLatest env w).
  - intros us. now apply (consistent_chat_handleUpdate us env w).
  - intros us. now apply (consistent_contact_handleUpdate us env w).
  - intros us. now apply (consistent_handleGroupUpdate us env w).
Qed.

Lemma counters_match_stored_rows_witness :
  consistent (store item1_stored) /\
  consistent
    (store (snd (MessageHandler.handleUpsert [item2; item3; item4] "notify"
                   schema_env item1_stored))).
Proof.
  pose proof (proj1 (counters_match_stored_rows schema_env initial_world
                       consistent_empty) [item1] "notify") as H.
  split; [exact H|].
  exact (proj1 (counters_match_stored_rows schema_env item1_stored H) _ _).
Defined.

(* ------------------------------------------------------------------ *)
(** ** Which tables a handler writes *)

Lemma same_on_refl {X} (view : Store -> X) s : same_on view s s.
Proof. reflexivity. Qed.

Lemma same_on_trans {X} (view : Store -> X) a b c :
  same_on view a b -> same_on view b c -> same_on view a c.
Proof. unfold same_on. congruence. Qed.

Ltac same_leaf :=
  unfold Chat.findOrCreate, Chat.findOne, Chat.update,
    Contact.findOrCreate, Contact.update, Message.findOne,
    Message.findOrCreate, GroupMetadata.findOrCreate, GroupMetadata.update;
  apply (keeps_query _ (same_on_refl _)); intros ?;
  unfold same_on, Message.insert; cbn beta iota zeta;
  repeat match goal with
  | |- context [match ?x with _ => _ end] => destruct x
  end; try (cbn; reflexivity).

Ltac same_walk :=
  keeps_walk (same_on_refl (X:=_)) (same_on_trans (X:=_)) same_leaf.

Lemma chat_identities_update p c s :
  chat_identities
    (Chat.with_chats
       (map (fun r => if (chat_pk r =? p)%nat
                      then apply_chat_changes c r else r) (chats s)) s)
  = chat_identities s.
Proof.
  unfold chat_identities. cbn. rewrite map_map. apply map_ext.
  intros r. now destruct (chat_pk r =? p)%nat.
Qed.

Lemma chat_handler_frame us :
  keeps (same_on contacts) (ChatHandler.handleUpdate us) /\
  keeps (same_on messages) (ChatHandler.handleUpdate us) /\
  keeps (same_on group_metadata) (ChatHandler.handleUpdate us) /\
  keeps (same_on chat_identities) (ChatHandler.handleUpdate us).
Proof.
  unfold ChatHandler.handleUpdate, ChatHandler.guarded,
    ChatHandler.processUpdate.
  split; [|split; [|split]].
  - keeps_walk (same_on_refl contacts) (same_on_trans contacts) same_leaf.
  - keeps_walk (same_on_refl messages) (same_on_trans messages) same_leaf.
  - keeps_walk (same_on_refl group_metadata) (same_on_trans group_metadata)
      same_leaf.
  - keeps_walk (same_on_refl chat_identities)
      (same_on_trans chat_identities) same_leaf.
    apply chat_identities_update.
Qed.

Lemma contact_handler_frame us :
  keeps (same_on chats) (ContactHandler.handleUpdate us) /\
  keeps (same_on messages) (ContactHandler.handleUpdate us) /\
  keeps (same_on group_metadata) (ContactHandler.handleUpdate us).
Proof.
  unfold ContactHandler.handleUpdate, ContactHandler.guarded,
    ContactHandler.processUpdate.
  split; [|split].
  - keeps_walk (same_on_refl chats) (same_on_trans chats) same_leaf.
  - keeps_walk (same_on_refl messages) (same_on_trans messages) same_leaf.
  - keeps_walk (same_on_refl group_metadata) (same_on_trans group_metadata)
      same_leaf.
Qed.

Lemma group_handler_frame us :
  keeps (same_on contacts) (GroupHandler.handleGroupUpdate us) /\
  keeps (same_on messages) (GroupHandler.handleGroupUpdate us) /\
  keeps (same_on chat_identities) (GroupHandler.handleGroupUpdate us).
Proof.
  unfold GroupHandler.handleGroupUpdate, GroupHandler.guarded,
    GroupHandler.processUpdate.
  split; [|split].
  - keeps_walk (same_on_refl contacts) (same_on_trans contacts) same_leaf.
  - keeps_walk (same_on_refl messages) (same_on_trans messages) same_leaf.
  - keeps_walk (same_on_refl chat_identities)
      (same_on_trans chat_identities) same_leaf.
    apply chat_identities_update.
Qed.

Lemma upsert_frame ms type :
  keeps (same_on group_metadata) (MessageHandler.handleUpsert ms type).
Proof.
  unfold MessageHandler.handleUpsert, MessageHandler.guarded,
    MessageHandler.on_error, MessageHandler.processMessage.
  keeps_walk (same_on_refl group_metadata) (same_on_trans group_metadata)
    same_leaf.
Qed.

Lemma history_frame ms cs ks isLatest :
  keeps (same_on group_metadata)
        (HistoryHandler.handleHistorySet ms cs ks isLatest).
Proof.
  apply (keeps_handleHistorySet (same_on group_metadata)
           (same_on_refl _) (same_on_trans _)).
  - intros c n. unfold HistoryHandler.processChat.
    keeps_walk (same_on_refl group_metadata) (same_on_trans group_metadata)
      same_leaf.
  - intros c n. unfold HistoryHandler.processContact.
    keeps_walk (same_on_refl group_metadata) (same_on_trans group_metadata)
      same_leaf.
  - apply upsert_frame.
Qed.

(** X12: each handler writes only its own tables: the chat handler
    leaves contacts, messages and group metadata as they are and keeps the
    row id, JID and type of every chat; the contact handler leaves chats,
    messages and group metadata; the group handler leaves contacts and
    messages and keeps the identity of every chat; the message and history
    handlers leave the group metadata. *)
Theorem handlers_write_only_their_tables (env : Env) (w : World) :
  (forall us,
     let s' := store (snd (ChatHandler.handleUpdate us env w)) in
     contacts s' = contacts (store w) /\
     messages s' = messages (store w) /\
     group_metadata s' = group_metadata (store w) /\
     chat_identities s' = chat_identities (store w)) /\
  (forall us,
     let s' := store (snd (ContactHandler.handleUpdate us env w)) in
     chats s' = chats (store w) /\
     messages s' = messages (store w) /\
     group_metadata s' = group_metadata (store w)) /\
  (forall us,
     let s' := store (snd (GroupHandler.handleGroupUpdate us env w)) in
     contacts s' = contacts (store w) /\
     messages s' = messages (store w) /\
     chat_identities s' = chat_identities (store w)) /\
  (forall ms type,
     group_metadata (store (snd (MessageHandler.handleUpsert ms type env w)))
     = group_metadata (store w)) /\
  (forall ms cs ks isLatest,
     group_metadata
       (store (snd (HistoryHandler.handleHistorySet ms cs ks isLatest env w)))
     = group_metadata (store w)).
Proof.
  split; [|split; [|split; [|split]]].
  - intros us s'. destruct (chat_handler_frame us) as (H1 & H2 & H3 & H4).
    split; [apply H1|]. split; [apply H2|]. split; [apply H3|apply H4].
  - intros us s'. destruct (contact_handler_frame us) as (H1 & H2 & H3).
    split; [apply H1|]. split; [apply H2|apply H3].
  - intros us s'. destruct (group_handler_frame us) as (H1 & H2 & H3).
    split; [apply H1|]. split; [apply H2|apply H3].
  - intros ms type. apply upsert_frame.
  - intros ms cs ks isLatest. apply history_frame.
Qed.

(* ------------------------------------------------------------------ *)
(** ** Batches run in sequence *)

Lemma driven_chat_handleUpdate us :
  store_driven (ChatHandler.handleUpdate us).
Proof.
  unfold ChatHandler.handleUpdate, ChatHandler.guarded,
    ChatHandler.processUpdate, Chat.findOne, Chat.update.
  driven_walk.
Qed.

Lemma driven_contact_handleUpdate us :
  store_driven (ContactHandler.handleUpdate us).
Proof.
  unfold ContactHandler.handleUpdate, ContactHandler.guarded,
    ContactHandler.processUpdate, Contact.findOrCreate, Contact.update.
  driven_walk.
Qed.

Lemma driven_handleGroupUpdate us :
  store_driven (GroupHandler.handleGroupUpdate us).
Proof.
  unfold GroupHandler.handleGroupUpdate, GroupHandler.guarded,
    GroupHandler.processUpdate, Chat.findOne, Chat.update,
    GroupMetadata.findOrCreate, GroupMetadata.update.
  driven_walk.
Qed.

(** A loop whose body never throws runs a concatenation as the two halves
    in turn. *)
Lemma for_of_app {A} (body : A -> M unit) env :
  (forall x w, fst (body x env w) = Ok tt) ->
  forall pre post w,
    fst (for_of (pre ++ post) body env w) = Ok tt /\
    snd (for_of (pre ++ post) body env w) =
    snd (for_of post body env (snd (for_of pre body env w))).
Proof.
  intros Hok pre post. induction pre as [|x pre IH]; intros w.
  - cbn. split; [|reflexivity].
    induction post as [|y post IHp] in w |- *; cbn; [reflexivity|].
    unfold bind. specialize (Hok y w).
    destruct (body y env w) as [[u|e] w1]; cbn in *; [apply IHp|discriminate].
  - cbn. unfold bind. specialize (Hok x w).
    destruct (body x env w) as [[u|e] w1]; cbn in *; [apply IH|discriminate].
Qed.

Lemma try_log_ok (m : M unit) (h : Exn -> M unit) env w :
  (forall e w', fst (h e env w') = Ok tt) ->
  fst (try_catch m h env w) = Ok tt.
Proof.
  intros Hh. unfold try_catch.
  destruct (m env w) as [[[]|e] w1]; [reflexivity|apply Hh].
Qed.

Lemma chat_guarded_ok u env w : fst (ChatHandler.guarded u env w) = Ok tt.
Proof. apply try_log_ok. reflexivity. Qed.

Lemma contact_guarded_ok u env w :
  fst (ContactHandler.guarded u env w) = Ok tt.
Proof. apply try_log_ok. reflexivity. Qed.

Lemma group_guarded_ok u env w : fst (GroupHandler.guarded u env w) = Ok tt.
Proof. apply try_log_ok. reflexivity. Qed.

(** A logged loop over a concatenation stores what the two logged loops
    store one after the other. *)
Lemma logged_loop_app {A} (body : A -> M unit)
      (header : list A -> Event) env :
  (forall x w, fst (body x env w) = Ok tt) ->
  (forall x, store_driven (body x)) ->
  forall pre post w,
    let run xs w := for_of xs body env (emit (header xs) w) in
    fst (run (pre ++ post) w) = Ok tt /\
    store (snd (run (pre ++ post) w)) =
    store (snd (run post (snd (run pre w)))).
Proof.
  intros Hok Hd pre post w run. unfold run.
  destruct (for_of_app body env Hok pre post
              (emit (header (pre ++ post)) w)) as (Hr & Hs).
  split; [exact Hr|]. rewrite Hs.
  apply (driven_for_of post body Hd env). cbn [store emit].
  apply (driven_for_of pre body Hd env). reflexivity.
Qed.

Lemma driven_guarded msg : store_driven (MessageHandler.guarded msg).
Proof.
  unfold MessageHandler.guarded, MessageHandler.on_error,
    MessageHandler.processMessage,
    Chat.findOrCreate, Chat.update, Contact.findOrCreate, Message.findOne,
    Message.findOrCreate.
  driven_walk.
Qed.

Lemma driven_chat_guarded u : store_driven (ChatHandler.guarded u).
Proof.
  unfold ChatHandler.guarded, ChatHandler.processUpdate, Chat.findOne,
    Chat.update.
  driven_walk.
Qed.

Lemma driven_contact_guarded u : store_driven (ContactHandler.guarded u).
Proof.
  unfold ContactHandler.guarded, ContactHandler.processUpdate,
    Contact.findOrCreate, Contact.update.
  driven_walk.
Qed.

Lemma driven_group_guarded u : store_driven (GroupHandler.guarded u).
Proof.
  unfold GroupHandler.guarded, GroupHandler.processUpdate, Chat.findOne,
    Chat.update, GroupMetadata.findOrCreate, GroupMetadata.update.
  driven_walk.
Qed.

Lemma handleUpsert_app env w ms1 ms2 t t1 t2 :
  store (snd (MessageHandler.handleUpsert (ms1 ++ ms2) t env w)) =
  store (snd (MessageHandler.handleUpsert ms2 t2 env
                (snd (MessageHandler.handleUpsert ms1 t1 env w)))).
Proof.
  rewrite !handleUpsert_unfold.
  destruct (for_of_app MessageHandler.guarded env (guarded_ok env) ms1 ms2
              (emit (upsert_header (length (ms1 ++ ms2)) t) w)) as (_ & ->).
  apply (driven_for_of ms2 _ driven_guarded env). cbn [store emit].
  apply (driven_for_of ms1 _ driven_guarded env). reflexivity.
Qed.

(** X13: a batch is processed one element after the other and an element
    that fails does not stop the rest: for each of the message, chat,
    contact and group handlers, the store after a batch [a ++ b] is the
    store after [a] and then [b], and the update handlers always return
    normally. *)
Theorem batches_run_in_sequence (env : Env) (w : World) :
  (forall ms1 ms2 t t1 t2,
     store (snd (MessageHandler.handleUpsert (ms1 ++ ms2) t env w)) =
     store (snd (MessageHandler.handleUpsert ms2 t2 env
                   (snd (MessageHandler.handleUpsert ms1 t1 env w))))) /\
  (forall us1 us2,
     fst (ChatHandler.handleUpdate (us1 ++ us2) env w) = Ok tt /\
     store (snd (ChatHandler.handleUpdate (us1 ++ us2) env w)) =
     store (snd (ChatHandler.handleUpdate us2 env
                   (snd (ChatHandler.handleUpdate us1 env w))))) /\
  (forall us1 us2,
     fst (ContactHandler.handleUpdate (us1 ++ us2) env w) = Ok tt /\
     store (snd (ContactHandler.handleUpdate (us1 ++ us2) env w)) =
     store (snd (ContactHandler.handleUpdate us2 env
                   (snd (ContactHandler.handleUpdate us1 env w))))) /\
  (forall us1 us2,
     fst (GroupHandler.handleGroupUpdate (us1 ++ us2) env w) = Ok tt /\
     store (snd (GroupHandler.handleGroupUpdate (us1 ++ us2) env w)) =
     store (snd (GroupHandler.handleGroupUpdate us2 env
                   (snd (GroupHandler.handleGroupUpdate us1 env w))))).
Proof.
  split; [|split; [|split]].
  - intros. apply handleUpsert_app.
  - intros us1 us2.
    exact (logged_loop_app ChatHandler.guarded
             (fun xs => EvLog info [("count", VNum (Z.of_nat (length xs)))]
                              "Processing chat updates")
             env (fun x w => chat_guarded_ok x env w) driven_chat_guarded
             us1 us2 w).
  - intros us1 us2.
    exact (logged_loop_app ContactHandler.guarded
             (fun xs => EvLog info [("count", VNum (Z.of_nat (length xs)))]
                              "Processing contact updates")
             env (fun x w => contact_guarded_ok x env w)
             driven_contact_guarded us1 us2 w).
  - intros us1 us2.
    exact (logged_loop_app GroupHandler.guarded
             (fun xs => EvLog info [("count", VNum (Z.of_nat (length xs)))]
                              "Processing group updates")
             env (fun x w => group_guarded_ok x env w) driven_group_guarded
             us1 us2 w).
Qed.

Lemma run_batches_store env total bs p w t :
  store (snd (run_batches total bs p env w)) =
  store (snd (MessageHandler.handleUpsert (concat bs) t env w)).
Proof.
  revert p w. induction bs as [|b bs IH]; intros p w; cbn [run_batches concat].
  - reflexivity.
  - rewrite (handleUpsert_app env w b (concat bs) t "history" t).
    unfold bind at 1.
    pose proof (handleUpsert_step env b "history" w) as (Hok & _).
    destruct (MessageHandler.handleUpsert b "history" env w) as [r w1];
      cbn [fst snd] in *. subst r.
    unfold bind, when.
    match goal with |- context [if ?c then _ else _] => destruct c end;
      cbn [log ret]; rewrite IH;
      now apply (driven_handleUpsert (concat bs) t env).
Qed.

(** X14: the sub-batches of 100 of the history handler are invisible in
    the store: its message phase leaves the store that a single
    [handleUpsert] of all messages with type "history" leaves. *)
Theorem history_messages_stored_as_one_upsert
        (env : Env) (w : World) (ms : list WebMessageInfo) :
  store (snd (HistoryHandler.message_phase ms env w)) =
  store (snd (MessageHandler.handleUpsert ms "history" env w)).
Proof.
  unfold HistoryHandler.message_phase.
  destruct (message_loop_batches (length ms) ms 0 0 ltac:(lia))
    as (bs & Hc & _ & ->).
  cbn [skipn] in Hc. rewrite <- Hc at 2.
  apply run_batches_store.
Qed.

(* ------------------------------------------------------------------ *)
(** ** Chat and group updates *)

Lemma chat_guarded_unknown env u w :
  names_no_chat (store w) (ChatHandler.id u) ->
  store (snd (ChatHandler.guarded u env w)) = store w.
Proof.
  intros H.
  change (wp (ChatHandler.guarded u) env w (fun _ w' => store w' = store w)).
  unfold ChatHandler.guarded, ChatHandler.processUpdate.
  apply wp_try_catch.
  destruct (ChatHandler.id u =? "") eqn:E; [now apply wp_log|].
  destruct H as [H|H]; [rewrite H in E; discriminate|].
  wp_run; try reflexivity.
  all: cbn [store emit] in *; congruence.
Qed.

Lemma group_guarded_unknown env u w :
  names_no_chat (store w) (GroupHandler.id u) ->
  store (snd (GroupHandler.guarded u env w)) = store w.
Proof.
  intros H.
  change (wp (GroupHandler.guarded u) env w (fun _ w' => store w' = store w)).
  unfold GroupHandler.guarded, GroupHandler.processUpdate.
  apply wp_try_catch.
  destruct (GroupHandler.id u =? "") eqn:E; [now apply wp_log|].
  destruct H as [H|H]; [rewrite H in E; discriminate|].
  wp_run; try reflexivity.
  all: cbn [store emit] in *; congruence.
Qed.

Lemma for_of_unchanged {A} (body : A -> M unit) (ok : Store -> A -> Prop)
      env :
  (forall x w, fst (body x env w) = Ok tt) ->
  (forall x w, ok (store w) x -> store (snd (body x env w)) = store w) ->
  forall xs w,
    Forall (ok (store w)) xs ->
    store (snd (for_of xs body env w)) = store w.
Proof.
  intros Hok Hsame xs. induction xs as [|x xs IH]; intros w H; [reflexivity|].
  inversion H as [|? ? Hx Hxs]; subst. cbn. unfold bind.
  specialize (Hok x w). specialize (Hsame x w Hx).
  destruct (body x env w) as [[u|e] w1]; cbn in *; [|discriminate].
  rewrite IH; [exact Hsame|now rewrite Hsame].
Qed.

(** X15: chat updates and group updates never create a chat: a batch of
    updates that each carry no id or the id of a chat that is not stored
    leaves the store as it is, whatever requests the store rejects. *)
Theorem updates_of_unknown_chats_change_nothing (env : Env) (w : World) :
  (forall us,
     Forall (fun u => names_no_chat (store w) (ChatHandler.id u)) us ->
     store (snd (ChatHandler.handleUpdate us env w)) = store w) /\
  (forall us,
     Forall (fun u => names_no_chat (store w) (GroupHandler.id u)) us ->
     store (snd (GroupHandler.handleGroupUpdate us env w)) = store w).
Proof.
  split; intros us H.
  - unfold ChatHandler.handleUpdate, bind, log. cbn [fst snd].
    apply (for_of_unchanged ChatHandler.guarded
             (fun s u => names_no_chat s (ChatHandler.id u)) env
             (fun x w => chat_guarded_ok x env w)
             (fun x w => chat_guarded_unknown env x w) us (emit _ w)).
    exact H.
  - unfold GroupHandler.handleGroupUpdate, bind, log. cbn [fst snd].
    apply (for_of_unchanged GroupHandler.guarded
             (fun s u => names_no_chat s (GroupHandler.id u)) env
             (fun x w => group_guarded_ok x env w)
             (fun x w => group_guarded_unknown env x w) us (emit _ w)).
    exact H.
Qed.



Lemma handleGroupUpdate_one env u w :
  snd (GroupHandler.handleGroupUpdate [u] env w) =
  snd (GroupHandler.guarded u env
         (emit (EvLog info [("count", VNum 1)] "Processing group updates") w))
  /\ fst (GroupHandler.handleGroupUpdate [u] env w) = Ok tt.
Proof.
  unfold GroupHandler.handleGroupUpdate, bind, log. cbn [for_of fst snd].
  unfold bind. set (w0 := emit _ w).
  pose proof (group_guarded_ok u env w0) as H.
  destruct (GroupHandler.guarded u env w0) as [[[]|e] w1]; cbn in *;
    [now split|discriminate].
Qed.




(** X17: the rename of a group is not undone when its metadata cannot be
    written: for an update that carries a subject and the non-empty id of a
    stored chat, when the store accepts the lookup and the update of the
    chat but rejects the find-or-create of the metadata row, the handler
    still returns normally, the chat carries the new subject as its name,
    and the group metadata table is as before. *)
Theorem group_rename_survives_rejected_metadata
        (env : Env) (w : World) (u : GroupHandler.GroupUpdate)
        (chat : ChatRow) (s : string) :
  GroupHandler.id u <> "" ->
  Chat.lookup (GroupHandler.id u) (store w) = Some chat ->
  GroupHandler.subject u = Some s ->
  db_fails env (ChatFindOne (GroupHandler.id u)) = false ->
  (forall c, db_fails env (ChatUpdate (chat_pk chat) c) = false) ->
  db_fails env (GroupMetadataFindOrCreate (chat_pk chat)
                  (GroupHandler.changes_of u)) = true ->
  let (r, w') := GroupHandler.handleGroupUpdate [u] env w in
  r = Ok tt /\
  (exists chat', Chat.lookup (GroupHandler.id u) (store w') = Some chat' /\
                 chat_name chat' = Some s) /\
  group_metadata (store w') = group_metadata (store w).
Proof.
  intros Hid Hchat Hsubj Hfind Hupd Hmeta.
  destruct (handleGroupUpdate_one env u w) as (Hw & Hr).
  destruct (GroupHandler.handleGroupUpdate [u] env w) as [r w'];
    cbn [fst snd] in *. subst r w'. split; [reflexivity|].
  set (w0 := emit _ w).
  change ((fun w' =>
             (exists chat', Chat.lookup (GroupHandler.id u) (store w')
                            = Some chat' /\ chat_name chat' = Some s) /\
             group_metadata (store w') = group_metadata (store w))
            (snd (GroupHandler.guarded u env w0))).
  change (wp (GroupHandler.guarded u) env w0
             (fun _ w' =>
                (exists chat', Chat.lookup (GroupHandler.id u) (store w')
                               = Some chat' /\ chat_name chat' = Some s) /\
                group_metadata (store w') = group_metadata (store w))).
  unfold GroupHandler.guarded, GroupHandler.processUpdate.
  destruct (String.eqb_spec (GroupHandler.id u) "") as [E|_];
    [contradiction|].
  rewrite Hsubj.
  assert (Hne : group_changes_nonempty (GroupHandler.changes_of u) = true)
    by (unfold group_changes_nonempty, GroupHandler.changes_of; cbn;
        now rewrite Hsubj).
  rewrite Hne.
  apply wp_try_catch.
  wp_run.
  all: cbn [store emit with_store w0] in *.
  all: try congruence.
  all: match goal with
       | H : Chat.lookup _ _ = Some ?c |- _ =>
           assert (c = chat) by congruence; subst c
       end.
  all: try (rewrite Hupd in *; discriminate).
  all: try (rewrite Hmeta in *; discriminate).
  all: try apply wp_log.
  all: cbn [store emit with_store] in *.
  all: (split; [|reflexivity]).
  all: eexists; split;
       [apply chat_lookup_after_update; eassumption|reflexivity].
Qed.

Lemma group_rename_survives_rejected_metadata_witness :
  let (r, w') := GroupHandler.handleGroupUpdate [new_subject]
                   metadata_rejected directory in
  r = Ok tt /\
  (exists chat', Chat.lookup family (store w') = Some chat' /\
                 chat_name chat' = Some "Family 2024") /\
  group_metadata (store w') = group_metadata (store directory).
Proof.
  destruct (Chat.lookup family (store directory)) as [chat|] eqn:E;
    [|vm_compute in E; discriminate E].
  assert (Hid : GroupHandler.id new_subject <> "") by discriminate.
  exact (group_rename_survives_rejected_metadata metadata_rejected directory
           new_subject chat "Family 2024" Hid E eq_refl eq_refl
           (fun _ => eq_refl) eq_refl).
Defined.

(* ------------------------------------------------------------------ *)
(** ** Service calls: getSocket and on *)

Section ServiceInvariants.

Import WhatsAppService ServiceCalls.

Lemma backoff_delay_bounds n :
  1 <= n -> (2000 <= backoff_delay n <= 60000)%Z.
Proof.
  intros Hn. unfold backoff_delay.
  assert (2 ^ 1 <= 2 ^ Z.of_nat n)%Z
    by (apply Z.pow_le_mono_r; lia).
  change (2 ^ 1)%Z with 2%Z in *. lia.
Qed.

Lemma sound_initial : sound initial.
Proof.
  constructor; cbn; try (constructor; fail); try discriminate.
  - unfold maxReconnectAttempts. lia.
  - intros [|n] s H; discriminate H.
Qed.

Lemma sound_say lvl msg rt : sound rt -> sound (say lvl msg rt).
Proof. intros []. constructor; assumption. Qed.

Lemma sound_connect from_timer options rt :
  sound rt -> sound (snd (connect from_timer options rt)).
Proof.
  intros H. unfold connect.
  destruct (isConnecting (this rt)).
  - destruct (sock (this (say _ _ rt))); cbn [snd]; now apply sound_say.
  - destruct H. constructor; assumption.
Qed.

Lemma nth_error_snoc {A} (l : list A) x n a :
  nth_error (l ++ [x]) n = Some a ->
  nth_error l n = Some a \/ (n = length l /\ a = x).
Proof.
  intros H. destruct (Nat.lt_ge_cases n (length l)) as [Hlt|Hge].
  - left. now rewrite nth_error_app1 in H.
  - right. rewrite nth_error_app2 in H by exact Hge.
    destruct (n - length l) as [|k] eqn:E; cbn in H.
    + split; [lia|congruence].
    + destruct k; discriminate H.
Qed.

Lemma sound_resume ok rt : sound rt -> sound (snd (resume ok rt)).
Proof.
  intros H. unfold resume.
  destruct (suspended rt) as [|c rest]; [exact H|].
  destruct ok.
  - destruct H as [Ha Hd Hs Hn Hl Hh].
    unfold applyHandlers. cbn.
    constructor; cbn.
    + exact Ha.
    + exact Hd.
    + intros s E. inversion E; subst s. cbn.
      rewrite nth_error_app2 by lia. now rewrite Nat.sub_diag.
    + intros n s E. apply nth_error_snoc in E as [E|[-> ->]];
        [now apply Hn|reflexivity].
    + rewrite length_app. cbn.
      rewrite !Forall_app. split; [split|].
      * eapply Forall_impl; [|exact Hl]. cbn. intros; lia.
      * repeat constructor; cbn; lia.
      * apply Forall_forall. intros p Hp.
        apply in_map_iff in Hp as (h & <- & _). cbn. lia.
    + intros s h E Hin. inversion E; subst s. cbn.
      apply in_or_app. right. now apply in_map.
  - cbn [snd].
    assert (Hb : sound (set_this (set_isConnecting false)
                          (set_suspended rest rt)))
      by (destruct H; constructor; assumption).
    destruct (sus_from_timer c); [now apply sound_say|exact Hb].
Qed.

Lemma sound_on_connection_update options update rt :
  sound rt -> sound (on_connection_update options update rt).
Proof.
  intros H. unfold on_connection_update.
  set (rt0 := match qr update with
              | Some _ => say info "QR code received, saving as image..." rt
              | None => rt
              end).
  assert (H0 : sound rt0)
    by (unfold rt0; destruct (qr update); [now apply sound_say|exact H]).
  clearbody rt0. clear H rt.
  destruct H0 as [Ha Hd Hs Hn Hl Hh].
  destruct (connection update) as [[| |]|];
    try (constructor; assumption).
  - destruct (is_loggedOut (statusCode update)).
    + constructor; cbn; try assumption; discriminate.
    + cbn [say set_this this set_isConnecting reconnectAttempts].
      destruct (Nat.ltb_spec (reconnectAttempts (this rt0))
                             maxReconnectAttempts) as [Hlt|Hge].
      * constructor; cbn; try assumption.
        apply Forall_app. split; [exact Hd|]. constructor; [|constructor].
        cbn. apply backoff_delay_bounds. lia.
      * constructor; cbn; try assumption; discriminate.
  - constructor; cbn; try assumption. unfold maxReconnectAttempts. lia.
Qed.

Lemma sound_disconnect rt : sound rt -> sound (disconnect rt).
Proof.
  intros H. unfold disconnect. destruct (sock (this rt)); [|exact H].
  destruct H. constructor; cbn; try assumption; discriminate.
Qed.

Lemma sound_ev_on_current rt s h :
  sound rt -> sock (this rt) = Some s -> sound (ev_on (sock_id s) [h] rt).
Proof.
  intros [Ha Hd Hs Hn Hl Hh] E. constructor; cbn; try assumption.
  - apply Forall_app. split; [exact Hl|]. constructor; [|constructor].
    cbn. apply nth_error_Some. rewrite (Hs s E). discriminate.
  - intros s' h' E' Hin. apply in_or_app. left. now apply Hh.
Qed.

Lemma sound_onPersistent h rt : sound rt -> sound (onPersistent h rt).
Proof.
  intros [Ha Hd Hs Hn Hl Hh]. unfold onPersistent. cbn.
  destruct (sock (this rt)) as [s|] eqn:E.
  - constructor; cbn; rewrite ?E; try assumption.
    + apply Forall_app. split; [exact Hl|]. constructor; [|constructor].
      cbn. apply nth_error_Some. rewrite (Hs s eq_refl). discriminate.
    + intros s' h' E' Hin. inversion E'; subst s'.
      apply in_or_app. apply in_app_or in Hin as [Hin|[<-|[]]].
      * left. now apply Hh.
      * right. now left.
  - constructor; cbn; rewrite ?E; try assumption; discriminate.
Qed.

Lemma sound_step a rt : sound rt -> sound (snd (step a rt)).
Proof.
  intros H. destruct a as [o|ok|n u|k| |h]; cbn [step].
  - now apply sound_connect.
  - now apply sound_resume.
  - destruct (nth_error (sockets rt) n); cbn [snd];
      [now apply sound_on_connection_update|exact H].
  - destruct (nth_error (timers rt) k) as [t|] eqn:E; [|exact H].
    assert (H1 : sound (set_timers (remove_nth k (timers rt)) rt)).
    { destruct H as [Ha Hd Hs Hn Hl Hh]. constructor; cbn; try assumption.
      clear E. revert k. induction Hd as [|x l Hx Hd IH]; intros k.
      - destruct k; constructor.
      - destruct k; cbn; [exact Hd|]. constructor; [exact Hx|apply IH]. }
    pose proof (sound_connect true (timer_options t) _ H1) as H2.
    destruct (connect true (timer_options t) _) as [[s|msg| |] rt'];
      cbn [snd] in *; try exact H2. now apply sound_say.
  - now apply sound_disconnect.
  - now apply sound_onPersistent.
Qed.

Lemma sound_call c rt : sound rt -> sound (call c rt).
Proof.
  intros H. destruct c as [a|h]; cbn [call].
  - now apply sound_step.
  - unfold on, getSocket. destruct (sock (this rt)) as [s|] eqn:E;
      cbn [snd]; [now apply sound_ev_on_current|exact H].
Qed.

Lemma sound_calls cs rt : sound rt -> sound (calls cs rt).
Proof.
  revert rt. induction cs as [|c cs IH]; intros rt H; [exact H|].
  cbn. apply IH. now apply sound_call.
Qed.

(** X18: after any sequence of calls into the service and events of its
    event loop, starting from the fresh service, the reconnect counter is
    at most 10, every scheduled reconnect has a delay between 2 and 60
    seconds, and the handle the service holds is a socket it has made. *)
Theorem service_stays_within_bounds (cs : list Call) :
  let rt := calls cs initial in
  reconnectAttempts (this rt) <= 10 /\
  Forall (fun t => (2000 <= delay t <= 60000)%Z) (timers rt) /\
  (forall s, sock (this rt) = Some s ->
             nth_error (sockets rt) (sock_id s) = Some s).
Proof.
  destruct (sound_calls cs initial sound_initial) as [Ha Hd Hs _ _ _].
  cbn. auto.
Qed.

Lemma calls_app pre post rt :
  calls (pre ++ post) rt = calls post (calls pre rt).
Proof.
  revert rt. induction pre as [|c pre IH]; intros rt; [reflexivity|].
  cbn. apply IH.
Qed.

Lemma registered_say lvl msg rt :
  registeredHandlers (this (say lvl msg rt)) = registeredHandlers (this rt).
Proof. reflexivity. Qed.

Lemma registered_connect from_timer options rt :
  registeredHandlers (this (snd (connect from_timer options rt))) =
  registeredHandlers (this rt).
Proof.
  unfold connect. destruct (isConnecting (this rt)); [|reflexivity].
  now destruct (sock (this (say _ _ rt))).
Qed.

Lemma registered_call c rt h :
  In h (registeredHandlers (this rt)) ->
  In h (registeredHandlers (this (call c rt))).
Proof.
  intros H. destruct c as [[o|ok|n u|k| |h']|h']; cbn [call step].
  - now rewrite registered_connect.
  - unfold resume. destruct (suspended rt) as [|c rest]; [exact H|].
    destruct ok; cbn; [exact H|].
    now destruct (sus_from_timer c).
  - destruct (nth_error (sockets rt) n); cbn [snd]; [|exact H].
    unfold on_connection_update.
    destruct (qr u), (connection u) as [[| |]|]; cbn;
      repeat match goal with
      | |- context [if ?b then _ else _] => destruct b; cbn
      end; exact H.
  - destruct (nth_error (timers rt) k) as [t|]; [|exact H].
    pose proof (registered_connect true (timer_options t)
                  (set_timers (remove_nth k (timers rt)) rt)) as E.
    destruct (connect true (timer_options t) _) as [[s|msg| |] rt'];
      cbn [snd] in *; rewrite ?registered_say, E; exact H.
  - unfold disconnect. destruct (sock (this rt)); exact H.
  - unfold onPersistent. cbn.
    destruct (sock (this rt)); cbn; apply in_or_app; now left.
  - unfold on, getSocket. destruct (sock (this rt)); exact H.
Qed.

Lemma registered_calls cs rt h :
  In h (registeredHandlers (this rt)) ->
  In h (registeredHandlers (this (calls cs rt))).
Proof.
  revert rt. induction cs as [|c cs IH]; intros rt H; [exact H|].
  cbn. apply IH. now apply registered_call.
Qed.

(** X19: a handler registered with [onPersistent], at any point of any
    sequence of calls and events, listens on whatever socket the service
    holds afterwards. *)
Theorem persistent_handlers_follow_the_socket
        (before after : list Call) (h : EventHandler) (s : WASocket) :
  let rt := calls (before ++ Do (OnPersistent h) :: after) initial in
  sock (this rt) = Some s ->
  In h (listeners_of (sock_id s) rt).
Proof.
  intros rt Hs.
  assert (Hreg : In h (registeredHandlers (this rt))).
  { unfold rt. rewrite calls_app. cbn [calls]. apply registered_calls.
    cbn [call step snd]. unfold onPersistent. cbn.
    destruct (sock (this (calls before initial))); cbn;
      apply in_or_app; right; now left. }
  destruct (sound_calls (before ++ Do (OnPersistent h) :: after) initial
              sound_initial) as [_ _ _ _ _ Hatt].
  unfold listeners_of. apply in_map_iff. exists (sock_id s, h).
  split; [reflexivity|]. apply filter_In. split; [now apply Hatt|].
  cbn. apply Nat.eqb_refl.
Qed.

Lemma filter_none_below (ls : list (nat * EventHandler)) n :
  Forall (fun p => fst p < n) ls ->
  filter (fun p => (fst p =? n)%nat) ls = [].
Proof.
  induction 1 as [|p ls Hp _ IH]; cbn; [reflexivity|].
  destruct (Nat.eqb_spec (fst p) n); [lia|exact IH].
Qed.

(** X20: when a connection attempt gets its credentials, the socket it
    makes is new, becomes the handle of the service and the result of
    [connect], and its listeners are the two of [connect] itself followed
    by the registered persistent handlers, in registration order. *)
Theorem new_socket_gets_registered_handlers
        (cs : list Call) (c : Suspended) (rest : list Suspended) :
  let rt := calls cs initial in
  suspended rt = c :: rest ->
  let (reply, rt') := step (Resume true) rt in
  let s := {| sock_id := length (sockets rt);
              sock_options := sus_options c |} in
  reply = Resolved s /\
  sock (this rt') = Some s /\
  sockets rt' = sockets rt ++ [s] /\
  listeners_of (sock_id s) rt' =
    own_listeners ++ registeredHandlers (this rt).
Proof.
  intros rt Hsus.
  destruct (sound_calls cs initial sound_initial) as [_ _ _ _ Hl _].
  fold rt in Hl.
  cbn [step]. unfold resume. rewrite Hsus. cbn.
  split; [reflexivity|]. split; [reflexivity|]. split; [reflexivity|].
  unfold listeners_of. cbn.
  rewrite !filter_app, (filter_none_below _ _ Hl). cbn.
  rewrite Nat.eqb_refl. cbn. f_equal. f_equal.
  induction (registeredHandlers (this rt)) as [|h hs IH]; cbn;
    [reflexivity|].
  rewrite Nat.eqb_refl. cbn. now rewrite IH.
Qed.

(** X21: [disconnect] cancels no scheduled reconnect and forgets no
    registered handler: after it the service holds no handle, a second
    [disconnect] changes nothing, and a reconnect timer that fires after
    the disconnect of a held handle starts a new connection attempt. *)
Theorem disconnect_keeps_scheduled_reconnects (rt : Runtime) :
  timers (disconnect rt) = timers rt /\
  registeredHandlers (this (disconnect rt)) = registeredHandlers (this rt) /\
  sock (this (disconnect rt)) = None /\
  disconnect (disconnect rt) = disconnect rt /\
  (forall s k t,
     sock (this rt) = Some s ->
     nth_error (timers rt) k = Some t ->
     let (reply, rt') := step (TimerFires k) (disconnect rt) in
     reply = Pending /\
     isConnecting (this rt') = true /\
     suspended rt' =
       suspended rt ++ [{| sus_options := timer_options t;
                           sus_from_timer := true |}]).
Proof.
  unfold disconnect.
  destruct (sock (this rt)) as [s0|] eqn:E; cbn; rewrite ?E.
  - split; [reflexivity|]. split; [reflexivity|]. split; [reflexivity|].
    split; [reflexivity|].
    intros s k t _ Hk. rewrite Hk. cbn. auto.
  - split; [reflexivity|]. split; [reflexivity|]. split; [reflexivity|].
    split; [reflexivity|]. intros s k t H. discriminate H.
Qed.

End ServiceInvariants.

Section ServiceWitnesses.

Import WhatsAppService ServiceCalls Scenarios ServiceSamples.

Lemma persistent_handlers_follow_the_socket_witness :
  let rt := calls registered_then_connected initial in
  sock (this rt) = Some {| sock_id := 0; sock_options := defaults |} /\
  In on_upsert (listeners_of 0 rt).
Proof.
  split; [reflexivity|].
  exact (persistent_handlers_follow_the_socket []
           [Do (Connect defaults); Do (Resume true)] on_upsert
           {| sock_id := 0; sock_options := defaults |} eq_refl).
Defined.

Lemma new_socket_gets_registered_handlers_witness :
  let rt := calls [Do (OnPersistent on_upsert); Do (Connect defaults)]
                  initial in
  suspended rt = [{| sus_options := defaults; sus_from_timer := false |}] /\
  let (reply, rt') := step (Resume true) rt in
  let s := {| sock_id := 0; sock_options := defaults |} in
  reply = Resolved s /\
  sock (this rt') = Some s /\
  sockets rt' = [s] /\
  listeners_of 0 rt' = own_listeners ++ [on_upsert].
Proof.
  split; [reflexivity|].
  exact (new_socket_gets_registered_handlers
           [Do (OnPersistent on_upsert); Do (Connect defaults)]
           {| sus_options := defaults; sus_from_timer := false |} []
           eq_refl).
Defined.

End ServiceWitnesses.

(* ------------------------------------------------------------------ *)
(** ** Group participants: handleParticipantsUpdate *)

Section ParticipantsProperties.

Import Participants.

Lemma guarded_willing st group a jid t :
  willing st ->
  let (r, t') := guarded group a jid st t in
  r = Some tt /\ base t' = base t /\
  participants t' =
    participant_step a (clock st) group (participants t) jid.
Proof.
  intros Hw.
  unfold guarded, ptry, processParticipant, participant_step.
  destruct a; cbn;
    unfold pbind, new_Date, findOrCreate, findOne, update, request, plog;
    rewrite ?Hw; cbn.
  - destruct (lookup group jid (participants t)); cbn; auto.
  - destruct (lookup group jid (participants t)); cbn; rewrite ?Hw; cbn; auto.
  - destruct (lookup group jid (participants t)); cbn; rewrite ?Hw; cbn; auto.
  - destruct (lookup group jid (participants t)); cbn; rewrite ?Hw; cbn; auto.
  - auto.
Qed.

Lemma guarded_total st group a jid t :
  fst (guarded group a jid st t) = Some tt /\
  base (snd (guarded group a jid st t)) = base t.
Proof.
  unfold guarded, ptry.
  destruct (processParticipant group a jid st t) as [[[]|] t1] eqn:E; cbn.
  - split; [reflexivity|].
    revert E. unfold processParticipant.
    destruct a; cbn;
      unfold pbind, new_Date, findOrCreate, findOne, update, request, plog.
    all: repeat match goal with
         | |- context [if ?b then _ else _] => destruct b; cbn
         | |- context [match lookup ?g ?j ?p with _ => _ end] =>
             destruct (lookup g j p); cbn
         end.
    all: intros E; inversion E; reflexivity.
  - split; [reflexivity|].
    revert E. unfold processParticipant.
    destruct a; cbn;
      unfold pbind, new_Date, findOrCreate, findOne, update, request, plog.
    all: repeat match goal with
         | |- context [if ?b then _ else _] => destruct b; cbn
         | |- context [match lookup ?g ?j ?p with _ => _ end] =>
             destruct (lookup g j p); cbn
         end.
    all: intros E; inversion E; reflexivity.
Qed.

Lemma pfor_guarded_total st group a js t :
  fst (pfor js (guarded group a) st t) = Some tt /\
  base (snd (pfor js (guarded group a) st t)) = base t.
Proof.
  revert t. induction js as [|j js IH]; intros t; cbn; [now split|].
  unfold pbind. destruct (guarded_total st group a j t) as (Hr & Hb).
  destruct (guarded group a j st t) as [[[]|] t1]; cbn in *;
    [|discriminate].
  destruct (IH t1) as (Hr' & Hb'). split; [exact Hr'|congruence].
Qed.

Lemma pfor_guarded_willing st group a js t :
  willing st ->
  participants (snd (pfor js (guarded group a) st t)) =
  fold_left (participant_step a (clock st) group) js (participants t).
Proof.
  intros Hw. revert t. induction js as [|j js IH]; intros t; cbn;
    [reflexivity|].
  unfold pbind. pose proof (guarded_willing st group a j t Hw) as H.
  destruct (guarded group a j st t) as [r t1].
  destruct H as (-> & _ & Hp). rewrite IH. now rewrite Hp.
Qed.

Lemma handle_total st ev t :
  let (r, t') := handleParticipantsUpdate ev st t in
  r = Some tt /\
  chats (base t') = chats (base t) /\
  contacts (base t') = contacts (base t) /\
  messages (base t') = messages (base t) /\
  (Chat.lookup (id ev) (base t) = None ->
   base t' = base t /\ participants t' = participants t).
Proof.
  unfold handleParticipantsUpdate, pbind, plog, ptry, Chat_findOne,
    GroupMetadata_findOrCreate, request. cbn.
  destruct (refuses st (ChatFind (id ev))); cbn; [auto 10|].
  destruct (Chat.lookup (id ev) (base t)) as [chat|] eqn:E; cbn; [|auto 10].
  destruct (refuses st (MetadataFindOrCreate (chat_pk chat))); cbn;
    [repeat split; discriminate|].
  destruct (GroupMetadata.lookup (chat_pk chat) (base t)) as [g|]; cbn.
  - match goal with
    | |- context [pfor ?js ?b st ?t0] =>
        destruct (pfor_guarded_total st (gm_pk g) (action ev) js t0)
          as (Hr & Hb);
        destruct (pfor js b st t0) as [[[]|] t1]; cbn in *;
          [|discriminate]
    end.
    rewrite Hb. cbn. repeat split; discriminate.
  - match goal with
    | |- context [pfor ?js (guarded ?g ?a) st ?t0] =>
        destruct (pfor_guarded_total st g a js t0) as (Hr & Hb);
        destruct (pfor js (guarded g a) st t0) as [[[]|] t1]; cbn in *;
          [|discriminate]
    end.
    rewrite Hb. cbn. repeat split; discriminate.
Qed.

Lemma handle_willing st ev t chat :
  willing st ->
  Chat.lookup (id ev) (base t) = Some chat ->
  let t' := snd (handleParticipantsUpdate ev st t) in
  participants t' =
    fold_left (participant_step (action ev) (clock st)
                 (group_of (chat_pk chat) (base t)))
              (participants_of ev) (participants t) /\
  exists g, GroupMetadata.lookup (chat_pk chat) (base t') = Some g /\
            gm_pk g = group_of (chat_pk chat) (base t).
Proof.
  intros Hw Hc.
  unfold handleParticipantsUpdate, pbind, plog, ptry, Chat_findOne,
    GroupMetadata_findOrCreate, request, group_of. cbn.
  rewrite Hw, Hc. cbn. rewrite Hw.
  destruct (GroupMetadata.lookup (chat_pk chat) (base t)) as [g|] eqn:E; cbn.
  - match goal with
    | |- context [pfor ?js (guarded ?g0 ?a) st ?t0] =>
        pose proof (pfor_guarded_willing st g0 a js t0 Hw) as Hp;
        destruct (pfor_guarded_total st g0 a js t0) as (Hr & Hb);
        destruct (pfor js (guarded g0 a) st t0) as [[[]|] t1]; cbn in *;
          [|discriminate]
    end.
    split; [exact Hp|]. exists g. rewrite Hb. cbn. now split.
  - match goal with
    | |- context [pfor ?js (guarded ?g0 ?a) st ?t0] =>
        pose proof (pfor_guarded_willing st g0 a js t0 Hw) as Hp;
        destruct (pfor_guarded_total st g0 a js t0) as (Hr & Hb);
        destruct (pfor js (guarded g0 a) st t0) as [[[]|] t1]; cbn in *;
          [|discriminate]
    end.
    split; [exact Hp|]. eexists. rewrite Hb. cbn.
    unfold GroupMetadata.lookup in *. cbn. rewrite find_app, E. cbn.
    rewrite Nat.eqb_refl. now split.
Qed.

(* ---------------- add ---------------- *)

Lemma lookup_app_some group jid ps more r :
  lookup group jid ps = Some r -> lookup group jid (ps ++ more) = Some r.
Proof. unfold lookup. intros H. now rewrite find_app, H. Qed.

Lemma add_fold now group js :
  forall ps,
    (exists added,
       fold_left (participant_step add now group) js ps = ps ++ added) /\
    (forall j r,
       lookup group j ps = Some r ->
       lookup group j (fold_left (participant_step add now group) js ps)
       = Some r) /\
    (forall j, In j js -> lookup group j ps = None ->
               exists r',
                 lookup group j
                   (fold_left (participant_step add now group) js ps)
                 = Some r' /\ fresh_member now r').
Proof.
  induction js as [|j js IH]; intros ps; cbn [fold_left].
  - split; [exists []; now rewrite app_nil_r|]. split; [auto|].
    intros j [].
  - set (ps1 := participant_step add now group ps j).
    destruct (IH ps1) as ((added & Hadd) & Hkeep & Hnew).
    assert (Hext : exists one, ps1 = ps ++ one).
    { unfold ps1, participant_step. destruct (lookup group j ps).
      - exists []. now rewrite app_nil_r.
      - eexists. reflexivity. }
    destruct Hext as (one & Hone).
    split; [|split].
    + exists (one ++ added). rewrite Hadd, Hone. now rewrite app_assoc.
    + intros j0 r H. apply Hkeep. rewrite Hone. now apply lookup_app_some.
    + intros j0 Hin Hnone.
      destruct (lookup group j0 ps1) as [r1|] eqn:E1.
      * exists r1. split; [now apply Hkeep|].
        unfold ps1, participant_step in E1.
        destruct (lookup group j ps); [congruence|].
        unfold lookup in E1, Hnone. rewrite find_app, Hnone in E1.
        cbn in E1.
        destruct ((group =? group)%nat && (j =? j0)); [|discriminate].
        inversion E1; subst r1. repeat split.
      * destruct Hin as [->|Hin]; [|now apply Hnew].
        exfalso. unfold ps1, participant_step in E1.
        destruct (lookup group j0 ps) eqn:E0; [congruence|].
        unfold lookup in E1, E0. rewrite find_app, E0 in E1. cbn in E1.
        now rewrite Nat.eqb_refl, String.eqb_refl in E1.
Qed.

(** X22: with the store accepting the requests, an "add" event for a
    stored group only appends rows: a listed participant that has a row
    keeps it unchanged (an inactive one is not reactivated), and one that
    has none gets an active "member" row added at the time of the event. *)
Theorem participants_add_is_idempotent
        (st : Setting) (ev : ParticipantsUpdateEvent) (t : Tables)
        (chat : ChatRow) :
  willing st ->
  Chat.lookup (id ev) (base t) = Some chat ->
  action ev = add ->
  let t' := snd (handleParticipantsUpdate ev st t) in
  let group := group_of (chat_pk chat) (base t) in
  (exists added, participants t' = participants t ++ added) /\
  forall j, In j (participants_of ev) ->
    match lookup group j (participants t) with
    | Some r => lookup group j (participants t') = Some r
    | None =>
        exists r', lookup group j (participants t') = Some r' /\
                   fresh_member (clock st) r'
    end.
Proof.
  intros Hw Hc Ha t' group.
  destruct (handle_willing st ev t chat Hw Hc) as (Hp & _).
  fold t' in Hp. fold group in Hp. rewrite Ha in Hp.
  destruct (add_fold (clock st) group (participants_of ev) (participants t))
    as (Hadd & Hkeep & Hnew).
  rewrite Hp. split; [exact Hadd|].
  intros j Hin. destruct (lookup group j (participants t)) eqn:E.
  - now apply Hkeep.
  - now apply Hnew.
Qed.

Lemma touched_identity a now r : identity (touched a now r) = identity r.
Proof. now destruct a. Qed.

Lemma touched_twice a now r :
  touched a now (touched a now r) = touched a now r.
Proof. now destruct a. Qed.

Lemma lookup_related a now group jid ps0 ps :
  Forall2 (maybe_touched a now) ps0 ps ->
  match lookup group jid ps0, lookup group jid ps with
  | Some r0, Some r => maybe_touched a now r0 r
  | None, None => True
  | _, _ => False
  end.
Proof.
  unfold lookup. induction 1 as [|r0 r ps0 ps Hr _ IH]; cbn; [exact I|].
  assert (Hk : group_metadata_id r = group_metadata_id r0 /\
               participant_jid r = participant_jid r0).
  { destruct Hr as [->| ->]; [now split|]. now destruct a. }
  destruct Hk as (-> & ->).
  destruct ((group_metadata_id r0 =? group)%nat &&
            (participant_jid r0 =? jid)); [exact Hr|exact IH].
Qed.

Lemma lookup_map_touched a now group jid pk ps :
  lookup group jid
    (map (fun r => if (gp_pk r =? pk)%nat then touched a now r else r) ps)
  = option_map
      (fun r => if (gp_pk r =? pk)%nat then touched a now r else r)
      (lookup group jid ps).
Proof.
  unfold lookup. apply find_map. intros r.
  destruct (gp_pk r =? pk)%nat; [|reflexivity]. now destruct a.
Qed.

Lemma step_related a now group jid ps0 ps :
  in_place a = true ->
  Forall2 (maybe_touched a now) ps0 ps ->
  Forall2 (maybe_touched a now) ps0 (participant_step a now group ps jid).
Proof.
  intros Ha H.
  assert (Hmap : forall pk,
             Forall2 (maybe_touched a now) ps0
               (map (fun r => if (gp_pk r =? pk)%nat
                              then touched a now r else r) ps)).
  { intros pk. induction H as [|r0 r ps0 ps Hr _ IH]; cbn; constructor;
      [|exact IH].
    destruct (gp_pk r =? pk)%nat; [|exact Hr].
    right. destruct Hr as [->| ->]; [reflexivity|apply touched_twice]. }
  unfold participant_step.
  destruct a; try discriminate Ha;
    destruct (lookup group jid ps); try exact H; apply Hmap.
Qed.

Lemma step_settles a now group jid ps0 ps :
  in_place a = true ->
  Forall2 (maybe_touched a now) ps0 ps ->
  settled_row a now group ps0 (participant_step a now group ps jid) jid.
Proof.
  intros Ha H. unfold settled_row.
  pose proof (lookup_related a now group jid ps0 ps H) as Hl.
  assert (E : participant_step a now group ps jid =
              match lookup group jid ps with
              | Some p =>
                  map (fun r => if (gp_pk r =? gp_pk p)%nat
                                then touched a now r else r) ps
              | None => ps
              end)
    by (destruct a; try discriminate Ha; reflexivity).
  rewrite E.
  destruct (lookup group jid ps0) as [r0|],
           (lookup group jid ps) as [r|] eqn:El; try contradiction.
  - rewrite lookup_map_touched, El. cbn. rewrite Nat.eqb_refl.
    destruct Hl as [->| ->]; [reflexivity|now rewrite touched_twice].
  - exact El.
Qed.

Lemma step_keeps_settled a now group jid j0 ps0 ps :
  in_place a = true ->
  settled_row a now group ps0 ps j0 ->
  settled_row a now group ps0 (participant_step a now group ps jid) j0.
Proof.
  intros Ha H. unfold settled_row in *.
  assert (E : participant_step a now group ps jid =
              match lookup group jid ps with
              | Some p =>
                  map (fun r => if (gp_pk r =? gp_pk p)%nat
                                then touched a now r else r) ps
              | None => ps
              end)
    by (destruct a; try discriminate Ha; reflexivity).
  rewrite E. destruct (lookup group jid ps) as [p|]; [|exact H].
  rewrite lookup_map_touched, H.
  destruct (lookup group j0 ps0) as [r0|]; cbn; [|reflexivity].
  replace (gp_pk (touched a now r0)) with (gp_pk r0) by now destruct a.
  destruct (gp_pk r0 =? gp_pk p)%nat; [|reflexivity].
  now rewrite touched_twice.
Qed.

Lemma in_place_fold a now group ps0 js :
  in_place a = true ->
  forall ps,
    Forall2 (maybe_touched a now) ps0 ps ->
    Forall2 (maybe_touched a now) ps0
            (fold_left (participant_step a now group) js ps) /\
    (forall j0, settled_row a now group ps0 ps j0 ->
                settled_row a now group ps0
                  (fold_left (participant_step a now group) js ps) j0) /\
    (forall j, In j js ->
               settled_row a now group ps0
                 (fold_left (participant_step a now group) js ps) j).
Proof.
  intros Ha. induction js as [|j js IH]; intros ps H; cbn [fold_left].
  - split; [exact H|]. split; [auto|]. intros j [].
  - destruct (IH _ (step_related a now group j ps0 ps Ha H))
      as (Hrel & Hkeep & Hall).
    split; [exact Hrel|]. split.
    + intros j0 H0. apply Hkeep. now apply step_keeps_settled.
    + intros j0 [<-|Hin]; [|now apply Hall].
      apply Hkeep. now apply step_settles.
Qed.

Lemma related_refl a now ps : Forall2 (maybe_touched a now) ps ps.
Proof. induction ps; constructor; [now left|assumption]. Qed.

Lemma related_identity a now ps0 ps :
  Forall2 (maybe_touched a now) ps0 ps -> map identity ps = map identity ps0.
Proof.
  induction 1 as [|r0 r ps0 ps Hr _ IH]; cbn; [reflexivity|].
  rewrite IH. f_equal.
  destruct Hr as [->| ->]; [reflexivity|apply touched_identity].
Qed.

(** X23: with the store accepting the requests, a "remove", "promote" or
    "demote" event for a stored group adds and deletes no row and changes
    no row id, group, JID or added-at time; each listed participant that
    has a row ends deactivated with the removal time, as "admin", or as
    "member", and one that has none still has none. *)
Theorem participants_change_in_place
        (st : Setting) (ev : ParticipantsUpdateEvent) (t : Tables)
        (chat : ChatRow) :
  willing st ->
  Chat.lookup (id ev) (base t) = Some chat ->
  in_place (action ev) = true ->
  let t' := snd (handleParticipantsUpdate ev st t) in
  let group := group_of (chat_pk chat) (base t) in
  map identity (participants t') = map identity (participants t) /\
  forall j, In j (participants_of ev) ->
    lookup group j (participants t') =
    option_map (touched (action ev) (clock st))
               (lookup group j (participants t)).
Proof.
  intros Hw Hc Ha t' group.
  destruct (handle_willing st ev t chat Hw Hc) as (Hp & _).
  fold t' in Hp. fold group in Hp.
  destruct (in_place_fold (action ev) (clock st) group (participants t)
              (participants_of ev) Ha (participants t)
              (related_refl _ _ _)) as (Hrel & _ & Hall).
  rewrite Hp. split; [now apply related_identity in Hrel|].
  intros j Hin. now apply Hall.
Qed.

(** X24: [handleParticipantsUpdate] returns normally whatever the store
    rejects, never touches the chats, contacts or messages tables, and
    changes nothing at all for a group whose chat is not stored. *)
Theorem participants_update_never_throws
        (st : Setting) (ev : ParticipantsUpdateEvent) (t : Tables) :
  let (r, t') := handleParticipantsUpdate ev st t in
  r = Some tt /\
  chats (base t') = chats (base t) /\
  contacts (base t') = contacts (base t) /\
  messages (base t') = messages (base t) /\
  (Chat.lookup (id ev) (base t) = None ->
   base t' = base t /\ participants t' = participants t).
Proof. apply handle_total. Qed.

End ParticipantsProperties.

Section ParticipantsWitnesses.

Import Participants ParticipantSamples.

Lemma open_store_willing : willing open_store.
Proof. intros r. reflexivity. Qed.

Lemma participants_add_is_idempotent_witness :
  length (participants two_members) = 2 /\
  match Chat.lookup family (store directory) with
  | Some chat =>
      let t' := snd (handleParticipantsUpdate (members add [alice; bob])
                       open_store two_members) in
      let group := group_of (chat_pk chat) (base two_members) in
      (exists added, participants t' = participants two_members ++ added) /\
      forall j, In j [alice; bob] ->
        match lookup group j (participants two_members) with
        | Some r => lookup group j (participants t') = Some r
        | None =>
            exists r', lookup group j (participants t') = Some r' /\
                       fresh_member (clock open_store) r'
        end
  | None => False
  end.
Proof.
  split; [reflexivity|].
  destruct (Chat.lookup family (store directory)) as [chat|] eqn:E;
    [|vm_compute in E; discriminate E].
  assert (Hc : Chat.lookup (id (members add [alice; bob])) (base two_members)
               = Some chat).
  { rewrite <- E. vm_compute. reflexivity. }
  exact (participants_add_is_idempotent open_store (members add [alice; bob])
           two_members chat open_store_willing Hc eq_refl).
Defined.

Lemma participants_change_in_place_witness :
  match Chat.lookup family (store directory) with
  | Some chat =>
      let t' := snd (handleParticipantsUpdate (members promote [bob])
                       open_store two_members) in
      let group := group_of (chat_pk chat) (base two_members) in
      map identity (participants t') = map identity (participants two_members) /\
      forall j, In j [bob] ->
        lookup group j (participants t') =
        option_map (touched promote (clock open_store))
                   (lookup group j (participants two_members))
  | None => False
  end /\
  map role (participants
              (snd (handleParticipantsUpdate (members promote [bob])
                      open_store two_members))) = ["member"; "admin"].
Proof.
  split; [|reflexivity].
  destruct (Chat.lookup family (store directory)) as [chat|] eqn:E;
    [|vm_compute in E; discriminate E].
  assert (Hc : Chat.lookup (id (members promote [bob])) (base two_members)
               = Some chat).
  { rewrite <- E. vm_compute. reflexivity. }
  exact (participants_change_in_place open_store (members promote [bob])
           two_members chat open_store_willing Hc eq_refl).
Defined.

End ParticipantsWitnesses.

